(** * tinymudserver: the connection engine, embedded and verified

    A shallow embedding of [tinymudserver.cpp]: the per-connection login
    state machine, the command dispatcher, the broadcast fan-out, the
    player-file persistence, the socket read/write handlers and the loaders
    of the messages and rooms files.

    Conventions of the embedding.
    - A [tPlayer *] is the position of the session in [playerlist]; the
      handlers never add or remove sessions, so positions are stable during
      one dispatch.
    - A C++ exception is the [Threw] outcome of a state-and-error monad; the
      state written before a [throw] is kept, as in the program.
    - [DoCommand] re-enters [ProcessCommand]; the recursion is bounded by a
      fuel argument and running out of it is the outcome [Diverged].
    - Text sent to [cout]/[cerr] is appended to the [console] of the world.
    - The size the program narrows to [int], that of the pending output in
      [ProcessWrite], is narrowed in the model as well ([to_int]).
    - A [const char *] is a C string: [c_str] cuts a text at its first NUL
      byte, for the [what ()] that the dispatch boundary sends and for the
      path of the file test of a new player.
    - The file system is the finite map [files] from canonical paths to the
      contents of the regular files.  The test of a new player, on a path
      made from a text that may hold any byte, walks the path as the system
      does ([ifstream_opens]); [Load] and [Save] are given the name of the
      session, which has passed the test of [valid_player_name], and use the
      path as it is.
    - A variable the program reads before it has written it holds an
      indeterminate value, which is an argument of the function. *)

From Stdlib Require Import ZArith String Ascii List Bool Lia.
From Stdlib Require Import Decimal DecimalString DecimalZ Sorted.
From stdpp Require Import base option list gmap strings.

Local Open Scope string_scope.
Local Open Scope Z_scope.

(** ** Characters and strings *)

(** [isspace], [tolower], [toupper], [isalnum] and digits in the "C" locale. *)
Definition isspace (c : ascii) : bool :=
  let n := N_of_ascii c in
  (N.eqb n 32 || (N.leb 9 n && N.leb n 13))%N.

Definition isupper (c : ascii) : bool :=
  let n := N_of_ascii c in (N.leb 65 n && N.leb n 90)%N.

Definition islower (c : ascii) : bool :=
  let n := N_of_ascii c in (N.leb 97 n && N.leb n 122)%N.

Definition isdigit (c : ascii) : bool :=
  let n := N_of_ascii c in (N.leb 48 n && N.leb n 57)%N.

Definition isalnum (c : ascii) : bool := isupper c || islower c || isdigit c.

Definition tolower_char (c : ascii) : ascii :=
  if isupper c then ascii_of_N (N_of_ascii c + 32) else c.

Definition toupper_char (c : ascii) : ascii :=
  if islower c then ascii_of_N (N_of_ascii c - 32) else c.

Fixpoint str_map (f : ascii -> ascii) (s : string) : string :=
  match s with
  | EmptyString => EmptyString
  | String c s' => String (f c) (str_map f s')
  end.

(** [tolower (const string &)] *)
Definition tolower (s : string) : string := str_map tolower_char s.

(** [fCapitals]: the functor carries [bUpper] from one character to the next. *)
Fixpoint fCapitals (bUpper : bool) (s : string) : string :=
  match s with
  | EmptyString => EmptyString
  | String c s' =>
      String (if bUpper then toupper_char c else tolower_char c)
             (fCapitals (negb (isalnum c)) s')
  end.

(** [tocapitals] *)
Definition tocapitals (s : string) : string := fCapitals true s.

(** [ciEqualTo]: [mismatch] with [compare_equal], then both at their end. *)
Fixpoint ciStringEqual (s1 s2 : string) : bool :=
  match s1, s2 with
  | EmptyString, EmptyString => true
  | String c1 r1, String c2 r2 =>
      Ascii.eqb (tolower_char c1) (tolower_char c2) && ciStringEqual r1 r2
  | _, _ => false
  end.

(** [ciLess]: [lexicographical_compare] with [compare_less]. *)
Fixpoint ciLess (s1 s2 : string) : bool :=
  match s1, s2 with
  | _, EmptyString => false
  | EmptyString, String _ _ => true
  | String c1 r1, String c2 r2 =>
      let a := N_of_ascii (tolower_char c1) in
      let b := N_of_ascii (tolower_char c2) in
      if (a <? b)%N then true
      else if (b <? a)%N then false
      else ciLess r1 r2
  end.

Fixpoint str_mem (c : ascii) (t : string) : bool :=
  match t with
  | EmptyString => false
  | String d t' => Ascii.eqb c d || str_mem c t'
  end.

Fixpoint str_drop (n : nat) (s : string) : string :=
  match n, s with
  | O, _ => s
  | S _, EmptyString => EmptyString
  | S n', String _ s' => str_drop n' s'
  end.

Fixpoint str_take (n : nat) (s : string) : string :=
  match n, s with
  | O, _ => EmptyString
  | S _, EmptyString => EmptyString
  | S n', String c s' => String c (str_take n' s')
  end.

(** [s.find_first_not_of (t)]; [None] is [npos]. *)
Fixpoint find_first_not_of (t s : string) : option nat :=
  match s with
  | EmptyString => None
  | String c s' =>
      if str_mem c t then S <$> find_first_not_of t s' else Some O
  end.

(** [s.find_first_not_of (t) != string::npos] *)
Definition has_char_not_of (t s : string) : bool :=
  match find_first_not_of t s with Some _ => true | None => false end.

(** [s.find_last_not_of (t)] *)
Fixpoint find_last_not_of (t s : string) : option nat :=
  match s with
  | EmptyString => None
  | String c s' =>
      match find_last_not_of t s' with
      | Some i => Some (S i)
      | None => if str_mem c t then None else Some O
      end
  end.

(** [s.find ('\n')] style search for one character. *)
Fixpoint find_char (c : ascii) (s : string) : option nat :=
  match s with
  | EmptyString => None
  | String d s' => if Ascii.eqb d c then Some O else S <$> find_char c s'
  end.

Definition valid_player_name : string :=
  "ABCDEFGHIJKLMNOPQRSTUVWXYZabcdefghijklmnopqrstuvwxyz0123456789_-".

Definition nl : string := String (ascii_of_nat 10) EmptyString.
Definition tab : string := String (ascii_of_nat 9) EmptyString.
Definition cr : string := String (ascii_of_nat 13) EmptyString.
Definition dquote : string := String (ascii_of_nat 34) EmptyString.

Definition SPACES : string := " " ++ tab ++ cr ++ nl.

(** [Trim] *)
Definition Trim (s t : string) : string :=
  match find_last_not_of t s with
  | None => ""
  | Some i =>
      let d := str_take (S i) s in
      match find_first_not_of t s with
      | Some k => str_drop k d
      | None => ""
      end
  end.

Definition str_empty (s : string) : bool :=
  match s with EmptyString => true | _ => false end.

(** A [string] read as a C string, which [s.c_str ()] and the [what ()] of an
    exception made from [s] are: the text before its first NUL byte. *)
Fixpoint c_str (s : string) : string :=
  match s with
  | EmptyString => EmptyString
  | String c s' =>
      if Ascii.eqb c (ascii_of_nat 0) then EmptyString else String c (c_str s')
  end.

(** ** Configuration constants *)

Definition PROMPT : string := "> ".
Definition INITIAL_ROOM : Z := 1000.
Definition MAX_PASSWORD_ATTEMPTS : Z := 3.
Definition NO_SOCKET : Z := -1.
Definition PLAYER_DIR : string := "./players/".
Definition PLAYER_EXT : string := ".player".
Definition INT_MAX : Z := 2147483647.
Definition INT_MIN : Z := -2147483648.

(** A size converted to [int]: its value modulo 2^32, in the range of [int]. *)
Definition to_int (z : Z) : Z := (z + 2147483648) mod 4294967296 - 2147483648.

(** ** Input streams ([istream], [istringstream], [ifstream])

    A stream is its unread characters and the two state bits the program
    depends on.  The operations follow the C++11 formatted and unformatted
    input functions: each starts with a sentry, which fails on a stream that
    is not [good] and sets [failbit]. *)

Record istream := mk_is { rest : string; eofbit : bool; failbit : bool }.

Definition istringstream (s : string) : istream :=
  {| rest := s; eofbit := false; failbit := false |}.

Definition good (i : istream) : bool := negb (eofbit i) && negb (failbit i).
Definition fail (i : istream) : bool := failbit i.
Definition eof (i : istream) : bool := eofbit i.

Definition set_fail (i : istream) : istream :=
  {| rest := rest i; eofbit := eofbit i; failbit := true |}.

Fixpoint skip_spaces (s : string) : string :=
  match s with
  | EmptyString => EmptyString
  | String c s' => if isspace c then skip_spaces s' else s
  end.

(** The sentry of a formatted input function: skips white space; reaching the
    end while skipping sets [eofbit] and [failbit]. *)
Definition sentry (i : istream) : bool * istream :=
  if good i then
    let r := skip_spaces (rest i) in
    if str_empty r
    then (false, {| rest := r; eofbit := true; failbit := true |})
    else (true, {| rest := r; eofbit := false; failbit := false |})
  else (false, set_fail i).

Fixpoint span_token (s : string) : string * string :=
  match s with
  | EmptyString => (EmptyString, EmptyString)
  | String c s' =>
      if isspace c then (EmptyString, s)
      else let '(t, r) := span_token s' in (String c t, r)
  end.

(** [is >> str]: [cur] is the value [str] had; it is kept when the sentry
    fails. *)
Definition read_string (cur : string) (i : istream) : string * istream :=
  let '(ok, i1) := sentry i in
  if ok then
    let '(t, r) := span_token (rest i1) in
    (t, {| rest := r; eofbit := str_empty r; failbit := false |})
  else (cur, i1).

(** [is >> ws] *)
Definition ws (i : istream) : istream :=
  if good i then
    let r := skip_spaces (rest i) in
    {| rest := r; eofbit := str_empty r; failbit := false |}
  else set_fail i.

(** [getline (is, str)] *)
Definition getline (cur : string) (i : istream) : string * istream :=
  if good i then
    match find_char (ascii_of_nat 10) (rest i) with
    | Some k =>
        (str_take k (rest i),
         {| rest := str_drop (S k) (rest i); eofbit := false; failbit := false |})
    | None =>
        (rest i, {| rest := ""; eofbit := true; failbit := str_empty (rest i) |})
    end
  else (cur, set_fail i).

(** [f.ignore (numeric_limits<int>::max (), '\n')] *)
Definition ignore_line (i : istream) : istream :=
  if good i then
    match find_char (ascii_of_nat 10) (rest i) with
    | Some k => {| rest := str_drop (S k) (rest i); eofbit := false; failbit := false |}
    | None => {| rest := ""; eofbit := true; failbit := false |}
    end
  else set_fail i.

Fixpoint span_digits (s : string) : uint * string :=
  match s with
  | EmptyString => (Nil, EmptyString)
  | String c s' =>
      if isdigit c then
        let '(u, r) := span_digits s' in
        (match uint_of_char c (Some u) with Some u' => u' | None => u end, r)
      else (Nil, s)
  end.

Definition span_sign (s : string) : bool * string :=
  match s with
  | String "-" s' => (true, s')
  | String "+" s' => (false, s')
  | _ => (false, s)
  end.

(** [is >> n] for an [int]: sign, decimal digits; no digit at all or a value
    outside [int] sets [failbit]. *)
Definition read_int (cur : Z) (i : istream) : Z * istream :=
  let '(ok, i1) := sentry i in
  if ok then
    let '(neg, r0) := span_sign (rest i1) in
    let '(u, r) := span_digits r0 in
    match u with
    | Nil => (0, {| rest := r; eofbit := str_empty r; failbit := true |})
    | _ =>
        let v := if neg then - Z.of_uint u else Z.of_uint u in
        if v <? INT_MIN then
          (INT_MIN, {| rest := r; eofbit := str_empty r; failbit := true |})
        else if INT_MAX <? v then
          (INT_MAX, {| rest := r; eofbit := str_empty r; failbit := true |})
        else (v, {| rest := r; eofbit := str_empty r; failbit := false |})
    end
  else (cur, i1).

(** [os << n] for an [int] *)
Definition string_of_Z (z : Z) : string := NilZero.string_of_int (Z.to_int z).

(** ** Case-independent sets and maps

    [set<string, ciLess>] is kept as the list of its elements in iteration
    order; two strings are the same key when neither is [ciLess] than the
    other. *)

Definition ci_equiv (a b : string) : bool := negb (ciLess a b) && negb (ciLess b a).

Definition set_find (x : string) (s : list string) : bool := existsb (ci_equiv x) s.

Fixpoint ordered_insert (x : string) (s : list string) : list string :=
  match s with
  | [] => [x]
  | y :: s' => if ciLess x y then x :: s else y :: ordered_insert x s'
  end.

Definition set_insert (x : string) (s : list string) : list string :=
  if set_find x s then s else ordered_insert x s.

Definition set_erase (x : string) (s : list string) : list string :=
  List.filter (fun y => negb (ci_equiv x y)) s.

(** [map<string, string, ciLess>::operator[]] read as an rvalue: a missing key
    yields the empty string (the entry it adds is not observable). *)
Fixpoint message_of (m : list (string * string)) (code : string) : string :=
  match m with
  | [] => ""
  | (k, v) :: m' => if ci_equiv code k then v else message_of m' code
  end.

(** [tExitMap::find] ([map<string,int>], ordinary string order). *)
Fixpoint exit_find (exits : list (string * Z)) (dir : string) : option Z :=
  match exits with
  | [] => None
  | (k, v) :: e' => if String.eqb k dir then Some v else exit_find e' dir
  end.

(** ** Data model *)

Inductive tConnectionStates :=
  | eAwaitingName
  | eAwaitingPassword
  | eAwaitingNewName
  | eAwaitingNewPassword
  | eConfirmPassword
  | ePlaying.

#[global] Instance tConnectionStates_eq_dec : EqDecision tConnectionStates.
Proof. solve_decision. Defined.

(** [class tPlayer]; [sock] is the member [s]. *)
Record tPlayer := mk_player {
  sock : Z;
  port : Z;
  outbuf : string;
  inbuf : string;
  address : string;
  connstate : tConnectionStates;
  prompt : string;
  playername : string;
  password : string;
  badPasswordCount : Z;
  room : Z;
  closing : bool;
  flags : list string
}.

Definition set_sock (v : Z) (p : tPlayer) : tPlayer :=
  mk_player v (port p) (outbuf p) (inbuf p) (address p) (connstate p) (prompt p)
            (playername p) (password p) (badPasswordCount p) (room p) (closing p) (flags p).
Definition set_outbuf (v : string) (p : tPlayer) : tPlayer :=
  mk_player (sock p) (port p) v (inbuf p) (address p) (connstate p) (prompt p)
            (playername p) (password p) (badPasswordCount p) (room p) (closing p) (flags p).
Definition set_inbuf (v : string) (p : tPlayer) : tPlayer :=
  mk_player (sock p) (port p) (outbuf p) v (address p) (connstate p) (prompt p)
            (playername p) (password p) (badPasswordCount p) (room p) (closing p) (flags p).
Definition set_connstate (v : tConnectionStates) (p : tPlayer) : tPlayer :=
  mk_player (sock p) (port p) (outbuf p) (inbuf p) (address p) v (prompt p)
            (playername p) (password p) (badPasswordCount p) (room p) (closing p) (flags p).
Definition set_prompt (v : string) (p : tPlayer) : tPlayer :=
  mk_player (sock p) (port p) (outbuf p) (inbuf p) (address p) (connstate p) v
            (playername p) (password p) (badPasswordCount p) (room p) (closing p) (flags p).
Definition set_playername (v : string) (p : tPlayer) : tPlayer :=
  mk_player (sock p) (port p) (outbuf p) (inbuf p) (address p) (connstate p) (prompt p)
            v (password p) (badPasswordCount p) (room p) (closing p) (flags p).
Definition set_password (v : string) (p : tPlayer) : tPlayer :=
  mk_player (sock p) (port p) (outbuf p) (inbuf p) (address p) (connstate p) (prompt p)
            (playername p) v (badPasswordCount p) (room p) (closing p) (flags p).
Definition set_badPasswordCount (v : Z) (p : tPlayer) : tPlayer :=
  mk_player (sock p) (port p) (outbuf p) (inbuf p) (address p) (connstate p) (prompt p)
            (playername p) (password p) v (room p) (closing p) (flags p).
Definition set_room (v : Z) (p : tPlayer) : tPlayer :=
  mk_player (sock p) (port p) (outbuf p) (inbuf p) (address p) (connstate p) (prompt p)
            (playername p) (password p) (badPasswordCount p) v (closing p) (flags p).
Definition set_closing (v : bool) (p : tPlayer) : tPlayer :=
  mk_player (sock p) (port p) (outbuf p) (inbuf p) (address p) (connstate p) (prompt p)
            (playername p) (password p) (badPasswordCount p) (room p) v (flags p).
Definition set_flags (v : list string) (p : tPlayer) : tPlayer :=
  mk_player (sock p) (port p) (outbuf p) (inbuf p) (address p) (connstate p) (prompt p)
            (playername p) (password p) (badPasswordCount p) (room p) (closing p) v.

(** [tPlayer::Init] *)
Definition Init (p : tPlayer) : tPlayer :=
  set_prompt "Enter your name, or 'new' to create a new character ...  "
    (set_flags [] (set_room INITIAL_ROOM (set_connstate eAwaitingName p))).

(** The constructor: socket, port and address from [accept], [closing] false,
    then [Init].  [badPasswordCount] is not initialised by the program; it is
    written by the name handlers before it is read. *)
Definition new_tPlayer (sk pt : Z) (a : string) : tPlayer :=
  Init (mk_player sk pt "" "" a eAwaitingName "" "" "" 0 INITIAL_ROOM false []).

Definition Connected (p : tPlayer) : bool := negb (sock p =? NO_SOCKET).

Definition IsPlaying (p : tPlayer) : bool :=
  Connected p && bool_decide (connstate p = ePlaying) && negb (closing p).

Definition PendingOutput (p : tPlayer) : bool := negb (str_empty (outbuf p)).

(** [operator<<] on a player: append to the pending output. *)
Definition put (msg : string) (p : tPlayer) : tPlayer :=
  set_outbuf (outbuf p ++ msg) p.

Definition ClosePlayer (p : tPlayer) : tPlayer := set_closing true p.

(** [tPlayer::HaveFlag] *)
Definition HaveFlag (p : tPlayer) (name : string) : bool := set_find name (flags p).

(** [class tRoom]; [exits] lists the exit map in key order. *)
Record tRoom := mk_room {
  description : string;
  exits : list (string * Z)
}.

(** The globals of the program, the player files on disk and the console.
    [unwritable] holds the paths an [ofstream] fails to open. *)
Record World := mk_world {
  playerlist : list tPlayer;
  roommap : gmap Z tRoom;
  messagemap : list (string * string);
  directionset : list string;
  badnameset : list string;
  bStopNow : bool;
  files : gmap string string;
  unwritable : gset string;
  console : list string
}.

Definition set_playerlist (v : list tPlayer) (w : World) : World :=
  mk_world v (roommap w) (messagemap w) (directionset w) (badnameset w)
           (bStopNow w) (files w) (unwritable w) (console w).
Definition set_bStopNow (v : bool) (w : World) : World :=
  mk_world (playerlist w) (roommap w) (messagemap w) (directionset w) (badnameset w)
           v (files w) (unwritable w) (console w).
Definition set_files (v : gmap string string) (w : World) : World :=
  mk_world (playerlist w) (roommap w) (messagemap w) (directionset w) (badnameset w)
           (bStopNow w) v (unwritable w) (console w).
Definition set_console (v : list string) (w : World) : World :=
  mk_world (playerlist w) (roommap w) (messagemap w) (directionset w) (badnameset w)
           (bStopNow w) (files w) (unwritable w) v.

(** A session that is never in the list; read only through a dangling index. *)
Definition nobody : tPlayer :=
  mk_player NO_SOCKET 0 "" "" "" eAwaitingName "" "" "" 0 0 true [].

Definition player_at (w : World) (p : nat) : tPlayer :=
  default nobody (playerlist w !! p).

(** ** The monad of handlers: state, exceptions, and exhausted fuel *)

Inductive outcome (A : Type) :=
  | Done (a : A)
  | Threw (what : string)
  | Diverged.
Arguments Done {A} a.
Arguments Threw {A} what.
Arguments Diverged {A}.

Definition M (A : Type) : Type := World -> World * outcome A.

Definition ret {A} (a : A) : M A := fun w => (w, Done a).

Definition bind {A B} (m : M A) (k : A -> M B) : M B :=
  fun w =>
    match m w with
    | (w', Done a) => k a w'
    | (w', Threw e) => (w', Threw e)
    | (w', Diverged) => (w', Diverged)
    end.

Definition throw {A} (what : string) : M A := fun w => (w, Threw what).
Definition diverge {A} : M A := fun w => (w, Diverged).

(** [try { m } catch (runtime_error & e) { h e }] *)
Definition try_catch {A} (m : M A) (h : string -> M A) : M A :=
  fun w =>
    match m w with
    | (w', Threw e) => h e w'
    | r => r
    end.

Declare Scope mud_scope.
Delimit Scope mud_scope with mud.
Notation "x <- m ;; k" := (bind m (fun x => k))
  (at level 20, m at level 99, k at level 200, only parsing) : mud_scope.
Notation "' pat <- m ;; k" := (bind m (fun x => match x with pat => k end))
  (at level 20, pat pattern, m at level 99, k at level 200, only parsing) : mud_scope.
Notation "m ;;; k" := (bind m (fun _ => k))
  (at level 100, k at level 200, only parsing, right associativity) : mud_scope.
Local Open Scope mud_scope.

Definition get_world : M World := fun w => (w, Done w).
Definition get (p : nat) : M tPlayer := fun w => (w, Done (player_at w p)).
Definition modify (p : nat) (f : tPlayer -> tPlayer) : M unit :=
  fun w => (set_playerlist (alter f p (playerlist w)) w, Done tt).
Definition send (p : nat) (msg : string) : M unit := modify p (put msg).
Definition log (line : string) : M unit :=
  fun w => (set_console (console w ++ [line])%list w, Done tt).
Definition when (b : bool) (m : M unit) : M unit := if b then m else ret tt.

(** ** Lookups *)

Fixpoint find_if {A} (f : A -> bool) (l : list A) : option nat :=
  match l with
  | [] => None
  | x :: l' => if f x then Some O else S <$> find_if f l'
  end.

(** [findPlayerName] *)
Definition findPlayerName (name : string) (p : tPlayer) : bool :=
  IsPlaying p && ciStringEqual (playername p) name.

(** [FindPlayer]; [None] is [NULL]. *)
Definition FindPlayer (w : World) (name : string) : option nat :=
  find_if (findPlayerName name) (playerlist w).

(** [FindRoom] *)
Definition FindRoom (vnum : Z) : M tRoom :=
  fun w =>
    match roommap w !! vnum with
    | None => (w, Threw ("Room number " ++ string_of_Z vnum ++ " does not exist."))
    | Some r => (w, Done r)
    end.

(** [GetMessage] *)
Definition GetMessage (sArgs : istream) (noMessageError : string) : M string :=
  let sArgs := ws sArgs in
  let '(message, _) := getline "" sArgs in
  if str_empty message then throw noMessageError else ret message.

(** [GetFlag] *)
Definition GetFlag (sArgs : istream) (noFlagError : string) : M (string * istream) :=
  let '(flag, sArgs) := read_string "" (ws sArgs) in
  if str_empty flag then throw noFlagError
  else if has_char_not_of valid_player_name flag then throw "Flag name not valid."
  else ret (flag, sArgs).

(** [tPlayer::GetPlayer] *)
Definition GetPlayer (this : nat) (args : istream) (noNameMessage : string)
    (notme : bool) : M (nat * istream) :=
  let '(name, args) := read_string "" args in
  if str_empty name then throw noNameMessage
  else
    w <- get_world ;;
    let p := if ciStringEqual name "me" || ciStringEqual name "self"
             then Some this else FindPlayer w name in
    match p with
    | None => throw ("Player " ++ tocapitals name ++ " is not connected.")
    | Some q =>
        if notme && Nat.eqb q this then throw "You cannot do that to yourself."
        else ret (q, args)
    end.

(** [tPlayer::NeedFlag] and [tPlayer::NeedNoFlag] *)
Definition NeedFlag (p : nat) (name : string) : M unit :=
  pl <- get p ;;
  if HaveFlag pl name then ret tt else throw "You are not permitted to do that.".

Definition NeedNoFlag (p : nat) (name : string) : M unit :=
  pl <- get p ;;
  if HaveFlag pl name then throw "You are not permitted to do that." else ret tt.

(** [NoMore] *)
Definition NoMore (p : nat) (sArgs : istream) : M unit :=
  let '(sLine, _) := getline "" sArgs in
  if str_empty sLine then ret tt else throw ("Unexpected input: " ++ sLine).

(** ** Broadcast *)

(** [sendToPlayer::operator()]; [except] is [None] for [NULL]. *)
Definition sendToPlayer (message : string) (except : option nat) (rm : Z)
    (i : nat) (p : tPlayer) : tPlayer :=
  if IsPlaying p && negb (bool_decide (except = Some i))
     && ((rm =? 0) || (room p =? rm))
  then put message p else p.

(** [SendToAll] *)
Definition SendToAll (message : string) (ExceptThis : option nat) (InRoom : Z) : M unit :=
  fun w => (set_playerlist (imap (sendToPlayer message ExceptThis InRoom) (playerlist w)) w,
            Done tt).

(** ** Movement and the commands

    [tPlayer::DoCommand] calls back into [ProcessCommand], which is defined
    after the handlers; the handlers that use it take it as their first
    argument. *)

Definition tDoCommand : Type := nat -> string -> M unit.

(** [tHandler], with the call-back to [DoCommand] made explicit. *)
Definition tHandler : Type := tDoCommand -> nat -> istream -> M unit.

(** [PlayerToRoom] *)
Definition PlayerToRoom (DoCommand : tDoCommand) (p : nat) (vnum : Z)
    (sPlayerMessage sOthersDepartMessage sOthersArrriveMessage : string) : M unit :=
  _ <- FindRoom vnum ;;
  pl <- get p ;;
  SendToAll sOthersDepartMessage (Some p) (room pl) ;;;
  modify p (set_room vnum) ;;;
  send p sPlayerMessage ;;;
  DoCommand p "look" ;;;
  pl <- get p ;;
  SendToAll sOthersArrriveMessage (Some p) (room pl).

(** [DoDirection] *)
Definition DoDirection (DoCommand : tDoCommand) (p : nat) (sArgs : string) : M unit :=
  pl <- get p ;;
  r <- FindRoom (room pl) ;;
  match exit_find (exits r) sArgs with
  | None => throw "You cannot go that way."
  | Some vnum =>
      PlayerToRoom DoCommand p vnum
        ("You go " ++ sArgs ++ nl)
        (playername pl ++ " goes " ++ sArgs ++ nl)
        (playername pl ++ " enters." ++ nl)
  end.

(** [DoQuit] *)
Definition DoQuit (DoCommand : tDoCommand) (p : nat) (sArgs : istream) : M unit :=
  NoMore p sArgs ;;;
  pl <- get p ;;
  when (bool_decide (connstate pl = ePlaying))
    (send p ("See you next time!" ++ nl) ;;;
     log ("Player " ++ playername pl ++ " has left the game." ++ nl) ;;;
     SendToAll ("Player " ++ playername pl ++ " has left the game." ++ nl) (Some p) 0) ;;;
  modify p ClosePlayer.

(** The loop of [DoLook] over the other players: the text it sends and the
    final [iOthers]. *)
Fixpoint look_others (p : nat) (rm : Z) (i : nat) (l : list tPlayer) (iOthers : nat)
    : string * nat :=
  match l with
  | [] => ("", iOthers)
  | otherp :: l' =>
      if negb (Nat.eqb i p) && IsPlaying otherp && (room otherp =? rm) then
        let '(t, n) := look_others p rm (S i) l' (S iOthers) in
        ((if Nat.eqb iOthers 0 then "You also see " else ", ") ++ playername otherp ++ t, n)
      else look_others p rm (S i) l' iOthers
  end.

(** [DoLook] *)
Definition DoLook (DoCommand : tDoCommand) (p : nat) (sArgs : istream) : M unit :=
  NoMore p sArgs ;;;
  pl <- get p ;;
  r <- FindRoom (room pl) ;;
  send p (description r) ;;;
  when (negb (bool_decide (exits r = [])))
    (send p "Exits: " ;;;
     send p (String.concat "" (map (fun e => fst e ++ " ") (exits r))) ;;;
     send p nl) ;;;
  w <- get_world ;;
  let '(t, iOthers) := look_others p (room pl) 0 (playerlist w) 0 in
  send p t ;;;
  when (negb (Nat.eqb iOthers 0)) (send p ("." ++ nl)).

(** [DoSay] *)
Definition DoSay (DoCommand : tDoCommand) (p : nat) (sArgs : istream) : M unit :=
  NeedNoFlag p "gagged" ;;;
  what <- GetMessage sArgs "Say what?" ;;
  pl <- get p ;;
  send p ("You say, " ++ dquote ++ what ++ dquote ++ nl) ;;;
  SendToAll (playername pl ++ " says, " ++ dquote ++ what ++ dquote ++ nl) (Some p) (room pl).

(** [DoTell] *)
Definition DoTell (DoCommand : tDoCommand) (p : nat) (sArgs : istream) : M unit :=
  NeedNoFlag p "gagged" ;;;
  pl <- get p ;;
  '(ptarget, sArgs) <- GetPlayer p sArgs "Tell whom?" true ;;
  what <- GetMessage sArgs ("Tell " ++ playername pl ++ " what?") ;;
  send p ("You tell " ++ playername pl ++ ", " ++ dquote ++ what ++ dquote ++ nl) ;;;
  send ptarget (playername pl ++ " tells you, " ++ dquote ++ what ++ dquote ++ nl).

(** [DoSetFlag] *)
Definition DoSetFlag (DoCommand : tDoCommand) (p : nat) (sArgs : istream) : M unit :=
  NeedFlag p "can_setflag" ;;;
  '(ptarget, sArgs) <- GetPlayer p sArgs "Usage: setflag <who> <flag>" false ;;
  '(flag, sArgs) <- GetFlag sArgs "Set which flag?" ;;
  NoMore p sArgs ;;;
  target <- get ptarget ;;
  if set_find flag (flags target) then throw "Flag already set."
  else
    modify ptarget (fun q => set_flags (set_insert flag (flags q)) q) ;;;
    target <- get ptarget ;;
    send p ("You set the flag '" ++ flag ++ "' for " ++ playername target ++ nl).

(** [DoClearFlag] *)
Definition DoClearFlag (DoCommand : tDoCommand) (p : nat) (sArgs : istream) : M unit :=
  NeedFlag p "can_setflag" ;;;
  '(ptarget, sArgs) <- GetPlayer p sArgs "Usage: clearflag <who> <flag>" false ;;
  '(flag, sArgs) <- GetFlag sArgs "Clear which flag?" ;;
  NoMore p sArgs ;;;
  target <- get ptarget ;;
  if negb (set_find flag (flags target)) then throw "Flag not set."
  else
    modify ptarget (fun q => set_flags (set_erase flag (flags q)) q) ;;;
    target <- get ptarget ;;
    send p ("You clear the flag '" ++ flag ++ "' for " ++ playername target ++ nl).

(** [DoShutdown] *)
Definition DoShutdown (DoCommand : tDoCommand) (p : nat) (sArgs : istream) : M unit :=
  NoMore p sArgs ;;;
  NeedFlag p "can_shutdown" ;;;
  pl <- get p ;;
  SendToAll (playername pl ++ " shuts down the game" ++ nl) None 0 ;;;
  (fun w => (set_bStopNow true w, Done tt)).

(** [DoHelp] *)
Definition DoHelp (DoCommand : tDoCommand) (p : nat) (sArgs : istream) : M unit :=
  NoMore p sArgs ;;;
  w <- get_world ;;
  send p (message_of (messagemap w) "help").

(** [DoGoTo] *)
Definition DoGoTo (DoCommand : tDoCommand) (p : nat) (sArgs : istream) : M unit :=
  NeedFlag p "can_goto" ;;;
  let '(rm, sArgs) := read_int 0 sArgs in
  if fail sArgs then throw "Go to which room?"
  else
    NoMore p sArgs ;;;
    pl <- get p ;;
    PlayerToRoom DoCommand p rm
      ("You go to room " ++ string_of_Z rm ++ nl)
      (playername pl ++ " disappears in a puff of smoke!" ++ nl)
      (playername pl ++ " appears in a puff of smoke!" ++ nl).

(** [DoTransfer] *)
Definition DoTransfer (DoCommand : tDoCommand) (p : nat) (sArgs : istream) : M unit :=
  NeedFlag p "can_transfer" ;;;
  '(ptarget, sArgs) <- GetPlayer p sArgs
     "Usage: transfer <who> [ where ] (default is here)" true ;;
  pl <- get p ;;
  let '(rm, sArgs) := read_int 0 sArgs in
  let rm := if fail sArgs then room pl else rm in
  NoMore p sArgs ;;;
  target <- get ptarget ;;
  send p ("You transfer " ++ playername target ++ " to room " ++ string_of_Z rm ++ nl) ;;;
  PlayerToRoom DoCommand ptarget rm
    (playername pl ++ " transfers you to another room!" ++ nl)
    (playername target ++ " is yanked away by unseen forces!" ++ nl)
    (playername target ++ " appears breathlessly!" ++ nl).

(** The command table filled by [LoadThings]. *)
Definition commandmap : list (string * tHandler) :=
  [ ("look", DoLook); ("l", DoLook); ("quit", DoQuit); ("say", DoSay);
    (dquote, DoSay); ("tell", DoTell); ("shutdown", DoShutdown);
    ("help", DoHelp); ("goto", DoGoTo); ("transfer", DoTransfer);
    ("setflag", DoSetFlag); ("clearflag", DoClearFlag) ].

Fixpoint commandmap_find (m : list (string * tHandler)) (command : string) : option tHandler :=
  match m with
  | [] => None
  | (k, h) :: m' => if String.eqb k command then Some h else commandmap_find m' command
  end.

(** [ProcessCommand]; [tPlayer::DoCommand] is the call with one unit of fuel
    less. *)
Fixpoint ProcessCommand (fuel : nat) (p : nat) (sArgs : istream) : M unit :=
  match fuel with
  | O => diverge
  | S fuel' =>
      let DoCommand : tDoCommand :=
        fun q command => ProcessCommand fuel' q (istringstream command) in
      let '(command, sArgs) := read_string "" sArgs in
      let sArgs := ws sArgs in
      w <- get_world ;;
      if set_find command (directionset w) then DoDirection DoCommand p command
      else
        match commandmap_find commandmap command with
        | None => throw "Huh?"
        | Some handler => handler DoCommand p sArgs
        end
  end.

Definition DoCommand (fuel : nat) : tDoCommand :=
  fun q command => ProcessCommand fuel q (istringstream command).

(** ** Player files *)

Definition player_path (name : string) : string := PLAYER_DIR ++ name ++ PLAYER_EXT.

(** *** Opening a path

    [files] holds the regular files, each under its canonical path: "."
    followed by "/" and a name for every step down from the current
    directory.  The directories are the current directory and those above
    it, [PLAYER_DIR], and every directory with a file below it.  The system
    walks a path from the current directory, one component at a time: an
    empty component and "." stay, ".." goes up, a name goes down, and every
    step starts in a directory.  The paths of the program are relative. *)

(** The components of a path: the texts between its '/'. *)
Fixpoint components (s : string) : list string :=
  match s with
  | EmptyString => [EmptyString]
  | String c s' =>
      if Ascii.eqb c "/" then EmptyString :: components s'
      else match components s' with
           | x :: l => String c x :: l
           | [] => [String c EmptyString]
           end
  end.

(** The canonical path of the place reached by the steps [here]. *)
Definition canonical (here : list string) : string :=
  "." ++ String.concat "" (map (fun c => "/" ++ c) here).

(** Is the place reached by the steps [here] a directory?  The current
    directory and those above it, [PLAYER_DIR], and what has a file below. *)
Definition is_dir (fs : gmap string string) (here : list string) : bool :=
  forallb (String.eqb "..") here
  || String.eqb (canonical here ++ "/") PLAYER_DIR
  || existsb (fun f => String.prefix (canonical here ++ "/") (fst f)) (map_to_list fs).

(** One step up: out of the last directory entered, or further above the
    current directory. *)
Definition parent (here : list string) : list string :=
  match rev here with
  | [] => [".."]
  | c :: up => if String.eqb c ".." then here ++ [".."] else rev up
  end.

(** The place that the components [path] lead to from [here], if every step
    starts in a directory. *)
Fixpoint walk (fs : gmap string string) (here : list string) (path : list string)
    : option (list string) :=
  match path with
  | [] => Some here
  | c :: path' =>
      if negb (is_dir fs here) then None
      else if String.eqb c "" || String.eqb c "." then walk fs here path'
      else if String.eqb c ".." then walk fs (parent here) path'
      else walk fs (here ++ [c]) path'
  end.

(** [ifstream f (path.c_str (), ios::in)] used as a test, [if (f)].  The path
    is a C string.  The stream is open when the path leads to a regular file,
    and when it leads to a directory as well: [fopen] opens a directory for
    reading, it is reading from it that fails. *)
Definition ifstream_opens (fs : gmap string string) (path : string) : bool :=
  let s := c_str path in
  negb (str_empty s)
  && match walk fs [] (components s) with
     | Some f => bool_decide (is_Some (fs !! canonical f)) || is_dir fs f
     | None => false
     end.

(** What [tPlayer::Save] writes. *)
Definition player_file (pl : tPlayer) : string :=
  password pl ++ nl ++ string_of_Z (room pl) ++ nl
  ++ String.concat "" (map (fun f => f ++ " ") (flags pl)) ++ nl.

(** [tPlayer::Save].  The path is made from the name of the session, which
    has passed the test of [valid_player_name], and is used as it is. *)
Definition Save (pl : tPlayer) : M unit :=
  fun w =>
    let path := player_path (playername pl) in
    if bool_decide (path ∈ unwritable w)
    then log ("Could not write to file for player " ++ playername pl) w
    else (set_files (<[path := player_file pl]> (files w)) w, Done tt).

(** The loop of [LoadSet]: [while (!is.eof ()) { is >> flag; s.insert (flag); }].
    Every round either reads a token or sets [eofbit], so the length of the
    line bounds the number of rounds. *)
Fixpoint LoadSet_loop (rounds : nat) (i : istream) (flag : string) (s : list string)
    : list string :=
  match rounds with
  | O => s
  | S n =>
      if eof i then s
      else
        let '(flag', i') := read_string flag i in
        LoadSet_loop n i' flag' (set_insert flag' s)
  end.

(** [LoadSet] *)
Definition LoadSet (f : istream) : list string * istream :=
  let '(sLine, f') := getline "" f in
  (LoadSet_loop (S (String.length sLine)) (istringstream sLine) "" [], f').

(** [tPlayer::Load].  The name of the session has passed the test of
    [valid_player_name], so the path is its own canonical form and the record
    is looked up under it. *)
Definition Load (p : nat) : M unit :=
  pl <- get p ;;
  w <- get_world ;;
  match files w !! player_path (playername pl) with
  | None => throw "That player does not exist, type 'new' to create a new one."
  | Some content =>
      let f := istringstream content in
      let '(pw, f) := read_string (password pl) f in
      let '(rm, f) := read_int (room pl) f in
      let f := ignore_line f in
      let '(fl, _) := LoadSet f in
      modify p (fun q => set_flags fl (set_room rm (set_password pw q)))
  end.

(** ** The login state machine *)

(** [PlayerEnteredGame] *)
Definition PlayerEnteredGame (DoCommand : tDoCommand) (p : nat) (message : string) : M unit :=
  modify p (set_connstate ePlaying) ;;;
  modify p (set_prompt PROMPT) ;;;
  pl <- get p ;;
  send p ("Welcome, " ++ playername pl ++ nl ++ nl) ;;;
  send p message ;;;
  w <- get_world ;;
  send p (message_of (messagemap w) "motd") ;;;
  DoCommand p "look" ;;;
  SendToAll ("Player " ++ playername pl ++ " has joined the game from "
             ++ address pl ++ "." ++ nl) (Some p) 0 ;;;
  log ("Player " ++ playername pl ++ " has joined the game.").

(** [ProcessPlayerName] *)
Definition ProcessPlayerName (DoCommand : tDoCommand) (p : nat) (sArgs : istream) : M unit :=
  let '(name, _) := read_string "" sArgs in
  if str_empty name then throw "Name cannot be blank."
  else
    w <- get_world ;;
    match FindPlayer w name with
    | Some _ => throw (name ++ " is already connected.")
    | None =>
        if has_char_not_of valid_player_name name
        then throw "That player name contains disallowed characters."
        else if String.eqb (tolower name) "new" then
          modify p (set_connstate eAwaitingNewName) ;;;
          modify p (set_prompt "Please choose a name for your new character ... ")
        else
          modify p (set_playername (tocapitals name)) ;;;
          Load p ;;;
          modify p (set_connstate eAwaitingPassword) ;;;
          modify p (set_prompt "Enter your password ... ") ;;;
          modify p (set_badPasswordCount 0)
    end.

(** [ifstream f ((PLAYER_DIR + tocapitals (name) + PLAYER_EXT).c_str (), ios::in)]
    used as a test: does the path made from [name] open? *)
Definition player_file_exists (w : World) (name : string) : bool :=
  ifstream_opens (files w) (player_path (tocapitals name)).

(** [ProcessNewPlayerName] *)
Definition ProcessNewPlayerName (DoCommand : tDoCommand) (p : nat) (sArgs : istream) : M unit :=
  let '(name, _) := read_string "" sArgs in
  if str_empty name then throw "Name cannot be blank."
  else if has_char_not_of valid_player_name name
  then throw "That player name contains disallowed characters."
  else
    w <- get_world ;;
    if set_find name (badnameset w) then throw "That name is not permitted."
    else if player_file_exists w name || bool_decide (is_Some (FindPlayer w name))
    then throw "That player already exists, please choose another name."
    else
      modify p (set_playername (tocapitals name)) ;;;
      modify p (set_connstate eAwaitingNewPassword) ;;;
      pl <- get p ;;
      modify p (set_prompt ("Choose a password for " ++ playername pl ++ " ... ")) ;;;
      modify p (set_badPasswordCount 0).

(** [ProcessNewPassword] *)
Definition ProcessNewPassword (DoCommand : tDoCommand) (p : nat) (sArgs : istream) : M unit :=
  let '(pw, _) := read_string "" sArgs in
  if str_empty pw then throw "Password cannot be blank."
  else
    modify p (set_password pw) ;;;
    modify p (set_connstate eConfirmPassword) ;;;
    modify p (set_prompt "Re-enter password to confirm it ... ").

(** [ProcessConfirmPassword].  The second test is the program's: it is made on
    the text just typed, the variable [password]. *)
Definition ProcessConfirmPassword (DoCommand : tDoCommand) (p : nat) (sArgs : istream) : M unit :=
  let '(pw, _) := read_string "" sArgs in
  pl <- get p ;;
  if negb (String.eqb pw (password pl)) then
    modify p (set_connstate eAwaitingNewPassword) ;;;
    modify p (set_prompt ("Choose a password for " ++ playername pl ++ " ... ")) ;;;
    throw "Password and confirmation do not agree."
  else
    w <- get_world ;;
    if player_file_exists w pw || bool_decide (is_Some (FindPlayer w pw)) then
      modify p (set_connstate eAwaitingNewName) ;;;
      modify p (set_prompt "Please choose a name for your new character ... ") ;;;
      throw "That player already exists, please choose another name."
    else
      PlayerEnteredGame DoCommand p (message_of (messagemap w) "new_player").

(** [ProcessPlayerPassword] *)
Definition ProcessPlayerPassword (DoCommand : tDoCommand) (p : nat) (sArgs : istream) : M unit :=
  try_catch
    (let '(pw, _) := read_string "" sArgs in
     if str_empty pw then throw "Password cannot be blank."
     else
       pl <- get p ;;
       if negb (String.eqb pw (password pl)) then throw "That password is incorrect."
       else if HaveFlag pl "blocked" then
         modify p ClosePlayer ;;;
         modify p (set_prompt ("Goodbye." ++ nl)) ;;;
         throw "You are not permitted to connect."
       else
         w <- get_world ;;
         PlayerEnteredGame DoCommand p (message_of (messagemap w) "existing_player"))
    (fun e =>
       modify p (fun q => set_badPasswordCount (badPasswordCount q + 1) q) ;;;
       pl <- get p ;;
       when (MAX_PASSWORD_ATTEMPTS <=? badPasswordCount pl)
         (send p ("Too many attempts to guess the password!" ++ nl) ;;;
          modify p Init) ;;;
       throw e).

(** The state table filled by [LoadThings]. *)
Definition statemap (fuel : nat) (st : tConnectionStates) : nat -> istream -> M unit :=
  match st with
  | eAwaitingName => ProcessPlayerName (DoCommand fuel)
  | eAwaitingPassword => ProcessPlayerPassword (DoCommand fuel)
  | eAwaitingNewName => ProcessNewPlayerName (DoCommand fuel)
  | eAwaitingNewPassword => ProcessNewPassword (DoCommand fuel)
  | eConfirmPassword => ProcessConfirmPassword (DoCommand fuel)
  | ePlaying => ProcessCommand fuel
  end.

(** [ProcessPlayerInput]: the dispatch boundary.  The [catch] block sends
    [e.what ()], a C string. *)
Definition ProcessPlayerInput (fuel : nat) (p : nat) (s : string) : M unit :=
  try_catch
    (pl <- get p ;;
     statemap fuel (connstate pl) p (istringstream s))
    (fun e => send p (c_str e) ;;; send p nl) ;;;
  pl <- get p ;;
  send p (prompt pl).

(** ** Socket input and output

    The results of the system calls are arguments: [read] returned [nRead]
    with [errno] and left its bytes in [buf]; the [k]-th [write] of a pass
    returns [os k], the byte count and [errno]. *)

Definition EWOULDBLOCK : Z := 11.

(** The line loop of [tPlayer::ProcessRead].  Every round removes at least
    the line terminator from [inbuf], so its length bounds the rounds. *)
Fixpoint read_lines (rounds : nat) (fuel : nat) (p : nat) : M unit :=
  match rounds with
  | O => ret tt
  | S n =>
      pl <- get p ;;
      match find_char (ascii_of_nat 10) (inbuf pl) with
      | None => ret tt
      | Some i =>
          let sLine := str_take i (inbuf pl) in
          modify p (set_inbuf (str_drop (S i) (inbuf pl))) ;;;
          ProcessPlayerInput fuel p (Trim sLine SPACES) ;;;
          read_lines n fuel p
      end
  end.

(** [tPlayer::ProcessRead] *)
Definition ProcessRead (fuel : nat) (p : nat) (nRead errno : Z) (buf : string) : M unit :=
  pl <- get p ;;
  if closing pl then ret tt
  else if nRead =? -1 then
    when (negb (errno =? EWOULDBLOCK)) (log "read from player")
  else if nRead <=? 0 then
    log ("Connection " ++ string_of_Z (sock pl) ++ " closed") ;;;
    modify p (set_sock NO_SOCKET) ;;;
    ProcessPlayerInput fuel p "quit"
  else
    modify p (set_inbuf (inbuf pl ++ str_take (Z.to_nat nRead) buf)) ;;;
    pl <- get p ;;
    read_lines (S (String.length (inbuf pl))) fuel p.

(** The loop of [tPlayer::ProcessWrite]; it returns the lengths it asked
    [write] to send, in order: [min<int> (outbuf.size (), 512)], the size
    converted to [int] before the comparison.  With less than 2^31 bytes
    pending, a round that goes on has sent the whole chunk, one byte at least,
    so the length of [outbuf] bounds the rounds; the pass of the model has
    that many rounds at most. *)
Fixpoint write_loop (rounds : nat) (os : nat -> Z * Z) (k : nat) (p : nat) : M (list Z) :=
  match rounds with
  | O => ret []
  | S n =>
      pl <- get p ;;
      if negb (sock pl =? NO_SOCKET) && negb (str_empty (outbuf pl)) then
        let iLength := Z.min (to_int (Z.of_nat (String.length (outbuf pl)))) 512 in
        let '(nWrite, errno) := os k in
        if nWrite <? 0 then
          when (negb (errno =? EWOULDBLOCK)) (log "send to player") ;;;
          ret [iLength]
        else
          modify p (set_outbuf (str_drop (Z.to_nat nWrite) (outbuf pl))) ;;;
          if nWrite <? iLength then ret [iLength]
          else
            t <- write_loop n os (S k) p ;;
            ret (iLength :: t)
      else ret []
  end.

(** [tPlayer::ProcessWrite] *)
Definition ProcessWrite (os : nat -> Z * Z) (p : nat) : M (list Z) :=
  pl <- get p ;;
  write_loop (S (String.length (outbuf pl))) os 0 p.

(** [tPlayer::~tPlayer] *)
Definition destroy (os : nat -> Z * Z) (p : nat) : M unit :=
  _ <- ProcessWrite os p ;;
  pl <- get p ;;
  when (bool_decide (connstate pl = ePlaying)) (Save pl).



(** ** Definitions used by the statements *)

(** The condition of a broadcast as the specification words it: the session
    is in the Playing state, not closing, not the excluded one and, with a
    room restriction [R] (a non-zero room), in that room. *)
Definition spec_recipient (except : option nat) (R : Z) (i : nat) (pl : tPlayer) : bool :=
  bool_decide (connstate pl = ePlaying) && negb (closing pl)
  && negb (bool_decide (except = Some i))
  && ((R =? 0) || (room pl =? R)).

(** Session [p] of [w] after [text] was appended to its pending output. *)
Definition put_at (p : nat) (text : string) (w : World) : World :=
  set_playerlist (alter (put text) p (playerlist w)) w.

(** Session [p] of [w] replaced by [f] of it. *)
Definition update_at (p : nat) (f : tPlayer -> tPlayer) (w : World) : World :=
  set_playerlist (alter f p (playerlist w)) w.

(** The world after the given lines went through the dispatch boundary of
    session [p], one after the other. *)
Definition run_lines (fuel : nat) (p : nat) (lines : list string) (w : World) : World :=
  fold_left (fun w line => fst (ProcessPlayerInput fuel p line w)) lines w.

(** The password typed on a line: its first token. *)
Definition typed (line : string) : string := fst (read_string "" (istringstream line)).


(** The session and the flag that the arguments of [setflag] or [clearflag]
    name, as the handlers read them, and the input left after the flag. *)
Definition flag_arguments (p : nat) (sArgs : istream) (w : World)
    : option (nat * string * istream) :=
  match snd (GetPlayer p sArgs "" false w) with
  | Done (ptarget, sArgs1) =>
      match snd (GetFlag sArgs1 "" w) with
      | Done (flag, sArgs2) => Some (ptarget, flag, sArgs2)
      | _ => None
      end
  | _ => None
  end.

(** What the [catch] block of [ProcessPlayerPassword] leaves of a session:
    the counter goes up, and at the maximum the session is told and [Init]
    is run. *)
Definition after_failed_attempt (pl : tPlayer) : tPlayer :=
  let q := set_badPasswordCount (badPasswordCount pl + 1) pl in
  if MAX_PASSWORD_ATTEMPTS <=? badPasswordCount q
  then Init (put ("Too many attempts to guess the password!" ++ nl) q)
  else q.

(** [w'] is [w] with the pending output of session [p] replaced by [out];
    the console may have grown. *)
Definition same_but_outbuf (p : nat) (out : string) (w w' : World) : Prop :=
  playerlist w' = alter (set_outbuf out) p (playerlist w) /\
  roommap w' = roommap w /\ messagemap w' = messagemap w /\
  directionset w' = directionset w /\ badnameset w' = badnameset w /\
  bStopNow w' = bStopNow w /\ files w' = files w /\
  unwritable w' = unwritable w.

(** An action keeps the direction set [D] and does not run out of fuel. *)
Definition safe {A} (D : list string) (m : M A) : Prop :=
  forall w, directionset w = D ->
    directionset (fst (m w)) = D /\ snd (m w) <> Diverged.

(** An action changes nothing but the console. *)
Definition only_logs (w w' : World) : Prop :=
  playerlist w' = playerlist w /\ roommap w' = roommap w /\
  messagemap w' = messagemap w /\ directionset w' = directionset w /\
  badnameset w' = badnameset w /\ bStopNow w' = bStopNow w /\
  files w' = files w /\ unwritable w' = unwritable w.

(** ** Example configurations *)

Definition ex_rooms : gmap Z tRoom :=
  <[1000 := mk_room ("The town square." ++ nl) [("n", 1001); ("up", 4242)]]>
    (<[1001 := mk_room ("A quiet lane." ++ nl) [("s", 1000)]]> ∅).

Definition ex_session (sk : Z) (st : tConnectionStates) (name pw : string)
    (fl : list string) : tPlayer :=
  mk_player sk 4000 "" "" "10.0.0.7" st PROMPT name pw 0 INITIAL_ROOM false fl.

Definition ex_world (players : list tPlayer) (fs : gmap string string) : World :=
  mk_world players ex_rooms
    [("motd", "Have fun." ++ nl); ("new_player", "A new face." ++ nl);
     ("existing_player", "Welcome back." ++ nl)]
    ["n"; "s"; "up"] ["new"; "quit"] false fs ∅ [].

(** A new player "Bob" confirming the password "secret" while a record for
    "Bob" has appeared on disk. *)
Definition ex_confirm_taken_name : World :=
  ex_world [ex_session 5 eConfirmPassword "Bob" "secret" []]
    {[ player_path "Bob" := "hunter2" ++ nl ++ "1000" ++ nl ++ nl ]}.

(** A new player "Bob", a name nobody has, whose password is the name of
    the recorded player "Alice". *)
Definition ex_confirm_password_is_a_name : World :=
  ex_world [ex_session 5 eConfirmPassword "Bob" "alice" []]
    {[ player_path "Alice" := "hunter2" ++ nl ++ "1000" ++ nl ++ nl ]}.

(** A playing newcomer: no flag yet. *)
Definition ex_newcomer : tPlayer := ex_session 5 ePlaying "Bob" "secret" [].



(** "Bob" at the password prompt; his record carries the flag "blocked". *)
Definition ex_blocked : World :=
  ex_world [ex_session 5 eAwaitingPassword "Bob" "secret" ["blocked"];
            ex_session 6 ePlaying "Alice" "pw" []] ∅.

(** Two players in the town square; "Bob" may set flags, "Alice" is gagged. *)
Definition ex_two_players : World :=
  ex_world [ex_session 5 ePlaying "Bob" "secret" ["can_setflag"];
            ex_session 6 ePlaying "Alice" "pw" ["gagged"]] ∅.

(** A new player whose chosen password is "quit" and whose peer goes away
    at the confirmation prompt: the session after [ProcessRead] saw the end
    of the stream. *)
Definition ex_half_open : World :=
  fst (ProcessRead 2 0 0 0 ""
         (ex_world [ex_session 5 eConfirmPassword "Bob" "quit" [];
                    ex_session 6 ePlaying "Alice" "pw" []] ∅)).

(** "Bob" with forty bytes of pending output. *)
Definition ex_pending : World :=
  ex_world [put "0123456789012345678901234567890123456789"
              (ex_session 5 ePlaying "Bob" "secret" [])] ∅.

(** "Bob" in the town square of a world where "quit" is the name of a
    direction. *)
Definition ex_quit_is_a_way : World :=
  mk_world [ex_session 5 ePlaying "Bob" "secret" []] ex_rooms []
    ["n"; "quit"; "s"; "up"] [] false ∅ ∅ [].


(** [n] times the character [c]. *)
Fixpoint str_repeat (c : ascii) (n : nat) : string :=
  match n with
  | O => EmptyString
  | S n' => String c (str_repeat c n')
  end.

(** "Bob", whose peer has stopped reading, with [n] bytes pending. *)
Definition ex_stalled (n : nat) : World :=
  ex_world [set_outbuf (str_repeat "x" n) (ex_session 5 ePlaying "Bob" "secret" [])] ∅.

(** Every character of [s] satisfies [f]. *)
Fixpoint str_all (f : ascii -> bool) (s : string) : bool :=
  match s with
  | EmptyString => true
  | String c s' => f c && str_all f s'
  end.

(** [s] without its leading characters from [t], and without its trailing
    ones. *)
Fixpoint ltrim (t s : string) : string :=
  match s with
  | EmptyString => EmptyString
  | String c s' => if str_mem c t then ltrim t s' else s
  end.

Fixpoint rtrim (t s : string) : string :=
  match s with
  | EmptyString => EmptyString
  | String c s' =>
      let r := rtrim t s' in
      if str_empty r && str_mem c t then EmptyString else String c r
  end.



(** A token of formatted input: not empty and without white space. *)
Definition is_token (s : string) : bool :=
  negb (str_empty s) && str_all (fun c => negb (isspace c)) s.

(** What input processing may do to a session.  [played x x']: the socket,
    port, address, pending input, protocol state, prompt, name, password and
    failure counter are the same and the pending output got longer (the room,
    the flags and the closing mark may differ).  [grown x x']: as [played],
    with the closing mark the same.  [served x x']: the socket, port, address
    and pending input are the same and the pending output got longer. *)
Definition served (x x' : tPlayer) : Prop :=
  sock x' = sock x /\ port x' = port x /\ address x' = address x /\
  inbuf x' = inbuf x /\ exists out, outbuf x' = outbuf x ++ out.

Definition played (x x' : tPlayer) : Prop :=
  served x x' /\ connstate x' = connstate x /\ prompt x' = prompt x /\
  playername x' = playername x /\ password x' = password x /\
  badPasswordCount x' = badPasswordCount x.

Definition grown (x x' : tPlayer) : Prop :=
  played x x' /\ closing x' = closing x.

(** The rooms, messages, directions, reserved names and player files of [w']
    are those of [w], the sessions are as many, and session [q] of [w'] is
    related to session [q] of [w] by [R q]. *)
Definition same_config (w w' : World) : Prop :=
  roommap w' = roommap w /\ messagemap w' = messagemap w /\
  directionset w' = directionset w /\ badnameset w' = badnameset w /\
  files w' = files w /\ unwritable w' = unwritable w.

Definition sessions_related (R : nat -> tPlayer -> tPlayer -> Prop) (w w' : World) : Prop :=
  same_config w w' /\
  length (playerlist w') = length (playerlist w) /\
  forall q x, playerlist w !! q = Some x ->
    exists x', playerlist w' !! q = Some x' /\ R q x x'.

(** The relation of a command of session [p], and of a line of session [p]. *)
Definition command_of (p : nat) (q : nat) (x x' : tPlayer) : Prop :=
  if decide (q = p) then played x x' else grown x x'.

Definition line_of (p : nat) (q : nat) (x x' : tPlayer) : Prop :=
  if decide (q = p) then served x x' else grown x x'.

(** An action relates the sessions before and after by [R], whatever its
    outcome. *)
Definition keeps {A} (R : nat -> tPlayer -> tPlayer -> Prop) (m : M A) : Prop :=
  forall w, sessions_related R w (fst (m w)).

(** An action relates the world before and after by [I], whatever its
    outcome. *)
Definition invariant {A} (I : World -> World -> Prop) (m : M A) : Prop :=
  forall w, I w (fst (m w)).

(** What a command of a session without privileges leaves alone: every flag
    set; the room of every session but [p], or of every session; the shutdown
    request. *)
Definition same_flags (q : nat) (x x' : tPlayer) : Prop := flags x' = flags x.

Definition others_stay (p : nat) (q : nat) (x x' : tPlayer) : Prop :=
  q <> p -> room x' = room x.

Definition all_stay (q : nat) (x x' : tPlayer) : Prop := room x' = room x.

Definition not_stopped (w w' : World) : Prop := bStopNow w' = bStopNow w.




(** The pending input seen as lines: [join_lines ls rest] is the text of the
    complete lines [ls], each with its line end, followed by the
    unterminated [rest]. *)
Definition no_nl (s : string) : bool :=
  str_all (fun d => negb (Ascii.eqb d (ascii_of_nat 10))) s.

Fixpoint join_lines (ls : list string) (rest : string) : string :=
  match ls with
  | [] => rest
  | l :: ls' => l ++ nl ++ join_lines ls' rest
  end.

(** The lines [ls] given to the dispatch boundary of session [p] one after
    the other, each trimmed, the pending input being what follows the line. *)
Fixpoint feed_lines (fuel : nat) (p : nat) (ls : list string) (rest : string) : M unit :=
  match ls with
  | [] => modify p (set_inbuf rest)
  | l :: ls' =>
      modify p (set_inbuf (join_lines ls' rest)) ;;;
      ProcessPlayerInput fuel p (Trim l SPACES) ;;;
      feed_lines fuel p ls' rest
  end.




Definition recognised (name pw : string) (rm : Z) (fl : list string) (pl : tPlayer) : tPlayer :=
  set_badPasswordCount 0
    (set_prompt "Enter your password ... "
       (set_connstate eAwaitingPassword
          (set_flags fl (set_room rm (set_password pw
             (set_playername (tocapitals name) pl)))))).

(** Unless "look" is a direction, every session stays in its room. *)
Definition unless_look_moves (w w' : World) : Prop :=
  set_find "look" (directionset w) = false -> sessions_related all_stay w w'.

(** The record of "Dave", who may use [goto], and a world where it is on
    disk and somebody has just connected. *)
Definition ex_dave : tPlayer := ex_session 9 ePlaying "Dave" "pw123" ["can_goto"].

Definition ex_dave_returns : World :=
  ex_world [new_tPlayer 7 4000 "10.0.0.9"] {[ player_path "Dave" := player_file ex_dave ]}.

(** What [look] shows.  The names of the playing sessions in room [rm]
    other than session [p], in the order of the list, and the line that
    names them. *)
Definition is_other_here (p : nat) (rm : Z) (ix : nat * tPlayer) : bool :=
  negb (Nat.eqb (fst ix) p) && IsPlaying (snd ix) && (room (snd ix) =? rm).

Definition others_here (p : nat) (rm : Z) (l : list tPlayer) : list string :=
  map (fun ix => playername (snd ix)) (List.filter (is_other_here p rm) (imap pair l)).

Fixpoint also_see (first : bool) (names : list string) : string :=
  match names with
  | [] => ""
  | a :: names' => (if first then "You also see " else ", ") ++ a ++ also_see false names'
  end.

Definition look_text (p : nat) (r : tRoom) (l : list tPlayer) (rm : Z) : string :=
  description r
  ++ (if bool_decide (exits r = []) then ""
      else "Exits: " ++ String.concat "" (map (fun e => fst e ++ " ") (exits r)) ++ nl)
  ++ also_see true (others_here p rm l)
  ++ (if bool_decide (others_here p rm l = []) then "" else "." ++ nl).

(** A line of words: each word with the blanks that follow it. *)
Fixpoint words_line (ws : list (string * string)) : string :=
  match ws with
  | [] => ""
  | (w, sp) :: ws' => w ++ sp ++ words_line ws'
  end.

(** Every word but the last is followed by at least one blank. *)
Fixpoint separated (ws : list (string * string)) : bool :=
  match ws with
  | [] => true
  | (_, sp) :: ws' =>
      match ws' with
      | [] => true
      | _ => negb (str_empty sp) && separated ws'
      end
  end.

Definition is_word (wsp : string * string) : bool :=
  is_token (fst wsp) && str_all isspace (snd wsp).

(** ** [FindAndReplace]

    [str_find t s] is [s.find (t)], the position of the first occurrence of
    [t] in [s]; [str_find_from t s pos] is [s.find (t, pos)]. *)
Fixpoint str_prefix (t s : string) : bool :=
  match t, s with
  | EmptyString, _ => true
  | String a t', String b s' => Ascii.eqb a b && str_prefix t' s'
  | String _ _, EmptyString => false
  end.

Fixpoint str_find (t s : string) : option nat :=
  match s with
  | EmptyString => if str_prefix t "" then Some O else None
  | String _ s' => if str_prefix t s then Some O else S <$> str_find t s'
  end.

Definition str_find_from (t s : string) (pos : nat) : option nat :=
  if Nat.leb pos (String.length s)
  then (fun i => (pos + i)%nat) <$> str_find t (str_drop pos s)
  else None.

(** The loop of [FindAndReplace].  A round that goes on leaves a shorter
    text after [pos], so the length of the source bounds the rounds. *)
Fixpoint FindAndReplace_loop (rounds : nat) (target replacement str : string) (pos : nat)
    : string :=
  match rounds with
  | O => str
  | S n =>
      match str_find_from target str pos with
      | None => str
      | Some found =>
          FindAndReplace_loop n target replacement
            (str_take found str ++ replacement
             ++ str_drop (found + String.length target) str)
            (found + String.length replacement)
      end
  end.

(** [FindAndReplace] *)
Definition FindAndReplace (source target replacement : string) : string :=
  if Nat.ltb 0 (String.length target)
  then FindAndReplace_loop (S (String.length source)) target replacement source 0
  else source.

(** One pass over the text from left to right: where [t] starts, [r] is
    written and [t] is skipped; any other character is copied. *)
Fixpoint replace_scan (t r s : string) (skip : nat) : string :=
  match s with
  | EmptyString => EmptyString
  | String c s' =>
      match skip with
      | S k => replace_scan t r s' k
      | O =>
          if str_prefix t s then r ++ replace_scan t r s' (String.length t - 1)
          else String c (replace_scan t r s' 0)
      end
  end.

(** ** [LoadMessages] *)

Definition MESSAGES_FILE : string := "./system/messages.txt".

Definition set_messagemap (v : list (string * string)) (w : World) : World :=
  mk_world (playerlist w) (roommap w) v (directionset w) (badnameset w)
           (bStopNow w) (files w) (unwritable w) (console w).

(** [messagemap [k] = v]: the value of an entry with that key, up to case,
    is replaced; otherwise the entry is added at its place in the order. *)
Fixpoint message_insert (k v : string) (m : list (string * string))
    : list (string * string) :=
  match m with
  | [] => [(k, v)]
  | (k', v') :: m' =>
      if ci_equiv k k' then (k', v) :: m'
      else if ciLess k k' then (k, v) :: m
      else (k', v') :: message_insert k v m'
  end.

(** The loop of [LoadMessages].  Every round takes at least one character
    from the stream or sets [eofbit], so the length of the file bounds the
    rounds. *)
Fixpoint LoadMessages_loop (rounds : nat) (fMessages : istream) (m : list (string * string))
    : list (string * string) :=
  match rounds with
  | O => m
  | S n =>
      if eof fMessages then m
      else
        let '(sMessageCode, f1) := read_string "" fMessages in
        let f2 := ws f1 in
        let '(sMessageText, f3) := getline "" f2 in
        let m' := if negb (str_empty sMessageCode)
                  then message_insert (tolower sMessageCode)
                         (FindAndReplace sMessageText "%r" nl) m
                  else m in
        LoadMessages_loop n f3 m'
  end.

(** [LoadMessages] *)
Definition LoadMessages : M unit :=
  fun w =>
    match files w !! MESSAGES_FILE with
    | None => log ("Could not open messages file: " ++ MESSAGES_FILE) w
    | Some content =>
        (set_messagemap
           (LoadMessages_loop (S (String.length content)) (istringstream content)
              (messagemap w)) w,
         Done tt)
    end.

(** A messages file: each entry a code, a blank, the text and a line end. *)
Definition message_line (e : string * string) : string := fst e ++ " " ++ snd e ++ nl.

Definition message_entry_ok (e : string * string) : bool :=
  is_token (fst e) && no_nl (snd e) && negb (str_empty (skip_spaces (snd e)))
  && bool_decide (skip_spaces (snd e) = snd e).

(** ** [LoadRooms] *)

Definition ROOMS_FILE : string := "./rooms/rooms.txt".

Definition set_roommap (v : gmap Z tRoom) (w : World) : World :=
  mk_world (playerlist w) v (messagemap w) (directionset w) (badnameset w)
           (bStopNow w) (files w) (unwritable w) (console w).

(** [room->exits [dir] = v] on a [map<string, int>]. *)
Fixpoint exit_insert (dir : string) (v : Z) (e : list (string * Z)) : list (string * Z) :=
  match e with
  | [] => [(dir, v)]
  | (k, v') :: e' =>
      if String.eqb dir k then (k, v) :: e'
      else if String.ltb dir k then (dir, v) :: e
      else (k, v') :: exit_insert dir v e'
  end.

(** The inner loop of [LoadRooms], over the line of exits; it returns the
    exits and the console with what was written to [cerr].  [dir_vnum] is not
    initialised by the program: [indeterminate] stands for what it holds.
    A round that goes on has read a word, so the length of the line bounds
    the rounds. *)
Fixpoint LoadRooms_exits (rounds : nat) (indeterminate : Z) (vnum : Z) (iss : istream)
    (directions : list string) (exits : list (string * Z)) (out : list string)
    : list (string * Z) * list string :=
  match rounds with
  | O => (exits, out)
  | S n =>
      if good iss then
        let '(dir, is1) := read_string "" iss in
        let '(dir_vnum, is2) := read_int indeterminate is1 in
        let is3 := ws is2 in
        if fail is3 then
          LoadRooms_exits n indeterminate vnum is3 directions exits
            (out ++ [("Bad vnum for exit " ++ dir ++ " for room " ++ string_of_Z vnum)%string])%list
        else if negb (set_find dir directions) then
          LoadRooms_exits n indeterminate vnum is3 directions exits
            (out ++ [("Direction " ++ dir ++ " for room " ++ string_of_Z vnum
                      ++ " not in list of directions in control file")%string])%list
        else if str_empty dir || (dir_vnum =? 0) then (exits, out)
        else LoadRooms_exits n indeterminate vnum is3 directions
               (exit_insert dir dir_vnum exits) out
      else (exits, out)
  end.

(** The outer loop of [LoadRooms].  [vnum] is not initialised either.  A
    round that goes on has read a description, so the length of the file
    bounds the rounds. *)
Fixpoint LoadRooms_loop (rounds : nat) (indeterminate : Z) (fRooms : istream)
    (directions : list string) (rooms : gmap Z tRoom) (out : list string)
    : gmap Z tRoom * list string :=
  match rounds with
  | O => (rooms, out)
  | S n =>
      if eof fRooms then (rooms, out)
      else
        let '(vnum, f1) := read_int indeterminate fRooms in
        let f2 := ignore_line f1 in
        let '(description, f3) := getline "" f2 in
        if (vnum =? 0) || str_empty description then (rooms, out)
        else
          let '(sLine, f4) := getline "" f3 in
          if bool_decide (is_Some (rooms !! vnum)) then
            LoadRooms_loop n indeterminate f4 directions rooms
              (out ++ [("Room " ++ string_of_Z vnum
                        ++ " appears more than once in room file")%string])%list
          else
            let '(exits, out') :=
              LoadRooms_exits (S (String.length sLine)) indeterminate vnum
                (istringstream sLine) directions [] out in
            LoadRooms_loop n indeterminate f4 directions
              (<[vnum := mk_room (FindAndReplace description "%r" nl ++ nl) exits]> rooms)
              out'
  end.

(** [LoadRooms] *)
Definition LoadRooms (indeterminate : Z) : M unit :=
  fun w =>
    match files w !! ROOMS_FILE with
    | None => log ("Could not open rooms file: " ++ ROOMS_FILE) w
    | Some content =>
        let '(rooms, out) :=
          LoadRooms_loop (S (String.length content)) indeterminate
            (istringstream content) (directionset w) (roommap w) (console w) in
        (set_console out (set_roommap rooms w), Done tt)
    end.

(** A rooms file: for each room its number, its description and its exits,
    each on a line; an exit is a direction and a room number, each followed
    by a blank. *)
Definition exit_text (e : string * Z) : string := fst e ++ " " ++ string_of_Z (snd e) ++ " ".

Definition room_text (r : Z * string * list (string * Z)) : string :=
  string_of_Z (fst (fst r)) ++ nl ++ snd (fst r) ++ nl
  ++ String.concat "" (map exit_text (snd r)) ++ nl.

Definition exit_ok (directions : list string) (e : string * Z) : bool :=
  is_token (fst e) && set_find (fst e) directions
  && negb (snd e =? 0) && (INT_MIN <=? snd e) && (snd e <=? INT_MAX).

Definition room_ok (directions : list string) (r : Z * string * list (string * Z)) : bool :=
  negb (fst (fst r) =? 0) && (INT_MIN <=? fst (fst r)) && (fst (fst r) <=? INT_MAX)
  && negb (str_empty (snd (fst r))) && no_nl (snd (fst r))
  && forallb (exit_ok directions) (snd r).

Definition room_of (r : Z * string * list (string * Z)) : tRoom :=
  mk_room (FindAndReplace (snd (fst r)) "%r" nl ++ nl)
          (fold_left (fun e x => exit_insert (fst x) (snd x) e) (snd r) []).

(** * Verification *)

(** ** Basic facts about the state *)

Lemma player_at_lookup w p pl : playerlist w !! p = Some pl -> player_at w p = pl.
Proof. unfold player_at. intros ->. reflexivity. Qed.

Lemma player_at_update_eq w p f pl :
  playerlist w !! p = Some pl -> player_at (update_at p f w) p = f pl.
Proof.
  intros H. unfold player_at, update_at. simpl.
  rewrite list_lookup_alter_eq, H. reflexivity.
Qed.

Lemma player_at_update_ne w p q f :
  p <> q -> player_at (update_at p f w) q = player_at w q.
Proof.
  intros H. unfold player_at, update_at. simpl.
  rewrite list_lookup_alter_ne by exact H. reflexivity.
Qed.

Lemma SendToAll_lookup message except InRoom w i :
  playerlist (fst (SendToAll message except InRoom w)) !! i
  = sendToPlayer message except InRoom i <$> playerlist w !! i.
Proof. unfold SendToAll. simpl. apply list_lookup_imap. Qed.

(** C5 (amended).  A broadcast appends the message to exactly the sessions
    whose socket is still connected and that are in the Playing state, not
    closing, not the excluded session and, with a room restriction (a
    non-zero room), in that room; every other session and everything else in
    the world is unchanged.  In particular the excluded session and a session
    in another room than the restriction get nothing. *)
Theorem SendToAll_recipients (message : string) (except : option nat) (InRoom : Z) (w : World) :
  let w' := fst (SendToAll message except InRoom w) in
  snd (SendToAll message except InRoom w) = Done tt /\
  length (playerlist w') = length (playerlist w) /\
  w' = set_playerlist (playerlist w') w /\
  forall (i : nat) (pl : tPlayer), playerlist w !! i = Some pl ->
    playerlist w' !! i
      = Some (if Connected pl && spec_recipient except InRoom i pl
              then put message pl else pl)
    /\ (except = Some i -> playerlist w' !! i = Some pl)
    /\ (InRoom <> 0 -> room pl <> InRoom -> playerlist w' !! i = Some pl).
Proof.
  intros w'. subst w'. split; [reflexivity|]. split.
  { unfold SendToAll. simpl. apply length_imap. }
  split; [reflexivity|].
  intros i pl Hi. rewrite SendToAll_lookup, Hi. simpl.
  unfold sendToPlayer, spec_recipient, IsPlaying.
  repeat split.
  - f_equal. destruct (Connected pl), (bool_decide (connstate pl = ePlaying)),
      (closing pl), (bool_decide (except = Some i)), (InRoom =? 0), (room pl =? InRoom);
      reflexivity.
  - intros ->. rewrite (bool_decide_eq_true_2 (Some i = Some i)) by reflexivity.
    rewrite andb_false_r. reflexivity.
  - intros H0 Hr. apply Z.eqb_neq in H0, Hr. rewrite H0, Hr.
    rewrite andb_false_r. reflexivity.
Qed.

(** ** Movement *)

Lemma DoDirection_no_exit dc p dir w r :
  roommap w !! room (player_at w p) = Some r ->
  exit_find (exits r) dir = None ->
  DoDirection dc p dir w = (w, Threw "You cannot go that way.").
Proof.
  intros Hr He. unfold DoDirection, bind, get, FindRoom. simpl.
  rewrite Hr, He. reflexivity.
Qed.

Lemma DoDirection_dangling dc p dir w r vnum :
  roommap w !! room (player_at w p) = Some r ->
  exit_find (exits r) dir = Some vnum ->
  roommap w !! vnum = None ->
  DoDirection dc p dir w
  = (w, Threw ("Room number " ++ string_of_Z vnum ++ " does not exist.")).
Proof.
  intros Hr He Hv. unfold DoDirection, bind, get, FindRoom. simpl.
  rewrite Hr, He. unfold PlayerToRoom, bind, FindRoom. rewrite Hv. reflexivity.
Qed.

Lemma DoDirection_no_room dc p dir w :
  roommap w !! room (player_at w p) = None ->
  DoDirection dc p dir w
  = (w, Threw ("Room number " ++ string_of_Z (room (player_at w p)) ++ " does not exist.")).
Proof.
  intros Hr. unfold DoDirection, bind, get, FindRoom. simpl.
  rewrite Hr. reflexivity.
Qed.

Lemma DoDirection_done dc p dir w w' :
  DoDirection dc p dir w = (w', Done tt) ->
  exists r vnum, roommap w !! room (player_at w p) = Some r /\
    exit_find (exits r) dir = Some vnum /\ is_Some (roommap w !! vnum).
Proof.
  intros H.
  destruct (roommap w !! room (player_at w p)) as [r|] eqn:Hr.
  2:{ rewrite DoDirection_no_room in H by exact Hr. discriminate. }
  destruct (exit_find (exits r) dir) as [vnum|] eqn:He.
  2:{ rewrite (DoDirection_no_exit _ _ _ _ r) in H by assumption. discriminate. }
  destruct (roommap w !! vnum) as [r'|] eqn:Hv.
  2:{ rewrite (DoDirection_dangling _ _ _ _ r vnum) in H by assumption. discriminate. }
  exists r, vnum. rewrite Hv. eauto.
Qed.

Lemma ProcessCommand_direction fuel p sArgs w :
  set_find (fst (read_string "" sArgs)) (directionset w) = true ->
  ProcessCommand (S fuel) p sArgs w
  = DoDirection (DoCommand fuel) p (fst (read_string "" sArgs)) w.
Proof.
  intros Hd. simpl. destruct (read_string "" sArgs) as [command sArgs'].
  simpl in *. unfold bind, get_world. rewrite Hd. reflexivity.
Qed.

(** C4.  A movement command (its verb is a direction of the control file)
    whose direction has no exit in the player's room raises
    "You cannot go that way." and one whose exit leads to a room that is not
    in the room map raises the missing-room error; in both cases the world,
    so the player's room and every session's output, is unchanged.  A
    movement that succeeds went through an exit of the current room to a
    room of the map. *)
Theorem movement_needs_an_exit (fuel p : nat) (sArgs : istream) (w : World) :
  let command := fst (read_string "" sArgs) in
  let here := room (player_at w p) in
  set_find command (directionset w) = true ->
  (forall r, roommap w !! here = Some r -> exit_find (exits r) command = None ->
     ProcessCommand (S fuel) p sArgs w = (w, Threw "You cannot go that way."))
  /\ (forall r vnum, roommap w !! here = Some r ->
        exit_find (exits r) command = Some vnum -> roommap w !! vnum = None ->
        ProcessCommand (S fuel) p sArgs w
        = (w, Threw ("Room number " ++ string_of_Z vnum ++ " does not exist.")))
  /\ (forall w', ProcessCommand (S fuel) p sArgs w = (w', Done tt) ->
        exists r vnum, roommap w !! here = Some r /\
          exit_find (exits r) command = Some vnum /\ is_Some (roommap w !! vnum)).
Proof.
  intros command here Hd. rewrite (ProcessCommand_direction _ _ _ _ Hd).
  fold command. repeat split.
  - intros r Hr He. eapply DoDirection_no_exit; eassumption.
  - intros r v Hr He Hv. eapply DoDirection_dangling; eassumption.
  - intros w' H. eapply DoDirection_done; eassumption.
Qed.


(** ** Flags *)

Lemma ciLess_irrefl s : ciLess s s = false.
Proof.
  induction s as [|c s IH]; [reflexivity|]. simpl.
  rewrite N.ltb_irrefl. exact IH.
Qed.

Lemma ci_equiv_refl s : ci_equiv s s = true.
Proof. unfold ci_equiv. rewrite ciLess_irrefl. reflexivity. Qed.

Lemma set_find_ordered_insert_same x l : set_find x (ordered_insert x l) = true.
Proof.
  unfold set_find. induction l as [|y l IH]; simpl.
  - rewrite ci_equiv_refl. reflexivity.
  - destruct (ciLess x y); simpl.
    + rewrite ci_equiv_refl. reflexivity.
    + rewrite IH. apply orb_true_r.
Qed.

Lemma set_find_ordered_insert_mono y x l :
  set_find y l = true -> set_find y (ordered_insert x l) = true.
Proof.
  unfold set_find. induction l as [|z l IH]; simpl; [discriminate|].
  intros H. destruct (ciLess x z); simpl.
  - rewrite H. apply orb_true_r.
  - apply orb_true_iff in H as [H|H].
    + rewrite H. reflexivity.
    + rewrite (IH H). apply orb_true_r.
Qed.

Lemma set_find_insert_mono y x l :
  set_find y l = true -> set_find y (set_insert x l) = true.
Proof.
  intros H. unfold set_insert. destruct (set_find x l); [exact H|].
  apply set_find_ordered_insert_mono, H.
Qed.

Lemma set_erase_absent x l : set_find x l = false -> set_erase x l = l.
Proof.
  unfold set_find, set_erase. induction l as [|y l IH]; simpl; [reflexivity|].
  intros H. apply orb_false_iff in H as [H1 H2]. rewrite H1. simpl.
  f_equal. apply IH, H2.
Qed.

Lemma set_erase_ordered_insert x l :
  set_find x l = false -> set_erase x (ordered_insert x l) = l.
Proof.
  unfold set_find. induction l as [|y l IH]; simpl.
  - intros _. unfold set_erase. simpl. rewrite ci_equiv_refl. reflexivity.
  - intros H. apply orb_false_iff in H as [H1 H2].
    destruct (ciLess x y); unfold set_erase; simpl.
    + rewrite ci_equiv_refl, H1. simpl. f_equal.
      apply (set_erase_absent x l H2).
    + rewrite H1. simpl. f_equal. apply IH, H2.
Qed.

Lemma set_erase_insert x l : set_find x l = false -> set_erase x (set_insert x l) = l.
Proof.
  intros H. unfold set_insert. rewrite H. apply set_erase_ordered_insert, H.
Qed.

Lemma set_find_insert_same x l : set_find x (set_insert x l) = true.
Proof.
  unfold set_insert. destruct (set_find x l) eqn:H; [exact H|].
  apply set_find_ordered_insert_same.
Qed.

(** ** The readers leave the world alone *)

Lemma NeedFlag_run p name w :
  NeedFlag p name w
  = (w, if HaveFlag (player_at w p) name then Done tt
        else Threw "You are not permitted to do that.").
Proof. unfold NeedFlag, bind, get. simpl. destruct (HaveFlag _ _); reflexivity. Qed.

Lemma NoMore_fst p sArgs w : fst (NoMore p sArgs w) = w.
Proof.
  unfold NoMore. destruct (getline "" sArgs) as [l i].
  destruct (str_empty l); reflexivity.
Qed.

Lemma NoMore_snd p sArgs w w' : snd (NoMore p sArgs w) = snd (NoMore p sArgs w').
Proof.
  unfold NoMore. destruct (getline "" sArgs) as [l i].
  destruct (str_empty l); reflexivity.
Qed.

Lemma GetFlag_fst sArgs e w : fst (GetFlag sArgs e w) = w.
Proof.
  unfold GetFlag. destruct (read_string "" (ws sArgs)) as [f i].
  destruct (str_empty f); [reflexivity|].
  destruct (has_char_not_of _ _); reflexivity.
Qed.

Lemma GetFlag_done sArgs e e' w w' r :
  snd (GetFlag sArgs e w) = Done r -> snd (GetFlag sArgs e' w') = Done r.
Proof.
  unfold GetFlag. destruct (read_string "" (ws sArgs)) as [f i].
  destruct (str_empty f); [discriminate|].
  destruct (has_char_not_of _ _); [discriminate|]. auto.
Qed.

Lemma GetPlayer_fst p args e notme w : fst (GetPlayer p args e notme w) = w.
Proof.
  unfold GetPlayer. destruct (read_string "" args) as [name i].
  destruct (str_empty name); [reflexivity|].
  unfold bind, get_world. simpl.
  repeat case_match; reflexivity.
Qed.

Lemma GetPlayer_done p args e e' notme w w' r :
  (forall name, FindPlayer w' name = FindPlayer w name) ->
  snd (GetPlayer p args e notme w) = Done r ->
  snd (GetPlayer p args e' notme w') = Done r.
Proof.
  intros HF. unfold GetPlayer. destruct (read_string "" args) as [name i].
  destruct (str_empty name); [discriminate|].
  unfold bind, get_world. simpl. rewrite HF.
  repeat case_match; try discriminate; auto.
Qed.

Lemma find_if_Some {A} (f : A -> bool) l i :
  find_if f l = Some i -> exists x, l !! i = Some x /\ f x = true.
Proof.
  revert i. induction l as [|x l IH]; simpl; [discriminate|].
  intros i. destruct (f x) eqn:Hx.
  - intros [= <-]. eauto.
  - destruct (find_if f l) as [j|]; simpl; [|discriminate].
    intros [= <-]. apply (IH j eq_refl).
Qed.

Lemma find_if_alter {A} (f : A -> bool) (g : A -> A) i l :
  (forall x, f (g x) = f x) -> find_if f (alter g i l) = find_if f l.
Proof.
  intros Hg. revert i. induction l as [|x l IH]; intros [|i]; simpl; try reflexivity.
  - rewrite Hg. reflexivity.
  - change (list_alter g i l) with (alter g i l). rewrite IH. reflexivity.
Qed.

Lemma GetPlayer_valid p args e notme w t i pl :
  playerlist w !! p = Some pl ->
  snd (GetPlayer p args e notme w) = Done (t, i) -> is_Some (playerlist w !! t).
Proof.
  intros Hp. unfold GetPlayer. destruct (read_string "" args) as [name i'].
  destruct (str_empty name); [discriminate|].
  unfold bind, get_world. simpl.
  destruct (ciStringEqual name "me" || ciStringEqual name "self").
  - destruct (_ && _); [discriminate|]. intros [= <- <-]. eauto.
  - unfold FindPlayer. destruct (find_if _ _) as [q|] eqn:Hq; [|discriminate].
    destruct (_ && _); [discriminate|]. intros [= <- <-].
    apply find_if_Some in Hq as (x & Hx & _). eauto.
Qed.

Lemma player_at_update i g w q :
  player_at (update_at i g w) q
  = if decide (i = q)
    then match playerlist w !! q with Some pl => g pl | None => nobody end
    else player_at w q.
Proof.
  unfold player_at, update_at. simpl. rewrite list_lookup_alter.
  destruct (decide (i = q)) as [->|]; [|reflexivity].
  destruct (playerlist w !! q); reflexivity.
Qed.

Lemma put_at_update p text w : put_at p text w = update_at p (put text) w.
Proof. reflexivity. Qed.

Lemma HaveFlag_valid w p name :
  HaveFlag (player_at w p) name = true -> exists pl, playerlist w !! p = Some pl.
Proof.
  unfold player_at. destruct (playerlist w !! p) as [pl|]; [eauto|discriminate].
Qed.

Lemma FindPlayer_update i g w name :
  (forall x, findPlayerName name (g x) = findPlayerName name x) ->
  FindPlayer (update_at i g w) name = FindPlayer w name.
Proof. intros H. unfold FindPlayer, update_at. simpl. apply find_if_alter, H. Qed.

Ltac reader lem :=
  match goal with
  | |- context [?m ?w] =>
      match m with
      | GetPlayer _ _ _ _ => idtac
      | GetFlag _ _ => idtac
      | NoMore _ _ => idtac
      end;
      let r := fresh "r" in let w0 := fresh "w0" in
      let E := fresh "E" in let X := fresh "X" in
      destruct (m w) as [w0 r] eqn:E;
      assert (X : w0 = w) by (pose proof (lem w) as X; rewrite E in X; exact X);
      subst w0
  end.

Ltac same_world :=
  let H := fresh in
  intros H; first [discriminate H | injection H; intros; subst; reflexivity].

Lemma DoSetFlag_done dc p sArgs w w1 :
  DoSetFlag dc p sArgs w = (w1, Done tt) ->
  exists t f s1 s2,
    HaveFlag (player_at w p) "can_setflag" = true /\
    GetPlayer p sArgs "Usage: setflag <who> <flag>" false w = (w, Done (t, s1)) /\
    GetFlag s1 "Set which flag?" w = (w, Done (f, s2)) /\
    NoMore p s2 w = (w, Done tt) /\
    set_find f (flags (player_at w t)) = false /\
    w1 = (let w' := update_at t (fun q => set_flags (set_insert f (flags q)) q) w in
          put_at p ("You set the flag '" ++ f ++ "' for " ++ playername (player_at w' t) ++ nl) w').
Proof.
  unfold DoSetFlag, bind. rewrite NeedFlag_run.
  destruct (HaveFlag (player_at w p) "can_setflag") eqn:HF; [|discriminate].
  reader (GetPlayer_fst p sArgs "Usage: setflag <who> <flag>" false).
  destruct r as [[t s1]|e|]; try discriminate.
  reader (GetFlag_fst s1 "Set which flag?").
  destruct r as [[f s2]|e|]; try discriminate.
  reader (NoMore_fst p s2).
  destruct r as [[]|e|]; try discriminate.
  unfold get. simpl.
  destruct (set_find f (flags (player_at w t))) eqn:Hf; [discriminate|].
  intros H. exists t, f, s1, s2.
  do 5 (split; [first [reflexivity | assumption]|]).
  unfold modify, send, modify in H. simpl in H. injection H as <-. reflexivity.
Qed.

Lemma DoSetFlag_threw dc p sArgs w w1 e :
  DoSetFlag dc p sArgs w = (w1, Threw e) -> w1 = w.
Proof.
  unfold DoSetFlag, bind. rewrite NeedFlag_run.
  destruct (HaveFlag (player_at w p) "can_setflag") eqn:HF; simpl; [|same_world].
  reader (GetPlayer_fst p sArgs "Usage: setflag <who> <flag>" false).
  destruct r as [[t s1]|e'|]; try same_world.
  reader (GetFlag_fst s1 "Set which flag?").
  destruct r as [[f s2]|e'|]; try same_world.
  reader (NoMore_fst p s2).
  destruct r as [[]|e'|]; try same_world.
  unfold get. simpl.
  destruct (set_find f (flags (player_at w t))) eqn:Hf; [same_world|].
  unfold modify, send, modify. simpl. discriminate.
Qed.

Lemma DoClearFlag_threw dc p sArgs w w1 e :
  DoClearFlag dc p sArgs w = (w1, Threw e) -> w1 = w.
Proof.
  unfold DoClearFlag, bind. rewrite NeedFlag_run.
  destruct (HaveFlag (player_at w p) "can_setflag") eqn:HF; simpl; [|same_world].
  reader (GetPlayer_fst p sArgs "Usage: clearflag <who> <flag>" false).
  destruct r as [[t s1]|e'|]; try same_world.
  reader (GetFlag_fst s1 "Clear which flag?").
  destruct r as [[f s2]|e'|]; try same_world.
  reader (NoMore_fst p s2).
  destruct r as [[]|e'|]; try same_world.
  unfold get. simpl.
  destruct (set_find f (flags (player_at w t))) eqn:Hf; simpl; [|same_world].
  unfold modify, send, modify. simpl. discriminate.
Qed.

Lemma flag_arguments_readers p sArgs w t f s2 e :
  flag_arguments p sArgs w = Some (t, f, s2) ->
  exists s1, GetPlayer p sArgs e false w = (w, Done (t, s1))
    /\ forall e', GetFlag s1 e' w = (w, Done (f, s2)).
Proof.
  unfold flag_arguments.
  destruct (snd (GetPlayer p sArgs "" false w)) as [[t' s1]|?|] eqn:HG; try discriminate.
  destruct (snd (GetFlag s1 "" w)) as [[f' s2']|?|] eqn:HF; try discriminate.
  intros [= -> -> ->]. exists s1. split.
  - apply (GetPlayer_done _ _ _ e _ _ w) in HG; [|reflexivity].
    pose proof (GetPlayer_fst p sArgs e false w) as X.
    destruct (GetPlayer p sArgs e false w). simpl in *. congruence.
  - intros e'. apply (GetFlag_done _ _ e' _ w) in HF.
    pose proof (GetFlag_fst s1 e' w) as X.
    destruct (GetFlag s1 e' w). simpl in *. congruence.
Qed.

Lemma NoMore_total p sArgs w : snd (NoMore p sArgs w) <> Diverged.
Proof.
  unfold NoMore. destruct (getline "" sArgs) as [l i].
  destruct (str_empty l); discriminate.
Qed.

Lemma DoSetFlag_already_set dc p sArgs w t f s2 :
  flag_arguments p sArgs w = Some (t, f, s2) ->
  set_find f (flags (player_at w t)) = true ->
  exists e, DoSetFlag dc p sArgs w = (w, Threw e)
    /\ (HaveFlag (player_at w p) "can_setflag" = true ->
        NoMore p s2 w = (w, Done tt) -> e = "Flag already set.").
Proof.
  intros Ha Hf.
  destruct (flag_arguments_readers _ _ _ _ _ _ "Usage: setflag <who> <flag>" Ha)
    as (s1 & HG & HFl).
  unfold DoSetFlag, bind. rewrite NeedFlag_run.
  destruct (HaveFlag (player_at w p) "can_setflag");
    [|eexists; split; [reflexivity|discriminate]].
  rewrite HG, HFl.
  pose proof (NoMore_fst p s2 w) as X. pose proof (NoMore_total p s2 w) as Y.
  destruct (NoMore p s2 w) as [w0 [[]|e|]]; simpl in X, Y; subst w0.
  - unfold get. simpl. rewrite Hf. eexists; split; [reflexivity|auto].
  - eexists; split; [reflexivity|]. intros _ [=].
  - contradiction.
Qed.

Lemma DoClearFlag_not_set dc p sArgs w t f s2 :
  flag_arguments p sArgs w = Some (t, f, s2) ->
  set_find f (flags (player_at w t)) = false ->
  exists e, DoClearFlag dc p sArgs w = (w, Threw e)
    /\ (HaveFlag (player_at w p) "can_setflag" = true ->
        NoMore p s2 w = (w, Done tt) -> e = "Flag not set.").
Proof.
  intros Ha Hf.
  destruct (flag_arguments_readers _ _ _ _ _ _ "Usage: clearflag <who> <flag>" Ha)
    as (s1 & HG & HFl).
  unfold DoClearFlag, bind. rewrite NeedFlag_run.
  destruct (HaveFlag (player_at w p) "can_setflag");
    [|eexists; split; [reflexivity|discriminate]].
  rewrite HG, HFl.
  pose proof (NoMore_fst p s2 w) as X. pose proof (NoMore_total p s2 w) as Y.
  destruct (NoMore p s2 w) as [w0 [[]|e|]]; simpl in X, Y; subst w0.
  - unfold get. simpl. rewrite Hf. eexists; split; [reflexivity|auto].
  - eexists; split; [reflexivity|]. intros _ [=].
  - contradiction.
Qed.

Lemma findPlayerName_put name text x :
  findPlayerName name (put text x) = findPlayerName name x.
Proof. reflexivity. Qed.

Lemma findPlayerName_set_flags name v x :
  findPlayerName name (set_flags v x) = findPlayerName name x.
Proof. reflexivity. Qed.

Lemma player_at_update_proj {A} (proj : tPlayer -> A) i g w q :
  (forall x, proj (g x) = proj x) ->
  proj (player_at (update_at i g w) q) = proj (player_at w q).
Proof.
  intros H. rewrite player_at_update. destruct (decide (i = q)); [|reflexivity].
  unfold player_at. destruct (playerlist w !! q); simpl; [apply H|reflexivity].
Qed.

Lemma setflag_then_clearflag dc dc' p sArgs w w1 :
  DoSetFlag dc p sArgs w = (w1, Done tt) ->
  exists w2, DoClearFlag dc' p sArgs w1 = (w2, Done tt)
    /\ forall q, flags (player_at w2 q) = flags (player_at w q).
Proof.
  intros H. apply DoSetFlag_done in H as (t & f & s1 & s2 & HF & HG & HFl & HN & Hf & ->).
  destruct (HaveFlag_valid _ _ _ HF) as [pl Hp].
  assert (Ht : is_Some (playerlist w !! t)).
  { eapply (GetPlayer_valid p sArgs _ false w t s1 pl Hp). rewrite HG. reflexivity. }
  destruct Ht as [tl Ht].
  set (ins := fun q : tPlayer => set_flags (set_insert f (flags q)) q).
  set (w' := update_at t ins w). cbv zeta.
  set (msg := "You set the flag '" ++ f ++ "' for " ++ playername (player_at w' t) ++ nl).
  set (w1 := put_at p msg w').
  assert (HFP : forall name, FindPlayer w1 name = FindPlayer w name).
  { intros name. unfold w1. rewrite put_at_update.
    rewrite FindPlayer_update by (intros; apply findPlayerName_put).
    unfold w'. apply FindPlayer_update. intros; apply findPlayerName_set_flags. }
  assert (Hfl1 : forall q, flags (player_at w1 q)
                 = if decide (t = q) then set_insert f (flags (player_at w q))
                   else flags (player_at w q)).
  { intros q. unfold w1. rewrite put_at_update.
    rewrite (player_at_update_proj flags) by reflexivity.
    unfold w'. rewrite player_at_update. destruct (decide (t = q)) as [<-|]; [|reflexivity].
    rewrite (player_at_lookup w t tl Ht), Ht. reflexivity. }
  unfold DoClearFlag, bind. rewrite NeedFlag_run.
  assert (HF1 : HaveFlag (player_at w1 p) "can_setflag" = true).
  { unfold HaveFlag. rewrite Hfl1. destruct (decide (t = p)); [|exact HF].
    apply set_find_insert_mono, HF. }
  rewrite HF1.
  assert (HG1 : GetPlayer p sArgs "Usage: clearflag <who> <flag>" false w1 = (w1, Done (t, s1))).
  { pose proof (GetPlayer_fst p sArgs "Usage: clearflag <who> <flag>" false w1) as X.
    assert (Y : snd (GetPlayer p sArgs "Usage: clearflag <who> <flag>" false w1) = Done (t, s1)).
    { eapply GetPlayer_done; [exact HFP|]. rewrite HG. reflexivity. }
    destruct (GetPlayer _ _ _ _ w1). simpl in *. congruence. }
  rewrite HG1.
  assert (HFl1 : GetFlag s1 "Clear which flag?" w1 = (w1, Done (f, s2))).
  { pose proof (GetFlag_fst s1 "Clear which flag?" w1) as X.
    assert (Y : snd (GetFlag s1 "Clear which flag?" w1) = Done (f, s2)).
    { eapply GetFlag_done. rewrite HFl. reflexivity. }
    destruct (GetFlag _ _ w1). simpl in *. congruence. }
  rewrite HFl1.
  assert (HN1 : NoMore p s2 w1 = (w1, Done tt)).
  { pose proof (NoMore_fst p s2 w1) as X. pose proof (NoMore_snd p s2 w1 w) as Y.
    rewrite HN in Y. destruct (NoMore p s2 w1). simpl in *. congruence. }
  rewrite HN1. unfold get. simpl.
  rewrite Hfl1. rewrite decide_True by reflexivity. rewrite set_find_insert_same. simpl.
  set (er := fun q0 : tPlayer => set_flags (set_erase f (flags q0)) q0).
  set (w2 := update_at t er w1).
  exists (put_at p ("You clear the flag '" ++ f ++ "' for "
                    ++ playername (player_at w2 t) ++ nl) w2).
  split; [reflexivity|].
  intros q.
  rewrite put_at_update. rewrite (player_at_update_proj flags) by reflexivity.
  unfold w2. rewrite player_at_update. destruct (decide (t = q)) as [<-|].
  - assert (Ht1 : is_Some (playerlist w1 !! t)).
    { unfold w1, w', put_at, update_at. simpl.
      apply lookup_lt_is_Some. rewrite !length_alter.
      apply lookup_lt_is_Some. eauto. }
    destruct Ht1 as [tl1 Ht1]. rewrite Ht1. simpl.
    pose proof (Hfl1 t) as Z. rewrite decide_True in Z by reflexivity.
    rewrite (player_at_lookup w1 t tl1 Ht1) in Z. rewrite Z.
    apply set_erase_insert, Hf.
  - rewrite Hfl1. rewrite decide_False by assumption. reflexivity.
Qed.

(** ** Actions that return *)

Section Safe.
Variable D : list string.

Lemma safe_ret {A} (a : A) : safe D (ret a).
Proof. intros w H. split; [exact H|discriminate]. Qed.

Lemma safe_throw {A} e : safe D (@throw A e).
Proof. intros w H. split; [exact H|discriminate]. Qed.

Lemma safe_bind {A B} (m : M A) (k : A -> M B) :
  safe D m -> (forall a, safe D (k a)) -> safe D (bind m k).
Proof.
  intros Hm Hk w H. unfold bind. destruct (Hm w H) as [H1 H2].
  destruct (m w) as [w' [a|e|]]; simpl in *.
  - apply Hk, H1.
  - split; [exact H1|discriminate].
  - contradiction.
Qed.

Lemma safe_try_catch {A} (m : M A) (h : string -> M A) :
  safe D m -> (forall e, safe D (h e)) -> safe D (try_catch m h).
Proof.
  intros Hm Hh w H. unfold try_catch. destruct (Hm w H) as [H1 H2].
  destruct (m w) as [w' [a|e|]]; simpl in *.
  - split; [exact H1|discriminate].
  - apply Hh, H1.
  - contradiction.
Qed.

Lemma safe_get p : safe D (get p).
Proof. intros w H. split; [exact H|discriminate]. Qed.

Lemma safe_get_world : safe D get_world.
Proof. intros w H. split; [exact H|discriminate]. Qed.

Lemma safe_modify p f : safe D (modify p f).
Proof. intros w H. split; [exact H|discriminate]. Qed.

Lemma safe_send p msg : safe D (send p msg).
Proof. apply safe_modify. Qed.

Lemma safe_log line : safe D (log line).
Proof. intros w H. split; [exact H|discriminate]. Qed.

Lemma safe_when b m : safe D m -> safe D (when b m).
Proof. intros H. destruct b; [exact H|apply safe_ret]. Qed.

Lemma safe_SendToAll message except InRoom : safe D (SendToAll message except InRoom).
Proof. intros w H. split; [exact H|discriminate]. Qed.

Lemma safe_FindRoom vnum : safe D (FindRoom vnum).
Proof.
  intros w H. unfold FindRoom. destruct (roommap w !! vnum);
    (split; [exact H|discriminate]).
Qed.

Lemma safe_stop : safe D (fun w => (set_bStopNow true w, Done tt)).
Proof. intros w H. split; [exact H|discriminate]. Qed.

Lemma safe_delete i :
  safe D (fun w => (set_playerlist (delete i (playerlist w)) w, Done tt)).
Proof. intros w H. split; [exact H|discriminate]. Qed.

Lemma safe_Save pl : safe D (Save pl).
Proof.
  intros w H. unfold Save. destruct (bool_decide _); (split; [exact H|discriminate]).
Qed.

Ltac safe_step :=
  first
    [ apply safe_ret | apply safe_throw | apply safe_get | apply safe_get_world
    | apply safe_modify | apply safe_send | apply safe_log | apply safe_SendToAll
    | apply safe_FindRoom | apply safe_stop | apply safe_Save | apply safe_delete
    | assumption
    | apply safe_when
    | apply safe_bind; [|intros]
    | apply safe_try_catch; [|intros]
    | case_match ].

Ltac safe_tac := repeat safe_step.

Lemma safe_NeedFlag p name : safe D (NeedFlag p name).
Proof. unfold NeedFlag. safe_tac. Qed.

Lemma safe_NeedNoFlag p name : safe D (NeedNoFlag p name).
Proof. unfold NeedNoFlag. safe_tac. Qed.

Lemma safe_NoMore p sArgs : safe D (NoMore p sArgs).
Proof. unfold NoMore. safe_tac. Qed.

Lemma safe_GetMessage sArgs e : safe D (GetMessage sArgs e).
Proof. unfold GetMessage. safe_tac. Qed.

Lemma safe_GetFlag sArgs e : safe D (GetFlag sArgs e).
Proof. unfold GetFlag. safe_tac. Qed.

Lemma safe_GetPlayer p sArgs e notme : safe D (GetPlayer p sArgs e notme).
Proof. unfold GetPlayer. safe_tac. Qed.

Lemma safe_Load p : safe D (Load p).
Proof. unfold Load. safe_tac. Qed.

Create HintDb safe.
#[local] Hint Resolve safe_NeedFlag safe_NeedNoFlag safe_NoMore safe_GetMessage
  safe_GetFlag safe_GetPlayer safe_Load : safe.

Ltac safe_auto := repeat first [ solve [auto with safe] | safe_step ].

Lemma safe_DoLook dc p sArgs : safe D (DoLook dc p sArgs).
Proof. unfold DoLook. safe_auto. Qed.

Section WithLook.
Variable dc : tDoCommand.
Hypothesis dc_look : forall q, safe D (dc q "look").

Lemma safe_PlayerToRoom p vnum m1 m2 m3 : safe D (PlayerToRoom dc p vnum m1 m2 m3).
Proof. unfold PlayerToRoom. safe_auto. Qed.

Lemma safe_DoDirection p dir : safe D (DoDirection dc p dir).
Proof. unfold DoDirection. safe_auto; apply safe_PlayerToRoom. Qed.

Lemma safe_PlayerEnteredGame p message : safe D (PlayerEnteredGame dc p message).
Proof. unfold PlayerEnteredGame. safe_auto. Qed.

Lemma safe_commandmap command handler p sArgs :
  commandmap_find commandmap command = Some handler ->
  safe D (handler dc p sArgs).
Proof.
  unfold commandmap. cbn [commandmap_find].
  repeat (destruct (String.eqb _ command);
          [intros [= <-];
           match goal with |- safe _ (?h _ _ _) => unfold h end;
           safe_auto; apply safe_PlayerToRoom|]).
  discriminate.
Qed.

Lemma safe_login st p sArgs :
  st <> ePlaying ->
  safe D (match st with
          | eAwaitingName => ProcessPlayerName dc
          | eAwaitingPassword => ProcessPlayerPassword dc
          | eAwaitingNewName => ProcessNewPlayerName dc
          | eAwaitingNewPassword => ProcessNewPassword dc
          | eConfirmPassword => ProcessConfirmPassword dc
          | ePlaying => fun _ _ => ret tt
          end p sArgs).
Proof.
  intros Hst. destruct st; try congruence.
  - unfold ProcessPlayerName. safe_auto.
  - unfold ProcessPlayerPassword. safe_auto; apply safe_PlayerEnteredGame.
  - unfold ProcessNewPlayerName. safe_auto.
  - unfold ProcessNewPassword. safe_auto.
  - unfold ProcessConfirmPassword. safe_auto; apply safe_PlayerEnteredGame.
Qed.
End WithLook.
End Safe.

Lemma DoCommand_look n q w :
  set_find "look" (directionset w) = false ->
  DoCommand (S n) q "look" w
  = DoLook (DoCommand n) q {| rest := ""; eofbit := true; failbit := true |} w.
Proof.
  intros HD. unfold DoCommand. cbn [ProcessCommand].
  change (read_string "" (istringstream "look"))
    with ("look", {| rest := ""; eofbit := true; failbit := false |}).
  cbv beta iota. unfold bind, get_world. rewrite HD. reflexivity.
Qed.

Lemma safe_DoCommand_look D n q :
  set_find "look" D = false -> safe D (DoCommand (S n) q "look").
Proof.
  intros HD w Hw. rewrite DoCommand_look by (rewrite Hw; exact HD).
  apply safe_DoLook, Hw.
Qed.

Lemma safe_ProcessCommand D n p sArgs :
  set_find "look" D = false -> safe D (ProcessCommand (S (S n)) p sArgs).
Proof.
  intros HD. cbn [ProcessCommand].
  destruct (read_string "" sArgs) as [command sArgs'].
  apply safe_bind; [apply safe_get_world|]. intros w.
  fold (DoCommand (S n)).
  destruct (set_find command (directionset w)).
  - apply safe_DoDirection. intros q. apply safe_DoCommand_look, HD.
  - destruct (commandmap_find commandmap command) as [h|] eqn:Hh.
    + eapply safe_commandmap; [|exact Hh]. intros q. apply safe_DoCommand_look, HD.
    + apply safe_throw.
Qed.

Lemma safe_statemap D n st p sArgs :
  set_find "look" D = false -> safe D (statemap (S (S n)) st p sArgs).
Proof.
  intros HD.
  assert (HL : forall q, safe D (DoCommand (S (S n)) q "look")).
  { intros q. apply safe_DoCommand_look, HD. }
  destruct st; unfold statemap;
    [ apply (safe_login D _ HL eAwaitingName p sArgs); discriminate
    | apply (safe_login D _ HL eAwaitingPassword p sArgs); discriminate
    | apply (safe_login D _ HL eAwaitingNewName p sArgs); discriminate
    | apply (safe_login D _ HL eAwaitingNewPassword p sArgs); discriminate
    | apply (safe_login D _ HL eConfirmPassword p sArgs); discriminate
    | apply safe_ProcessCommand, HD ].
Qed.

Lemma safe_ProcessPlayerInput D n p s :
  set_find "look" D = false -> safe D (ProcessPlayerInput (S (S n)) p s).
Proof.
  intros HD. unfold ProcessPlayerInput.
  apply safe_bind; [|intros; apply safe_bind; [apply safe_get|intros; apply safe_send]].
  apply safe_try_catch.
  - apply safe_bind; [apply safe_get|]. intros pl. apply safe_statemap, HD.
  - intros e. apply safe_bind; [apply safe_send|intros; apply safe_send].
Qed.

(** ** The dispatch boundary *)

Lemma string_app_cons x (a b : string) : String x a ++ b = String x (a ++ b).
Proof. reflexivity. Qed.

Lemma string_app_assoc (a b c : string) : (a ++ b) ++ c = a ++ (b ++ c).
Proof.
  induction a as [|x a IH]; [reflexivity|].
  rewrite !string_app_cons. f_equal. exact IH.
Qed.

Lemma string_app_nil_r (a : string) : a ++ "" = a.
Proof.
  induction a as [|x a IH]; [reflexivity|].
  rewrite string_app_cons. f_equal. exact IH.
Qed.

Lemma put_put a b pl : put b (put a pl) = put (a ++ b) pl.
Proof. unfold put, set_outbuf. simpl. rewrite string_app_assoc. reflexivity. Qed.

Lemma put_at_put_at p a b w : put_at p b (put_at p a w) = put_at p (a ++ b) w.
Proof.
  unfold put_at, set_playerlist. simpl. f_equal.
  rewrite list_alter_alter_eq.
  apply list_alter_ext; [intros x _; apply put_put | reflexivity].
Qed.

Lemma prompt_put_at p text w q :
  prompt (player_at (put_at p text w) q) = prompt (player_at w q).
Proof. rewrite put_at_update. apply (player_at_update_proj prompt). reflexivity. Qed.

Lemma send_run p msg w : send p msg w = (put_at p msg w, Done tt).
Proof. reflexivity. Qed.

Lemma ProcessPlayerInput_run fuel p s w :
  ProcessPlayerInput fuel p s w
  = let h := statemap fuel (connstate (player_at w p)) p (istringstream s) w in
    match snd h with
    | Done _ => (put_at p (prompt (player_at (fst h) p)) (fst h), Done tt)
    | Threw e =>
        (put_at p (c_str e ++ nl ++ prompt (player_at (fst h) p)) (fst h), Done tt)
    | Diverged => (fst h, Diverged)
    end.
Proof.
  unfold ProcessPlayerInput, bind, try_catch, get. cbv zeta.
  destruct (statemap fuel (connstate (player_at w p)) p (istringstream s) w)
    as [w1 [[]|e|]]; cbv beta iota; cbn [fst snd].
  - reflexivity.
  - repeat (rewrite send_run; cbv beta iota).
    rewrite !put_at_put_at, !prompt_put_at. reflexivity.
  - reflexivity.
Qed.

(** The reply of the dispatch boundary, written on the pending output. *)
Lemma put_at_outbuf p text w :
  put_at p text w = update_at p (fun x => set_outbuf (outbuf x ++ text) x) w.
Proof. reflexivity. Qed.

Lemma update_at_ext p f g w :
  (forall x, playerlist w !! p = Some x -> f x = g x) -> update_at p f w = update_at p g w.
Proof.
  intros H. unfold update_at. f_equal. apply list_alter_ext; [|reflexivity].
  intros x Hx. apply H. exact Hx.
Qed.

Lemma put_at_prompt p text w :
  put_at p (text ++ prompt (player_at w p)) w
  = update_at p (fun x => set_outbuf (outbuf x ++ text ++ prompt x) x) w.
Proof.
  rewrite put_at_outbuf. apply update_at_ext. intros x Hx.
  rewrite (player_at_lookup _ _ _ Hx). reflexivity.
Qed.


(** ** Password attempts *)

Lemma update_at_const p f w pl :
  playerlist w !! p = Some pl -> update_at p f w = update_at p (fun _ => f pl) w.
Proof.
  intros H. unfold update_at. f_equal.
  apply list_alter_ext; [|reflexivity]. intros x Hx. congruence.
Qed.

Lemma update_at_update_at p f g w :
  update_at p g (update_at p f w) = update_at p (fun x => g (f x)) w.
Proof.
  unfold update_at, set_playerlist. simpl. f_equal. apply list_alter_alter_eq.
Qed.

Lemma modify_run p f w : modify p f w = (update_at p f w, Done tt).
Proof. reflexivity. Qed.

Lemma lookup_update_at_eq p f w pl :
  playerlist w !! p = Some pl -> playerlist (update_at p f w) !! p = Some (f pl).
Proof. intros H. unfold update_at. simpl. rewrite list_lookup_alter_eq, H. reflexivity. Qed.

Lemma lookup_update_at_ne p q f w :
  p <> q -> playerlist (update_at p f w) !! q = playerlist w !! q.
Proof. intros H. unfold update_at. simpl. apply list_lookup_alter_ne, H. Qed.

Lemma lookup_update_at_const p x w pl :
  playerlist w !! p = Some pl -> playerlist (update_at p (fun _ => x) w) !! p = Some x.
Proof. intros H. apply (lookup_update_at_eq p (fun _ => x) w pl H). Qed.

(** The [catch] block of [ProcessPlayerPassword]. *)
Lemma password_catch p e w pl :
  playerlist w !! p = Some pl ->
  (modify p (fun q => set_badPasswordCount (badPasswordCount q + 1) q) ;;;
   pl <- get p ;;
   when (MAX_PASSWORD_ATTEMPTS <=? badPasswordCount pl)
     (send p ("Too many attempts to guess the password!" ++ nl) ;;;
      modify p Init) ;;;
   throw e) w
  = (update_at p (fun _ => after_failed_attempt pl) w, @Threw unit e).
Proof.
  intros H. unfold bind. rewrite modify_run. cbv beta iota. unfold get.
  cbv beta iota.
  set (inc := fun q => set_badPasswordCount (badPasswordCount q + 1) q).
  rewrite (player_at_lookup _ p (inc pl)) by (apply lookup_update_at_eq, H).
  unfold after_failed_attempt. fold (inc pl).
  destruct (MAX_PASSWORD_ATTEMPTS <=? badPasswordCount (inc pl)); unfold when.
  - rewrite send_run. cbv beta iota. rewrite modify_run. cbv beta iota.
    unfold throw. rewrite put_at_update, !update_at_update_at.
    rewrite (update_at_const p _ w pl H). reflexivity.
  - unfold ret, throw. rewrite (update_at_const p _ w pl H). reflexivity.
Qed.


Lemma try_catch_threw {A} (m : M A) h w w1 e :
  m w = (w1, Threw e) -> try_catch m h w = h e w1.
Proof. intros H. unfold try_catch. rewrite H. reflexivity. Qed.

Lemma ProcessPlayerPassword_blocked dc p sArgs w pl :
  playerlist w !! p = Some pl ->
  fst (read_string "" sArgs) = password pl ->
  str_empty (password pl) = false ->
  HaveFlag pl "blocked" = true ->
  ProcessPlayerPassword dc p sArgs w
  = (update_at p (fun _ => after_failed_attempt
                             (set_prompt ("Goodbye." ++ nl) (ClosePlayer pl))) w,
     Threw "You are not permitted to connect.").
Proof.
  intros H Hpw Hne Hb. unfold ProcessPlayerPassword.
  erewrite (try_catch_threw _ _ w
              (update_at p (fun x => set_prompt ("Goodbye." ++ nl) (ClosePlayer x)) w)
              "You are not permitted to connect.").
  - erewrite password_catch by (apply lookup_update_at_eq, H).
    rewrite update_at_update_at. reflexivity.
  - destruct (read_string "" sArgs) as [pw i]. simpl in Hpw. subst pw.
    rewrite Hne. unfold bind at 1, get at 1. cbv beta iota.
    rewrite (player_at_lookup _ _ _ H), String.eqb_refl, Hb. cbn [negb]. cbv iota.
    unfold bind, throw. cbv beta.
    repeat (rewrite modify_run; cbv beta iota).
    rewrite update_at_update_at. reflexivity.
Qed.







(** C10.  At the password prompt of a record that carries the flag
    "blocked", the right password does not enter the game: the session is
    marked closing, the failure counter goes up by one, and the session is
    sent "You are not permitted to connect." (after the too-many-attempts
    line if the counter reached the maximum) followed by its prompt. *)
Theorem blocked_player_is_refused (fuel p : nat) (line : string) (w : World) (pl : tPlayer) :
  playerlist w !! p = Some pl ->
  connstate pl = eAwaitingPassword ->
  typed line = password pl ->
  str_empty (password pl) = false ->
  HaveFlag pl "blocked" = true ->
  exists pl',
    ProcessPlayerInput fuel p line w = (update_at p (fun _ => pl') w, Done tt) /\
    closing pl' = true /\
    connstate pl' <> ePlaying /\
    badPasswordCount pl' = badPasswordCount pl + 1 /\
    outbuf pl'
    = outbuf pl
      ++ (if MAX_PASSWORD_ATTEMPTS <=? badPasswordCount pl + 1
          then "Too many attempts to guess the password!" ++ nl else "")
      ++ "You are not permitted to connect." ++ nl ++ prompt pl' /\
    prompt pl'
    = (if MAX_PASSWORD_ATTEMPTS <=? badPasswordCount pl + 1
       then "Enter your name, or 'new' to create a new character ...  "
       else "Goodbye." ++ nl).
Proof.
  intros H Hst Hpw Hne Hb.
  rewrite ProcessPlayerInput_run.
  rewrite (player_at_lookup _ _ _ H), Hst. unfold statemap.
  rewrite (ProcessPlayerPassword_blocked _ _ _ _ pl H Hpw Hne Hb). cbn [fst snd].
  set (pl1 := after_failed_attempt _).
  rewrite (player_at_lookup _ p pl1) by (eapply lookup_update_at_const, H).
  rewrite put_at_update, update_at_update_at.
  eexists. split; [reflexivity|].
  unfold pl1, after_failed_attempt. cbv zeta.
  change (badPasswordCount (set_badPasswordCount ?v ?x)) with v.
  change (badPasswordCount (set_prompt ("Goodbye." ++ nl) (ClosePlayer pl)))
    with (badPasswordCount pl).
  destruct (MAX_PASSWORD_ATTEMPTS <=? badPasswordCount pl + 1); simpl.
  - repeat split; try discriminate.
    rewrite !string_app_assoc. reflexivity.
  - rewrite Hst. repeat split; try discriminate.
Qed.

(** ** Writing to the socket *)

Lemma str_take_drop n s : str_take n s ++ str_drop n s = s.
Proof.
  revert s. induction n as [|n IH]; intros [|c s]; try reflexivity.
  cbn [str_take str_drop]. rewrite string_app_cons. f_equal. apply IH.
Qed.

Lemma length_str_drop n s : String.length (str_drop n s) = (String.length s - n)%nat.
Proof.
  revert s. induction n as [|n IH]; intros [|c s]; simpl; try reflexivity.
  apply IH.
Qed.

Lemma str_empty_length s : str_empty s = false -> (0 < String.length s)%nat.
Proof. destruct s; [discriminate|]. simpl. lia. Qed.

Lemma str_empty_false s : s <> "" -> str_empty s = false.
Proof. destruct s; [intros H; contradiction H; reflexivity|reflexivity]. Qed.

Lemma alter_same {A} (f : A -> A) (i : nat) (l : list A) x :
  l !! i = Some x -> f x = x -> alter f i l = l.
Proof.
  intros H Hf. transitivity (alter (fun y => y) i l).
  - apply list_alter_ext; [|reflexivity]. intros y Hy. congruence.
  - apply list_alter_id. reflexivity.
Qed.

Lemma set_outbuf_same pl : set_outbuf (outbuf pl) pl = pl.
Proof. destruct pl. reflexivity. Qed.

Lemma same_but_outbuf_refl p w pl :
  playerlist w !! p = Some pl -> same_but_outbuf p (outbuf pl) w w.
Proof.
  intros H. unfold same_but_outbuf. repeat split.
  symmetry. apply (alter_same _ _ _ pl H), set_outbuf_same.
Qed.

Lemma to_int_fits z : INT_MIN <= z <= INT_MAX -> to_int z = z.
Proof.
  unfold to_int, INT_MIN, INT_MAX. intros H.
  rewrite Z.mod_small by lia. lia.
Qed.

(** The length asked of [write] when the size fits an [int]. *)
Lemma iLength_fits s :
  Z.of_nat (String.length s) <= INT_MAX ->
  Z.min (to_int (Z.of_nat (String.length s))) 512 = Z.min (Z.of_nat (String.length s)) 512.
Proof. intros H. rewrite to_int_fits; [reflexivity|]. unfold INT_MIN. lia. Qed.

(** The loop returns, whatever [write] answers; what is left pending is a
    suffix of what was pending and nothing else has changed.  When the size
    fits an [int], every length asked of [write] is between 1 and 512. *)
Lemma write_loop_spec p n : forall os k w pl,
  playerlist w !! p = Some pl ->
  exists attempts w' sent,
    write_loop n os k p w = (w', Done attempts) /\
    (Z.of_nat (String.length (outbuf pl)) <= INT_MAX ->
     Forall (fun len => 0 < len <= 512) attempts) /\
    outbuf pl = sent ++ outbuf (player_at w' p) /\
    same_but_outbuf p (outbuf (player_at w' p)) w w'.
Proof.
  induction n as [|n IH]; intros os k w pl H.
  { exists [], w, "". split; [reflexivity|]. split; [constructor|].
    rewrite (player_at_lookup _ _ _ H). split; [reflexivity|].
    apply same_but_outbuf_refl, H. }
  cbn [write_loop]. unfold bind at 1, get at 1. cbv beta iota.
  rewrite (player_at_lookup _ _ _ H).
  destruct (negb (sock pl =? NO_SOCKET) && negb (str_empty (outbuf pl))) eqn:Hgo.
  2:{ exists [], w, "". split; [reflexivity|]. split; [constructor|].
      rewrite (player_at_lookup _ _ _ H). split; [reflexivity|].
      apply same_but_outbuf_refl, H. }
  apply andb_true_iff in Hgo as [_ Hne]. apply negb_true_iff in Hne.
  pose proof (str_empty_length _ Hne) as Hpos.
  set (iLength := Z.min (to_int (Z.of_nat (String.length (outbuf pl)))) 512).
  assert (Hcap : Z.of_nat (String.length (outbuf pl)) <= INT_MAX -> 0 < iLength <= 512).
  { intros Hfit. unfold iLength. rewrite (iLength_fits _ Hfit). lia. }
  destruct (os k) as [nWrite errno].
  destruct (nWrite <? 0) eqn:Hneg.
  - destruct (negb (errno =? EWOULDBLOCK)); unfold when, bind, log, ret; cbv beta iota.
    + eexists _, _, "". split; [reflexivity|].
      split; [intros Hfit; repeat constructor; apply Hcap, Hfit|].
      rewrite (player_at_lookup _ p pl) by exact H. split; [reflexivity|].
      apply (same_but_outbuf_refl p w pl H).
    + eexists _, _, "". split; [reflexivity|].
      split; [intros Hfit; repeat constructor; apply Hcap, Hfit|].
      rewrite (player_at_lookup _ p pl) by exact H. split; [reflexivity|].
      apply (same_but_outbuf_refl p w pl H).
  - apply Z.ltb_ge in Hneg.
    unfold bind at 1. rewrite modify_run. cbv beta iota.
    set (out1 := str_drop (Z.to_nat nWrite) (outbuf pl)).
    set (w1 := update_at p (set_outbuf out1) w).
    assert (H1 : playerlist w1 !! p = Some (set_outbuf out1 pl)).
    { apply lookup_update_at_eq, H. }
    assert (Hw1 : same_but_outbuf p out1 w w1).
    { unfold same_but_outbuf, w1, update_at. simpl. repeat split. }
    destruct (nWrite <? iLength) eqn:Hshort.
    + exists [iLength], w1, (str_take (Z.to_nat nWrite) (outbuf pl)).
      split; [reflexivity|].
      split; [intros Hfit; repeat constructor; apply Hcap, Hfit|].
      rewrite (player_at_lookup _ _ _ H1). simpl.
      split; [symmetry; apply str_take_drop|exact Hw1].
    + apply Z.ltb_ge in Hshort.
      destruct (IH os (S k) w1 (set_outbuf out1 pl) H1) as (att & w' & sent & Hr & Hf & Hs & Hsame).
      exists (iLength :: att), w', (str_take (Z.to_nat nWrite) (outbuf pl) ++ sent).
      split; [unfold bind; rewrite Hr; reflexivity|].
      split.
      { intros Hfit. constructor; [apply Hcap, Hfit|]. apply Hf.
        simpl. unfold out1. rewrite length_str_drop. lia. }
      simpl in Hs. split.
      * rewrite string_app_assoc, <- Hs. symmetry. apply str_take_drop.
      * destruct Hsame as (Hp & Hrest). destruct Hw1 as (Hp1 & Hrest1).
        split.
        -- rewrite Hp. unfold w1, update_at. simpl. rewrite list_alter_alter_eq.
           apply list_alter_ext; [|reflexivity]. intros x _. reflexivity.
        -- unfold w1, update_at in Hrest. simpl in Hrest. exact Hrest.
Qed.

Lemma write_loop_S p n os k w :
  write_loop (S n) os k p w
  = let pl := player_at w p in
    if negb (sock pl =? NO_SOCKET) && negb (str_empty (outbuf pl)) then
      let iLength := Z.min (to_int (Z.of_nat (String.length (outbuf pl)))) 512 in
      if fst (os k) <? 0 then
        (if negb (snd (os k) =? EWOULDBLOCK)
         then set_console (console w ++ ["send to player"])%list w else w,
         Done [iLength])
      else
        let w1 := update_at p (set_outbuf (str_drop (Z.to_nat (fst (os k))) (outbuf pl))) w in
        if fst (os k) <? iLength then (w1, Done [iLength])
        else
          match write_loop n os (S k) p w1 with
          | (w2, Done t) => (w2, Done (iLength :: t))
          | (w2, Threw e) => (w2, Threw e)
          | (w2, Diverged) => (w2, Diverged)
          end
    else (w, Done []).
Proof.
  cbn [write_loop]. unfold bind, get. cbv beta iota zeta.
  destruct (negb _ && negb _); [|reflexivity].
  destruct (os k) as [nWrite errno]. cbn [fst snd].
  destruct (nWrite <? 0).
  - destruct (negb (errno =? EWOULDBLOCK)); reflexivity.
  - rewrite modify_run. cbv beta iota.
    destruct (nWrite <? _); reflexivity.
Qed.

Lemma write_loop_shift p n : forall os k w,
  write_loop n os (S k) p w = write_loop n (fun j => os (S j)) k p w.
Proof.
  induction n as [|n IH]; intros os k w; [reflexivity|].
  rewrite !write_loop_S. cbv zeta. rewrite IH. reflexivity.
Qed.

(** When the size fits an [int], more rounds than bytes pending are as good
    as any larger number of rounds. *)
Lemma write_loop_enough p n : forall m os k w,
  Z.of_nat (String.length (outbuf (player_at w p))) <= INT_MAX ->
  (String.length (outbuf (player_at w p)) < n)%nat ->
  (String.length (outbuf (player_at w p)) < m)%nat ->
  write_loop n os k p w = write_loop m os k p w.
Proof.
  induction n as [|n IH]; intros [|m] os k w Hfit Hn Hm; try lia.
  rewrite !write_loop_S. cbv zeta.
  destruct (negb (sock (player_at w p) =? NO_SOCKET)
            && negb (str_empty (outbuf (player_at w p)))) eqn:Hgo; [|reflexivity].
  apply andb_true_iff in Hgo as [Hs Hne]. apply negb_true_iff in Hne.
  pose proof (str_empty_length _ Hne) as Hpos.
  rewrite (iLength_fits _ Hfit).
  destruct (fst (os k) <? 0) eqn:Hneg; [reflexivity|]. apply Z.ltb_ge in Hneg.
  destruct (fst (os k) <? _) eqn:Hshort; [reflexivity|]. apply Z.ltb_ge in Hshort.
  rewrite (IH m); [reflexivity| | |].
  all: unfold player_at in *; unfold update_at; simpl;
    rewrite list_lookup_alter_eq;
    destruct (playerlist w !! p) as [pl|]; simpl in *; [|discriminate];
    rewrite length_str_drop; lia.
Qed.

Lemma ProcessWrite_run os p w pl :
  playerlist w !! p = Some pl ->
  ProcessWrite os p w = write_loop (S (String.length (outbuf pl))) os 0 p w.
Proof.
  intros H. unfold ProcessWrite, bind, get. rewrite (player_at_lookup _ _ _ H). reflexivity.
Qed.

Lemma ProcessWrite_dead os p w pl :
  playerlist w !! p = Some pl -> sock pl = NO_SOCKET -> ProcessWrite os p w = (w, Done []).
Proof.
  intros H Hs. rewrite (ProcessWrite_run _ _ _ _ H).
  rewrite write_loop_S. cbv zeta. rewrite (player_at_lookup _ _ _ H), Hs. reflexivity.
Qed.

(** The first length asked of [write], with a live socket and output
    pending, whatever the size. *)
Lemma ProcessWrite_refused os p w pl :
  playerlist w !! p = Some pl -> sock pl <> NO_SOCKET -> outbuf pl <> "" ->
  fst (os O) < 0 ->
  snd (ProcessWrite os p w)
  = Done [Z.min (to_int (Z.of_nat (String.length (outbuf pl)))) 512].
Proof.
  intros H Hs Hne Hneg. rewrite (ProcessWrite_run _ _ _ _ H), write_loop_S. cbv zeta.
  rewrite (player_at_lookup _ _ _ H).
  replace (sock pl =? NO_SOCKET) with false by (symmetry; apply Z.eqb_neq, Hs).
  rewrite (str_empty_false _ Hne). cbn [negb andb].
  replace (fst (os O) <? 0) with true by (symmetry; apply Z.ltb_lt, Hneg).
  reflexivity.
Qed.

(** A write pass on pending output whose size fits an [int] (less than 2^31
    bytes) asks [write] for at most 512 bytes at a time; with a dead socket
    or nothing pending it does nothing; a negative result stops the pass with
    the buffer as it is (and nothing logged for would-block); a short write
    removes what was written from the front and stops; a full write removes
    the chunk and the pass goes on with the rest.  What is left pending is
    always a suffix of what was pending. *)
Lemma write_pass (os : nat -> Z * Z) (p : nat) (w : World) (pl : tPlayer) :
  playerlist w !! p = Some pl ->
  Z.of_nat (String.length (outbuf pl)) <= INT_MAX ->
  let iLength := Z.min (Z.of_nat (String.length (outbuf pl))) 512 in
  let nWrite := fst (os O) in
  (exists attempts w' sent,
     ProcessWrite os p w = (w', Done attempts) /\
     Forall (fun len => 0 < len <= 512) attempts /\
     outbuf pl = sent ++ outbuf (player_at w' p) /\
     same_but_outbuf p (outbuf (player_at w' p)) w w')
  /\ (sock pl = NO_SOCKET \/ outbuf pl = "" -> ProcessWrite os p w = (w, Done []))
  /\ (sock pl <> NO_SOCKET -> outbuf pl <> "" ->
      (nWrite < 0 ->
         snd (ProcessWrite os p w) = Done [iLength] /\
         playerlist (fst (ProcessWrite os p w)) = playerlist w /\
         (snd (os O) = EWOULDBLOCK -> ProcessWrite os p w = (w, Done [iLength])))
      /\ (0 <= nWrite < iLength ->
         ProcessWrite os p w
         = (update_at p (set_outbuf (str_drop (Z.to_nat nWrite) (outbuf pl))) w,
            Done [iLength]))
      /\ (iLength <= nWrite ->
         ProcessWrite os p w
         = let w1 := update_at p (set_outbuf (str_drop (Z.to_nat nWrite) (outbuf pl))) w in
           let r := ProcessWrite (fun k => os (S k)) p w1 in
           (fst r, match snd r with
                   | Done attempts => Done (iLength :: attempts)
                   | Threw e => Threw e
                   | Diverged => Diverged
                   end))).
Proof.
  intros H Hfit iLength nWrite.
  split; [|split].
  - rewrite (ProcessWrite_run _ _ _ _ H).
    destruct (write_loop_spec p (S (String.length (outbuf pl))) os 0 w pl H)
      as (att & w' & sent & Hr & Hf & Hs & Hsame).
    exists att, w', sent. split; [exact Hr|]. split; [exact (Hf Hfit)|]. split; assumption.
  - intros Hstop. rewrite (ProcessWrite_run _ _ _ _ H), write_loop_S. cbv zeta.
    rewrite (player_at_lookup _ _ _ H).
    destruct Hstop as [-> | ->]; [reflexivity|].
    rewrite andb_false_r. reflexivity.
  - intros Hs Hne. rewrite (ProcessWrite_run _ _ _ _ H), write_loop_S. cbv zeta.
    rewrite (player_at_lookup _ _ _ H).
    replace (sock pl =? NO_SOCKET) with false by (symmetry; apply Z.eqb_neq, Hs).
    rewrite (str_empty_false _ Hne).
    cbn [negb andb]. cbv iota. rewrite (iLength_fits _ Hfit). fold iLength. fold nWrite.
    split; [|split].
    + intros Hneg. replace (nWrite <? 0) with true by (symmetry; apply Z.ltb_lt, Hneg).
      cbn [fst snd]. split; [reflexivity|]. split.
      * destruct (negb _); reflexivity.
      * intros ->. reflexivity.
    + intros [Hlo Hhi].
      replace (nWrite <? 0) with false by (symmetry; apply Z.ltb_ge, Hlo).
      replace (nWrite <? iLength) with true by (symmetry; apply Z.ltb_lt, Hhi).
      reflexivity.
    + intros Hfull.
      assert (Hpos : 0 < iLength).
      { pose proof (str_empty_length _ (str_empty_false _ Hne)). unfold iLength. lia. }
      replace (nWrite <? 0) with false by (symmetry; apply Z.ltb_ge; lia).
      replace (nWrite <? iLength) with false by (symmetry; apply Z.ltb_ge, Hfull).
      set (out1 := str_drop (Z.to_nat nWrite) (outbuf pl)).
      set (w1 := update_at p (set_outbuf out1) w).
      assert (H1 : playerlist w1 !! p = Some (set_outbuf out1 pl)).
      { apply lookup_update_at_eq, H. }
      assert (Hl1 : (String.length out1 < String.length (outbuf pl))%nat).
      { pose proof (str_empty_length _ (str_empty_false _ Hne)).
        unfold out1. rewrite length_str_drop. unfold iLength in *. lia. }
      rewrite (ProcessWrite_run _ _ _ _ H1). simpl outbuf.
      rewrite write_loop_shift.
      rewrite (write_loop_enough p _ (S (String.length out1))).
      2,3,4: rewrite (player_at_lookup _ _ _ H1); simpl; lia.
      destruct (write_loop (S (String.length out1)) (fun j => os (S j)) 0 p w1)
        as [w2 [a|e|]]; reflexivity.
Qed.

(** ** Reading from the socket *)

Lemma ProcessCommand_quit n p w :
  set_find "quit" (directionset w) = false ->
  ProcessCommand (S n) p (istringstream "quit") w
  = DoQuit (DoCommand n) p {| rest := ""; eofbit := true; failbit := true |} w.
Proof.
  intros HD. cbn [ProcessCommand].
  change (read_string "" (istringstream "quit"))
    with ("quit", {| rest := ""; eofbit := true; failbit := false |}).
  cbv beta iota. unfold bind, get_world. rewrite HD. reflexivity.
Qed.

Lemma ProcessCommand_quit_no_exit n p w pl r :
  set_find "quit" (directionset w) = true ->
  playerlist w !! p = Some pl ->
  roommap w !! room pl = Some r ->
  exit_find (exits r) "quit" = None ->
  ProcessCommand (S n) p (istringstream "quit") w = (w, Threw "You cannot go that way.").
Proof.
  intros HD Hp Hr Hx. cbn [ProcessCommand].
  change (read_string "" (istringstream "quit"))
    with ("quit", {| rest := ""; eofbit := true; failbit := false |}).
  cbv beta iota. unfold bind at 1, get_world at 1. cbv beta iota. rewrite HD.
  unfold DoDirection. unfold bind at 1, get at 1. cbv beta iota.
  rewrite (player_at_lookup _ _ _ Hp).
  unfold bind, FindRoom. rewrite Hr, Hx. reflexivity.
Qed.

Lemma log_run line w :
  log line w = (set_console (console w ++ [line])%list w, Done tt).
Proof. reflexivity. Qed.

Lemma DoQuit_playing dc p w pl :
  playerlist w !! p = Some pl ->
  connstate pl = ePlaying ->
  let bye := "Player " ++ playername pl ++ " has left the game." ++ nl in
  DoQuit dc p {| rest := ""; eofbit := true; failbit := true |} w
  = (update_at p ClosePlayer
       (fst (SendToAll bye (Some p) 0
          (set_console (console w ++ [bye])%list
             (put_at p ("See you next time!" ++ nl) w)))),
     Done tt).
Proof.
  intros H Hst bye. unfold DoQuit, NoMore.
  change (getline "" {| rest := ""; eofbit := true; failbit := true |})
    with ("", set_fail {| rest := ""; eofbit := true; failbit := true |}).
  cbv beta iota. unfold bind, ret, get. cbn [str_empty]. cbv beta iota.
  rewrite (player_at_lookup _ _ _ H), Hst.
  rewrite bool_decide_eq_true_2 by reflexivity. unfold when.
  rewrite send_run. cbv beta iota. rewrite log_run. cbv beta iota.
  reflexivity.
Qed.

Lemma ProcessRead_closing fuel p nRead errno buf w pl :
  playerlist w !! p = Some pl -> closing pl = true ->
  ProcessRead fuel p nRead errno buf w = (w, Done tt).
Proof.
  intros H Hc. unfold ProcessRead, bind, get. rewrite (player_at_lookup _ _ _ H), Hc.
  reflexivity.
Qed.

Lemma ProcessRead_error fuel p errno buf w pl :
  playerlist w !! p = Some pl -> closing pl = false ->
  ProcessRead fuel p (-1) errno buf w
  = (if errno =? EWOULDBLOCK then w
     else set_console (console w ++ ["read from player"])%list w, Done tt).
Proof.
  intros H Hc. unfold ProcessRead, bind, get. rewrite (player_at_lookup _ _ _ H), Hc.
  cbn [Z.eqb]. cbv iota. destruct (errno =? EWOULDBLOCK); reflexivity.
Qed.

Lemma ProcessRead_eof fuel p nRead errno buf w pl :
  playerlist w !! p = Some pl -> closing pl = false ->
  nRead <= 0 -> nRead <> -1 ->
  ProcessRead fuel p nRead errno buf w
  = ProcessPlayerInput fuel p "quit"
      (update_at p (set_sock NO_SOCKET)
         (set_console
            (console w ++ [("Connection " ++ string_of_Z (sock pl) ++ " closed")%string])%list w)).
Proof.
  intros H Hc H0 H1. unfold ProcessRead. unfold bind at 1, get at 1. cbv beta iota.
  rewrite (player_at_lookup _ _ _ H), Hc.
  replace (nRead =? -1) with false by (symmetry; apply Z.eqb_neq, H1).
  replace (nRead <=? 0) with true by (symmetry; apply Z.leb_le, H0).
  unfold bind. rewrite log_run. cbv beta iota. rewrite modify_run. reflexivity.
Qed.

(** C3 (amended).  For a session that is not closing: a read result of -1,
    would-block or any other error, changes nothing but the console (nothing
    at all for would-block); end of stream marks the socket dead and runs the
    line "quit" through the dispatch boundary.  For a playing session, when
    "quit" is not the name of a direction, this tells every other playing
    session once that the player left and marks the session closing, any
    later read handling does nothing, and destroying the session writes its
    record, unless its file cannot be written, which leaves the files as
    they are.  When "quit" is the name of a direction the line is a move:
    with no exit of that name the session is told so and stays open. *)
Theorem read_results (fuel p : nat) (nRead errno : Z) (buf : string)
    (w : World) (pl : tPlayer) :
  playerlist w !! p = Some pl ->
  closing pl = false ->
  let closed := update_at p (set_sock NO_SOCKET)
      (set_console
         (console w ++ [("Connection " ++ string_of_Z (sock pl) ++ " closed")%string])%list w) in
  let bye := "Player " ++ playername pl ++ " has left the game." ++ nl in
  (nRead = -1 ->
     snd (ProcessRead fuel p nRead errno buf w) = Done tt /\
     only_logs w (fst (ProcessRead fuel p nRead errno buf w)) /\
     (errno = EWOULDBLOCK -> ProcessRead fuel p nRead errno buf w = (w, Done tt)))
  /\ (nRead <= 0 -> nRead <> -1 ->
      ProcessRead fuel p nRead errno buf w = ProcessPlayerInput fuel p "quit" closed)
  /\ (nRead = 0 -> connstate pl = ePlaying ->
      set_find "quit" (directionset w) = false -> (0 < fuel)%nat ->
      exists w',
        ProcessRead fuel p nRead errno buf w = (w', Done tt) /\
        playerlist w' !! p
        = Some (put (prompt pl)
                  (ClosePlayer (put ("See you next time!" ++ nl) (set_sock NO_SOCKET pl)))) /\
        (forall q plq, q <> p -> playerlist w !! q = Some plq ->
           playerlist w' !! q = Some (if IsPlaying plq then put bye plq else plq)) /\
        (forall nRead' errno' buf',
           ProcessRead fuel p nRead' errno' buf' w' = (w', Done tt)) /\
        (forall os,
           snd (destroy os p w') = Done tt /\
           files (fst (destroy os p w'))
           = if bool_decide (player_path (playername pl) ∈ unwritable w) then files w
             else <[player_path (playername pl) := player_file pl]> (files w)))
  /\ (nRead = 0 -> connstate pl = ePlaying ->
      set_find "quit" (directionset w) = true -> (0 < fuel)%nat ->
      forall r, roommap w !! room pl = Some r -> exit_find (exits r) "quit" = None ->
      ProcessRead fuel p nRead errno buf w
      = (update_at p
           (fun x => set_outbuf (outbuf x ++ "You cannot go that way." ++ nl ++ prompt x) x)
           closed,
         Done tt)).
Proof.
  intros H Hc closed bye. split; [|split; [|split]].
  4:{ intros -> Hst HD Hf r Hr Hx. destruct fuel as [|n]; [lia|].
      rewrite (ProcessRead_eof _ _ _ _ _ _ pl H Hc) by lia. fold closed.
      assert (Hcl : playerlist closed !! p = Some (set_sock NO_SOCKET pl)).
      { unfold closed. apply lookup_update_at_eq. exact H. }
      rewrite ProcessPlayerInput_run. rewrite (player_at_lookup _ _ _ Hcl).
      change (connstate (set_sock NO_SOCKET pl)) with (connstate pl). rewrite Hst.
      unfold statemap.
      rewrite (ProcessCommand_quit_no_exit n p closed _ r HD Hcl Hr Hx). cbn [fst snd].
      f_equal. exact (put_at_prompt p ("You cannot go that way." ++ nl) closed). }
  - intros ->. rewrite (ProcessRead_error _ _ _ _ _ pl H Hc).
    split; [reflexivity|]. split.
    + destruct (errno =? EWOULDBLOCK); unfold only_logs; simpl; tauto.
    + intros ->. reflexivity.
  - intros H0 H1. apply (ProcessRead_eof _ _ _ _ _ _ pl H Hc H0 H1).
  - intros -> Hst HD Hf. destruct fuel as [|n]; [lia|].
    rewrite (ProcessRead_eof _ _ _ _ _ _ pl H Hc) by lia. fold closed.
    assert (Hcl : playerlist closed !! p = Some (set_sock NO_SOCKET pl)).
    { unfold closed. apply lookup_update_at_eq. exact H. }
    rewrite ProcessPlayerInput_run. rewrite (player_at_lookup _ _ _ Hcl).
    change (connstate (set_sock NO_SOCKET pl)) with (connstate pl). rewrite Hst.
    unfold statemap. rewrite ProcessCommand_quit by exact HD.
    rewrite (DoQuit_playing _ _ _ _ Hcl Hst). cbn [fst snd].
    change (playername (set_sock NO_SOCKET pl)) with (playername pl). fold bye.
    set (w3 := set_console _ (put_at p ("See you next time!" ++ nl) closed)).
    set (w4 := fst (SendToAll bye (Some p) 0 w3)).
    set (w5 := update_at p ClosePlayer w4).
    assert (H3 : playerlist w3 !! p = Some (put ("See you next time!" ++ nl) (set_sock NO_SOCKET pl))).
    { unfold w3. simpl. unfold put_at. simpl. rewrite list_lookup_alter_eq.
      change (alter (set_sock NO_SOCKET) p (playerlist w)) with (playerlist closed).
      rewrite Hcl. reflexivity. }
    assert (H4 : playerlist w4 !! p = Some (put ("See you next time!" ++ nl) (set_sock NO_SOCKET pl))).
    { unfold w4. rewrite SendToAll_lookup, H3. simpl. unfold sendToPlayer.
      rewrite (bool_decide_eq_true_2 (Some p = Some p)) by reflexivity.
      rewrite andb_false_r. reflexivity. }
    assert (H5 : playerlist w5 !! p
                 = Some (ClosePlayer (put ("See you next time!" ++ nl) (set_sock NO_SOCKET pl)))).
    { unfold w5. apply lookup_update_at_eq, H4. }
    rewrite (player_at_lookup _ _ _ H5).
    change (prompt (ClosePlayer _)) with (prompt pl).
    eexists. split; [reflexivity|].
    assert (H6 : playerlist (put_at p (prompt pl) w5) !! p
                 = Some (put (prompt pl)
                    (ClosePlayer (put ("See you next time!" ++ nl) (set_sock NO_SOCKET pl))))).
    { rewrite put_at_update. apply lookup_update_at_eq, H5. }
    split; [exact H6|]. split; [|split].
    + intros q plq Hq Hl. rewrite put_at_update.
      rewrite lookup_update_at_ne by congruence. unfold w5.
      rewrite lookup_update_at_ne by congruence. unfold w4.
      rewrite SendToAll_lookup. unfold w3. simpl. unfold put_at. simpl.
      rewrite !list_lookup_alter_ne by congruence. rewrite Hl. simpl.
      unfold sendToPlayer.
      rewrite (bool_decide_eq_false_2 (Some p = Some q)) by congruence.
      cbn [negb Z.eqb orb]. rewrite !andb_true_r. reflexivity.
    + intros nRead' errno' buf'.
      eapply ProcessRead_closing; [exact H6|reflexivity].
    + intros os.
      assert (Hd : destroy os p (put_at p (prompt pl) w5)
                   = Save (put (prompt pl)
                             (ClosePlayer (put ("See you next time!" ++ nl)
                                             (set_sock NO_SOCKET pl))))
                       (put_at p (prompt pl) w5)).
      { unfold destroy.
        unfold bind at 1. rewrite (ProcessWrite_dead os p _ _ H6) by reflexivity.
        cbv beta iota.
        unfold bind, get. rewrite (player_at_lookup _ _ _ H6).
        change (connstate (put _ _)) with (connstate pl). rewrite Hst.
        rewrite bool_decide_eq_true_2 by reflexivity. reflexivity. }
      rewrite Hd. unfold Save.
      change (playername (put _ _)) with (playername pl).
      change (unwritable (put_at p (prompt pl) w5)) with (unwritable w).
      destruct (bool_decide (player_path (playername pl) ∈ unwritable w));
        split; reflexivity.
Qed.

(** ** Flags: the claim *)

(** C7.  For every target session and flag that the arguments name:
    [setflag] on a flag the target has raises an error and changes nothing;
    [clearflag] on a flag the target lacks raises an error and changes
    nothing; and after a [setflag] that succeeded, [clearflag] with the same
    arguments succeeds and every session has the flag set it had before. *)
Theorem flag_commands (dc : tDoCommand) (p : nat) (sArgs : istream) (w : World) :
  (forall t f s2, flag_arguments p sArgs w = Some (t, f, s2) ->
     set_find f (flags (player_at w t)) = true ->
     exists e, DoSetFlag dc p sArgs w = (w, Threw e)
       /\ (HaveFlag (player_at w p) "can_setflag" = true ->
           NoMore p s2 w = (w, Done tt) -> e = "Flag already set."))
  /\ (forall t f s2, flag_arguments p sArgs w = Some (t, f, s2) ->
     set_find f (flags (player_at w t)) = false ->
     exists e, DoClearFlag dc p sArgs w = (w, Threw e)
       /\ (HaveFlag (player_at w p) "can_setflag" = true ->
           NoMore p s2 w = (w, Done tt) -> e = "Flag not set."))
  /\ (forall w1, DoSetFlag dc p sArgs w = (w1, Done tt) ->
     exists w2, DoClearFlag dc p sArgs w1 = (w2, Done tt)
       /\ forall q, flags (player_at w2 q) = flags (player_at w q)).
Proof.
  split; [|split].
  - intros t f s2 Ha Hf. eapply DoSetFlag_already_set; eassumption.
  - intros t f s2 Ha Hf. eapply DoClearFlag_not_set; eassumption.
  - intros w1 H. eapply setflag_then_clearflag; eassumption.
Qed.

Lemma flag_commands_witness :
  (exists e, DoSetFlag (DoCommand 1) 0 (istringstream "alice gagged") ex_two_players
             = (ex_two_players, Threw e) /\ e = "Flag already set.")
  /\ (exists e, DoClearFlag (DoCommand 1) 0 (istringstream "alice builder") ex_two_players
                = (ex_two_players, Threw e) /\ e = "Flag not set.")
  /\ (exists w2, DoClearFlag (DoCommand 1) 0 (istringstream "alice builder")
                   (fst (DoSetFlag (DoCommand 1) 0 (istringstream "alice builder")
                           ex_two_players))
                 = (w2, Done tt)
       /\ forall q, flags (player_at w2 q) = flags (player_at ex_two_players q)).
Proof.
  split; [|split].
  - destruct (flag_commands (DoCommand 1) 0 (istringstream "alice gagged") ex_two_players)
      as (H1 & _ & _).
    destruct (H1 1%nat "gagged" {| rest := ""; eofbit := true; failbit := false |})
      as (e & He & Hmsg); [vm_compute; reflexivity | vm_compute; reflexivity |].
    exists e. split; [exact He|]. apply Hmsg; vm_compute; reflexivity.
  - destruct (flag_commands (DoCommand 1) 0 (istringstream "alice builder") ex_two_players)
      as (_ & H2 & _).
    destruct (H2 1%nat "builder" {| rest := ""; eofbit := true; failbit := false |})
      as (e & He & Hmsg); [vm_compute; reflexivity | vm_compute; reflexivity |].
    exists e. split; [exact He|]. apply Hmsg; vm_compute; reflexivity.
  - destruct (flag_commands (DoCommand 1) 0 (istringstream "alice builder") ex_two_players)
      as (_ & _ & H3).
    apply H3. vm_compute. reflexivity.
Defined.

(** ** Witnesses and the claims the program does not meet *)

Lemma SendToAll_recipients_witness :
  let w' := fst (SendToAll "hi" (Some 0%nat) 1000 ex_two_players) in
  playerlist w' !! 1%nat
  = Some (put "hi" (ex_session 6 ePlaying "Alice" "pw" ["gagged"]))
  /\ playerlist w' !! 0%nat
     = Some (ex_session 5 ePlaying "Bob" "secret" ["can_setflag"])
  /\ playerlist (fst (SendToAll "hi" None 1001 ex_two_players)) !! 1%nat
     = Some (ex_session 6 ePlaying "Alice" "pw" ["gagged"]).
Proof.
  split; [|split].
  - destruct (SendToAll_recipients "hi" (Some 0%nat) 1000 ex_two_players)
      as (_ & _ & _ & H).
    destruct (H 1%nat (ex_session 6 ePlaying "Alice" "pw" ["gagged"]) eq_refl) as (H1 & _).
    exact H1.
  - destruct (SendToAll_recipients "hi" (Some 0%nat) 1000 ex_two_players)
      as (_ & _ & _ & H).
    destruct (H 0%nat (ex_session 5 ePlaying "Bob" "secret" ["can_setflag"]) eq_refl)
      as (_ & H2 & _).
    apply H2. reflexivity.
  - destruct (SendToAll_recipients "hi" None 1001 ex_two_players)
      as (_ & _ & _ & H).
    destruct (H 1%nat (ex_session 6 ePlaying "Alice" "pw" ["gagged"]) eq_refl)
      as (_ & _ & H3).
    apply H3; vm_compute; discriminate.
Defined.

(** C5, as the specification states it, fails on a session whose socket is
    gone: it is in the Playing state, not closing and not excluded, and the
    broadcast leaves it out. *)
Lemma half_open_session_is_skipped :
  exists pl, playerlist ex_half_open !! 0%nat = Some pl /\
    spec_recipient None 0 0 pl = true /\
    playerlist (fst (SendToAll "hi" None 0 ex_half_open)) !! 0%nat = Some pl /\
    playerlist (fst (SendToAll "hi" None 0 ex_half_open)) !! 0%nat <> Some (put "hi" pl).
Proof.
  eexists. split; [vm_compute; reflexivity|].
  split; [vm_compute; reflexivity|].
  split; [vm_compute; reflexivity|].
  vm_compute. intros H. discriminate H.
Qed.

Lemma movement_needs_an_exit_witness :
  ProcessCommand 2 0 (istringstream "s") ex_two_players
  = (ex_two_players, Threw "You cannot go that way.")
  /\ ProcessCommand 2 0 (istringstream "up") ex_two_players
     = (ex_two_players, Threw ("Room number " ++ string_of_Z 4242 ++ " does not exist.")).
Proof.
  split.
  - destruct (movement_needs_an_exit 1 0 (istringstream "s") ex_two_players) as (H & _).
    { vm_compute. reflexivity. }
    apply (H (mk_room ("The town square." ++ nl) [("n", 1001); ("up", 4242)]));
      vm_compute; reflexivity.
  - destruct (movement_needs_an_exit 1 0 (istringstream "up") ex_two_players) as (_ & H & _).
    { vm_compute. reflexivity. }
    apply (H (mk_room ("The town square." ++ nl) [("n", 1001); ("up", 4242)]) 4242);
      vm_compute; reflexivity.
Defined.






Lemma blocked_player_is_refused_witness :
  exists pl',
    ProcessPlayerInput 2 0 "secret" ex_blocked = (update_at 0 (fun _ => pl') ex_blocked, Done tt) /\
    closing pl' = true /\ connstate pl' <> ePlaying /\ badPasswordCount pl' = 1 /\
    outbuf pl' = "You are not permitted to connect." ++ nl ++ "Goodbye." ++ nl.
Proof.
  destruct (blocked_player_is_refused 2 0 "secret" ex_blocked
              (ex_session 5 eAwaitingPassword "Bob" "secret" ["blocked"]))
    as (pl' & H1 & H2 & H3 & H4 & H5 & H6); try (vm_compute; reflexivity).
  exists pl'. split; [exact H1|]. split; [exact H2|]. split; [exact H3|].
  split; [exact H4|]. rewrite H5, H6. reflexivity.
Defined.

Lemma write_pass_witness :
  ProcessWrite (fun _ => (25, 0)) 0 ex_pending
  = (update_at 0 (set_outbuf "567890123456789") ex_pending, Done [40])
  /\ ProcessWrite (fun _ => (-1, EWOULDBLOCK)) 0 ex_pending = (ex_pending, Done [40]).
Proof.
  split.
  - destruct (write_pass (fun _ => (25, 0)) 0 ex_pending
                (put "0123456789012345678901234567890123456789"
                   (ex_session 5 ePlaying "Bob" "secret" [])) eq_refl)
      as (_ & _ & H); [vm_compute; discriminate|].
    destruct H as (_ & H & _); [vm_compute; discriminate | vm_compute; discriminate |].
    apply H. vm_compute. split; [discriminate|reflexivity].
  - destruct (write_pass (fun _ => (-1, EWOULDBLOCK)) 0 ex_pending
                (put "0123456789012345678901234567890123456789"
                   (ex_session 5 ePlaying "Bob" "secret" [])) eq_refl)
      as (_ & _ & H); [vm_compute; discriminate|].
    destruct H as (H & _ & _); [vm_compute; discriminate | vm_compute; discriminate |].
    destruct H as (_ & _ & H); [vm_compute; reflexivity|].
    apply H. reflexivity.
Defined.

Lemma str_repeat_length c n : String.length (str_repeat c n) = n.
Proof. induction n as [|n IH]; [reflexivity|]. simpl. rewrite IH. reflexivity. Qed.

Lemma ProcessWrite_stalled os n :
  Z.of_nat n = 2147483648 -> fst (os O) < 0 ->
  snd (ProcessWrite os 0 (ex_stalled n)) = Done [INT_MIN].
Proof.
  intros Hn Hneg.
  rewrite (ProcessWrite_refused os 0 (ex_stalled n)
             (set_outbuf (str_repeat "x" n) (ex_session 5 ePlaying "Bob" "secret" []))
             eq_refl); [| | |exact Hneg].
  - cbn [outbuf set_outbuf]. rewrite str_repeat_length, Hn. reflexivity.
  - discriminate.
  - cbn [outbuf set_outbuf]. destruct n; [discriminate Hn|discriminate].
Qed.

(** C9.  The length of a write is [min<int> (outbuf.size (), 512)], under
    the comment "send a maximum of 512 at a time".  With 2000 bytes pending
    the pass asks [write] for 512 bytes.  With 2^31 bytes pending, the size
    converted to [int] is [INT_MIN], the smaller of that and 512 is
    [INT_MIN], and that is the length the pass hands to [write] (which takes
    it as a size of 2^64 - 2^31 bytes): not 512 bytes at most. *)
Theorem two_gigabytes_pending :
  String.length (outbuf (player_at (ex_stalled (Z.to_nat 2147483648)) 0))
  = Z.to_nat 2147483648
  /\ snd (ProcessWrite (fun _ => (-1, EWOULDBLOCK)) 0 (ex_stalled (Z.to_nat 2147483648)))
     = Done [-2147483648]
  /\ snd (ProcessWrite (fun _ => (-1, EWOULDBLOCK)) 0 (ex_stalled 2000)) = Done [512].
Proof.
  split; [exact (str_repeat_length "x" (Z.to_nat 2147483648))|]. split.
  - apply (ProcessWrite_stalled (fun _ => (-1, EWOULDBLOCK)) (Z.to_nat 2147483648)).
    + apply Z2Nat.id. discriminate.
    + reflexivity.
  - vm_compute. reflexivity.
Qed.

(** C3, as the specification states it, fails on a read error: the result
    -1 with an [errno] other than [EWOULDBLOCK] (here 104, connection reset)
    is only logged; the socket stays, no "quit" is run. *)
Lemma read_error_keeps_socket :
  let w' := fst (ProcessRead 2 0 (-1) 104 "" ex_two_players) in
  playerlist w' = playerlist ex_two_players /\
  sock (player_at w' 0) = 5 /\ closing (player_at w' 0) = false /\
  console w' = ["read from player"].
Proof. vm_compute. repeat split. Qed.

Lemma read_results_witness :
  (exists w',
     ProcessRead 2 0 0 0 "" ex_two_players = (w', Done tt) /\
     playerlist w' !! 1%nat
     = Some (put ("Player Bob has left the game." ++ nl)
               (ex_session 6 ePlaying "Alice" "pw" ["gagged"])) /\
     ProcessRead 2 0 0 0 "" w' = (w', Done tt) /\
     files (fst (destroy (fun _ => (0, 0)) 0 w')) !! player_path "Bob"
     = Some ("secret" ++ nl ++ "1000" ++ nl ++ "can_setflag " ++ nl))
  /\ (let pk := player_at (fst (ProcessRead 2 0 0 0 "" ex_quit_is_a_way)) 0 in
      outbuf pk = "You cannot go that way." ++ nl ++ "> " /\
      closing pk = false /\ sock pk = NO_SOCKET).
Proof.
  split.
  - destruct (read_results 2 0 0 0 "" ex_two_players
                (ex_session 5 ePlaying "Bob" "secret" ["can_setflag"]) eq_refl eq_refl)
      as (_ & _ & H & _).
    destruct H as (w' & H1 & H2 & H3 & H4 & H5);
      [reflexivity | reflexivity | vm_compute; reflexivity | lia |].
    exists w'. split; [exact H1|]. split.
    + apply (H3 1%nat (ex_session 6 ePlaying "Alice" "pw" ["gagged"])); [lia|reflexivity].
    + split; [apply H4|].
      destruct (H5 (fun _ => (0, 0))) as (_ & Hf).
      rewrite Hf. vm_compute. reflexivity.
  - destruct (read_results 2 0 0 0 "" ex_quit_is_a_way
                (ex_session 5 ePlaying "Bob" "secret" []) eq_refl eq_refl)
      as (_ & _ & _ & H).
    rewrite (H eq_refl eq_refl eq_refl ltac:(lia)
               (mk_room ("The town square." ++ nl) [("n", 1001); ("up", 4242)])
               eq_refl eq_refl).
    cbv zeta. repeat split.
Defined.

(** ** Two places where the program misses what it sets out to do *)

(** C1.  [ProcessConfirmPassword] repeats the uniqueness test of
    [ProcessNewPlayerName] on the password just typed instead of the chosen
    name.  With a record for "Bob" on disk, "Bob" still enters the game;
    and "Bob", a name nobody has, is sent back to choose another name
    because the password typed is the name of the recorded "Alice". *)
Theorem confirm_password_tests_the_typed_text :
  (player_file_exists ex_confirm_taken_name "Bob" = true /\
   connstate (player_at (fst (ProcessPlayerInput 2 0 "secret" ex_confirm_taken_name)) 0)
   = ePlaying)
  /\ (player_file_exists ex_confirm_password_is_a_name "Bob" = false /\
      FindPlayer ex_confirm_password_is_a_name "Bob" = None /\
      connstate (player_at (fst (ProcessPlayerInput 2 0 "alice"
                                   ex_confirm_password_is_a_name)) 0)
      = eAwaitingNewName).
Proof. vm_compute. repeat split. Qed.

(** C6.  [Save] writes an empty third line for an empty flag set; the loop
    of [LoadSet] runs once on it and inserts the empty string, so [Load]
    after [Save] gives the password and the room back but not the flag set. *)
Theorem empty_flag_set_round_trip :
  let w := ex_world [ex_newcomer] ∅ in
  let saved := fst (Save ex_newcomer w) in
  let loaded := player_at (fst (Load 0 saved)) 0 in
  files saved !! player_path "Bob" = Some ("secret" ++ nl ++ "1000" ++ nl ++ nl) /\
  snd (Load 0 saved) = Done tt /\
  password loaded = password ex_newcomer /\ room loaded = room ex_newcomer /\
  flags ex_newcomer = [] /\ flags loaded = [""].
Proof. vm_compute. repeat split. Qed.

(** ** Comparing names *)

Lemma tolower_char_idem c : tolower_char (tolower_char c) = tolower_char c.
Proof. destruct c as [[] [] [] [] [] [] [] []]; reflexivity. Qed.

Lemma tolower_toupper_char c : tolower_char (toupper_char c) = tolower_char c.
Proof. destruct c as [[] [] [] [] [] [] [] []]; reflexivity. Qed.

Lemma isalnum_toupper_char c : isalnum (toupper_char c) = isalnum c.
Proof. destruct c as [[] [] [] [] [] [] [] []]; reflexivity. Qed.

Lemma isalnum_tolower_char c : isalnum (tolower_char c) = isalnum c.
Proof. destruct c as [[] [] [] [] [] [] [] []]; reflexivity. Qed.

Lemma toupper_char_idem c : toupper_char (toupper_char c) = toupper_char c.
Proof. destruct c as [[] [] [] [] [] [] [] []]; reflexivity. Qed.

Lemma toupper_tolower_char c : toupper_char (tolower_char c) = toupper_char c.
Proof. destruct c as [[] [] [] [] [] [] [] []]; reflexivity. Qed.

Lemma ciStringEqual_iff s t : ciStringEqual s t = true <-> tolower s = tolower t.
Proof.
  unfold tolower in *.
  revert t. induction s as [|c s IH]; intros [|d t]; simpl;
    try (split; [discriminate|discriminate]); [split; reflexivity|].
  rewrite andb_true_iff, IH. split.
  - intros [Hc Ht]. apply Ascii.eqb_eq in Hc. congruence.
  - intros [= Hc Ht]. split; [apply Ascii.eqb_eq, Hc|exact Ht].
Qed.

Lemma ciStringEqual_refl s : ciStringEqual s s = true.
Proof. apply ciStringEqual_iff. reflexivity. Qed.

Lemma ciStringEqual_sym s t : ciStringEqual s t = ciStringEqual t s.
Proof.
  destruct (ciStringEqual s t) eqn:H1, (ciStringEqual t s) eqn:H2; try reflexivity.
  - apply ciStringEqual_iff in H1. symmetry in H1. apply ciStringEqual_iff in H1. congruence.
  - apply ciStringEqual_iff in H2. symmetry in H2. apply ciStringEqual_iff in H2. congruence.
Qed.

Lemma ciStringEqual_trans s t u :
  ciStringEqual s t = true -> ciStringEqual t u = true -> ciStringEqual s u = true.
Proof. intros H1 H2. apply ciStringEqual_iff in H1, H2. apply ciStringEqual_iff. congruence. Qed.

(** X1.  [ciStringEqual] holds exactly when the lower-case forms are the same
    string; it is reflexive, symmetric and transitive. *)
Theorem ciStringEqual_equivalence :
  (forall s t, ciStringEqual s t = true <-> tolower s = tolower t)
  /\ (forall s, ciStringEqual s s = true)
  /\ (forall s t, ciStringEqual s t = ciStringEqual t s)
  /\ (forall s t u, ciStringEqual s t = true -> ciStringEqual t u = true ->
        ciStringEqual s u = true).
Proof.
  split; [exact ciStringEqual_iff|]. split; [exact ciStringEqual_refl|].
  split; [exact ciStringEqual_sym|exact ciStringEqual_trans].
Qed.

Lemma N_of_ascii_inj a b : N_of_ascii a = N_of_ascii b -> a = b.
Proof. intros H. rewrite <- (ascii_N_embedding a), <- (ascii_N_embedding b), H. reflexivity. Qed.

Lemma ci_equiv_ciStringEqual a b : ci_equiv a b = ciStringEqual a b.
Proof.
  unfold ci_equiv. revert b. induction a as [|c a IH]; intros [|d b]; try reflexivity.
  simpl. destruct (N.ltb_spec (N_of_ascii (tolower_char c)) (N_of_ascii (tolower_char d))) as [H1|H1].
  - simpl. symmetry. apply andb_false_iff. left. apply Ascii.eqb_neq. intros E.
    rewrite E in H1. lia.
  - destruct (N.ltb_spec (N_of_ascii (tolower_char d)) (N_of_ascii (tolower_char c))) as [H2|H2].
    + simpl. destruct (ciLess a b); simpl; symmetry; apply andb_false_iff; left;
        apply Ascii.eqb_neq; intros E; rewrite E in H2; lia.
    + assert (E : tolower_char c = tolower_char d) by (apply N_of_ascii_inj; lia).
      rewrite E, Ascii.eqb_refl. simpl. apply IH.
Qed.

Lemma ciLess_trans a b c : ciLess a b = true -> ciLess b c = true -> ciLess a c = true.
Proof.
  revert b c. induction a as [|x a IH]; intros [|y b] [|z c]; simpl; try congruence.
  destruct (N.ltb_spec (N_of_ascii (tolower_char x)) (N_of_ascii (tolower_char y))) as [H1|H1];
  destruct (N.ltb_spec (N_of_ascii (tolower_char y)) (N_of_ascii (tolower_char z))) as [H2|H2];
  destruct (N.ltb_spec (N_of_ascii (tolower_char x)) (N_of_ascii (tolower_char z))) as [H3|H3];
    try reflexivity; try lia; intros Hab Hbc.
  - destruct (N.ltb_spec (N_of_ascii (tolower_char z)) (N_of_ascii (tolower_char y))); [discriminate|lia].
  - destruct (N.ltb_spec (N_of_ascii (tolower_char y)) (N_of_ascii (tolower_char x))); [discriminate|lia].
  - destruct (N.ltb_spec (N_of_ascii (tolower_char y)) (N_of_ascii (tolower_char x))); [discriminate|].
    destruct (N.ltb_spec (N_of_ascii (tolower_char z)) (N_of_ascii (tolower_char y))); [discriminate|].
    destruct (N.ltb_spec (N_of_ascii (tolower_char z)) (N_of_ascii (tolower_char x))); [lia|].
    eapply IH; eassumption.
Qed.

Lemma ciLess_asym a b : ciLess a b = true -> ciLess b a = false.
Proof.
  intros H. destruct (ciLess b a) eqn:H'; [|reflexivity].
  pose proof (ciLess_trans _ _ _ H H') as X. rewrite ciLess_irrefl in X. discriminate.
Qed.

(** X2.  [ciLess] is a strict order (irreflexive, transitive), and two strings
    that it does not order are exactly those [ciStringEqual] calls equal: a
    lookup in a [set<string, ciLess>] finds a name whatever its case. *)
Theorem ciLess_strict_weak_order :
  (forall s, ciLess s s = false)
  /\ (forall a b c, ciLess a b = true -> ciLess b c = true -> ciLess a c = true)
  /\ (forall a b, (negb (ciLess a b) && negb (ciLess b a)) = ciStringEqual a b).
Proof.
  split; [exact ciLess_irrefl|]. split; [exact ciLess_trans|]. exact ci_equiv_ciStringEqual.
Qed.

Lemma ciStringEqual_fCapitals b s : ciStringEqual (fCapitals b s) s = true.
Proof.
  revert b. induction s as [|c s IH]; intros b; [reflexivity|]. simpl.
  rewrite IH, andb_true_r. apply Ascii.eqb_eq.
  destruct b; [apply tolower_toupper_char|apply tolower_char_idem].
Qed.

Lemma fCapitals_idem b s : fCapitals b (fCapitals b s) = fCapitals b s.
Proof.
  revert b. induction s as [|c s IH]; intros b; [reflexivity|]. simpl. f_equal.
  - destruct b; [apply toupper_char_idem|apply tolower_char_idem].
  - replace (isalnum (if b then toupper_char c else tolower_char c)) with (isalnum c).
    + apply IH.
    + destruct b; [symmetry; apply isalnum_toupper_char|symmetry; apply isalnum_tolower_char].
Qed.

Lemma ciStringEqual_tolower s : ciStringEqual (tolower s) s = true.
Proof.
  unfold tolower. induction s as [|c s IH]; [reflexivity|]. simpl.
  rewrite IH, andb_true_r. apply Ascii.eqb_eq, tolower_char_idem.
Qed.

Lemma ciStringEqual_congr_r s t u :
  ciStringEqual t u = true -> ciStringEqual s t = ciStringEqual s u.
Proof.
  intros H. destruct (ciStringEqual s t) eqn:H1, (ciStringEqual s u) eqn:H2; try reflexivity.
  - rewrite (ciStringEqual_trans s t u H1 H) in H2. discriminate.
  - rewrite ciStringEqual_sym in H.
    rewrite (ciStringEqual_trans s u t H2 H) in H1. discriminate.
Qed.

(** X3.  The capitalised form of a name, which the program stores and uses for
    the player file, is the same name to every case-independent lookup, and
    capitalising is idempotent; [FindPlayer] gives the same answer for a name
    typed in any case. *)
Theorem capitalised_names (s : string) :
  ciStringEqual (tocapitals s) s = true
  /\ ciStringEqual (tolower s) s = true
  /\ tocapitals (tocapitals s) = tocapitals s
  /\ (forall w, FindPlayer w (tocapitals s) = FindPlayer w s)
  /\ (forall l, set_find (tocapitals s) l = set_find s l).
Proof.
  split; [apply ciStringEqual_fCapitals|]. split; [apply ciStringEqual_tolower|].
  split; [apply fCapitals_idem|]. split.
  - intros w. unfold FindPlayer. induction (playerlist w) as [|x l IH]; [reflexivity|].
    simpl. rewrite IH. unfold findPlayerName.
    rewrite (ciStringEqual_congr_r (playername x) (tocapitals s) s)
      by apply ciStringEqual_fCapitals.
    reflexivity.
  - intros l. unfold set_find. induction l as [|x l IH]; [reflexivity|]. simpl.
    rewrite IH. f_equal. rewrite !ci_equiv_ciStringEqual.
    rewrite (ciStringEqual_sym (tocapitals s) x), (ciStringEqual_sym s x).
    apply ciStringEqual_congr_r, ciStringEqual_fCapitals.
Qed.

(** ** Trimming *)

Lemma find_last_rtrim t s :
  match find_last_not_of t s with
  | None => rtrim t s = ""
  | Some i => str_take (S i) s = rtrim t s /\ rtrim t s <> ""
  end.
Proof.
  induction s as [|c s IH]; [reflexivity|]. cbn [find_last_not_of rtrim].
  destruct (find_last_not_of t s) as [i|].
  - destruct IH as [IH Hne].
    destruct (rtrim t s) eqn:E; [contradiction|].
    cbn [str_empty andb]. cbv zeta.
    change (str_take (S (S i)) (String c s)) with (String c (str_take (S i) s)).
    rewrite IH. split; [reflexivity|discriminate].
  - rewrite IH. cbn [str_empty andb]. cbv zeta.
    destruct (str_mem c t); [reflexivity|]. split; [reflexivity|discriminate].
Qed.

Lemma find_first_ltrim t s :
  match find_first_not_of t s with
  | None => ltrim t s = ""
  | Some k => str_drop k s = ltrim t s /\ ltrim t s <> ""
  end.
Proof.
  induction s as [|c s IH]; [reflexivity|]. cbn [find_first_not_of ltrim].
  destruct (str_mem c t).
  - destruct (find_first_not_of t s) as [k|]; simpl; exact IH.
  - split; [reflexivity|discriminate].
Qed.

Lemma find_first_rtrim t s :
  rtrim t s <> "" -> find_first_not_of t (rtrim t s) = find_first_not_of t s.
Proof.
  induction s as [|c s IH]; [reflexivity|]. cbn [rtrim]. cbv zeta.
  destruct (rtrim t s) eqn:E.
  - cbn [str_empty andb]. destruct (str_mem c t) eqn:Hc; [contradiction|].
    intros _. cbn [find_first_not_of]. rewrite Hc. reflexivity.
  - cbn [str_empty andb]. intros _. cbn [find_first_not_of].
    rewrite <- IH by discriminate. reflexivity.
Qed.

Lemma Trim_ltrim_rtrim s t : Trim s t = ltrim t (rtrim t s).
Proof.
  unfold Trim. pose proof (find_last_rtrim t s) as HL.
  destruct (find_last_not_of t s) as [i|].
  - destruct HL as [HL Hne]. rewrite HL.
    rewrite <- (find_first_rtrim t s Hne).
    pose proof (find_first_ltrim t (rtrim t s)) as HF.
    destruct (find_first_not_of t (rtrim t s)) as [k|].
    + apply HF.
    + symmetry. exact HF.
  - rewrite HL. reflexivity.
Qed.

Lemma rtrim_split t s :
  exists b, s = rtrim t s ++ b /\ str_all (fun c => str_mem c t) b = true.
Proof.
  induction s as [|c s (b & Hs & Hb)]; [exists ""; split; reflexivity|].
  cbn [rtrim]. cbv zeta. destruct (rtrim t s) eqn:E.
  - cbn [str_empty andb]. destruct (str_mem c t) eqn:Hc.
    + exists (String c s). split; [reflexivity|]. simpl. rewrite Hc.
      rewrite Hs. exact Hb.
    + exists b. split; [|exact Hb]. rewrite string_app_cons. congruence.
  - cbn [str_empty andb]. exists b. split; [|exact Hb].
    rewrite string_app_cons. congruence.
Qed.

Lemma ltrim_split t s :
  exists a, s = a ++ ltrim t s /\ str_all (fun c => str_mem c t) a = true.
Proof.
  induction s as [|c s (a & Hs & Ha)]; [exists ""; split; reflexivity|].
  cbn [ltrim]. destruct (str_mem c t) eqn:Hc.
  - exists (String c a). split; [rewrite string_app_cons; congruence|].
    simpl. rewrite Hc. exact Ha.
  - exists "". split; reflexivity.
Qed.

Lemma ltrim_head t s c r : ltrim t s = String c r -> str_mem c t = false.
Proof.
  induction s as [|d s IH]; [discriminate|]. cbn [ltrim].
  destruct (str_mem d t) eqn:Hd; [exact IH|]. intros [= -> _]. exact Hd.
Qed.

Lemma rtrim_last t s r c : rtrim t s = r ++ String c "" -> str_mem c t = false.
Proof.
  revert r. induction s as [|d s IH]; intros r.
  - destruct r; discriminate.
  - cbn [rtrim]. cbv zeta. destruct (rtrim t s) eqn:E.
    + cbn [str_empty andb]. destruct (str_mem d t) eqn:Hd.
      * destruct r; discriminate.
      * destruct r as [|x [|y r]]; try discriminate. intros [= ->]. exact Hd.
    + cbn [str_empty andb]. destruct r as [|x r].
      * discriminate.
      * rewrite string_app_cons. intros [= _ H]. apply (IH r). exact H.
Qed.

Lemma ltrim_suffix_last t s r c :
  ltrim t s = r ++ String c "" -> exists r', s = r' ++ String c "".
Proof.
  destruct (ltrim_split t s) as (a & Hs & _). intros H. rewrite H in Hs.
  exists (a ++ r). rewrite string_app_assoc. exact Hs.
Qed.

Lemma rtrim_fixed t s :
  (forall r c, s = r ++ String c "" -> str_mem c t = false) -> rtrim t s = s.
Proof.
  induction s as [|d s IH]; [reflexivity|]. intros H. cbn [rtrim]. cbv zeta.
  destruct s as [|e s].
  - cbn [rtrim str_empty andb]. rewrite (H "" d eq_refl). reflexivity.
  - rewrite IH.
    + reflexivity.
    + intros r c Hr. apply (H (String d r) c). rewrite string_app_cons. congruence.
Qed.

Lemma ltrim_fixed t s :
  (forall c r, s = String c r -> str_mem c t = false) -> ltrim t s = s.
Proof.
  destruct s as [|c s]; [reflexivity|]. intros H. cbn [ltrim].
  rewrite (H c s eq_refl). reflexivity.
Qed.

Lemma rtrim_all t s : str_all (fun c => str_mem c t) s = true -> rtrim t s = "".
Proof.
  induction s as [|c s IH]; [reflexivity|]. simpl. intros H.
  apply andb_true_iff in H as [Hc Hs]. rewrite (IH Hs), Hc. reflexivity.
Qed.

Lemma str_all_app f a b : str_all f (a ++ b) = str_all f a && str_all f b.
Proof.
  induction a as [|c a IH]; [reflexivity|]. rewrite string_app_cons. simpl.
  rewrite IH, andb_assoc. reflexivity.
Qed.

(** X4.  [Trim] cuts a string down to what lies between its first and its last
    character outside [t]: what is cut off at both ends consists of
    characters of [t], the result neither starts nor ends with one, it is
    empty exactly when the whole string consists of characters of [t], and
    trimming again changes nothing. *)
Theorem Trim_spec (s t : string) :
  (exists a b, s = a ++ Trim s t ++ b
     /\ str_all (fun c => str_mem c t) a = true
     /\ str_all (fun c => str_mem c t) b = true)
  /\ (forall c r, Trim s t = String c r -> str_mem c t = false)
  /\ (forall r c, Trim s t = r ++ String c "" -> str_mem c t = false)
  /\ (Trim s t = "" <-> str_all (fun c => str_mem c t) s = true)
  /\ Trim (Trim s t) t = Trim s t.
Proof.
  rewrite !Trim_ltrim_rtrim.
  assert (Hhead : forall c r, ltrim t (rtrim t s) = String c r -> str_mem c t = false).
  { intros c r. apply ltrim_head. }
  assert (Hlast : forall r c, ltrim t (rtrim t s) = r ++ String c "" -> str_mem c t = false).
  { intros r c H. apply ltrim_suffix_last in H as [r' H]. eapply rtrim_last, H. }
  split; [|split; [exact Hhead|split; [exact Hlast|split]]].
  - destruct (rtrim_split t s) as (b & Hs & Hb).
    destruct (ltrim_split t (rtrim t s)) as (a & Hr & Ha).
    exists a, b. split; [|split; assumption].
    rewrite <- string_app_assoc, <- Hr. exact Hs.
  - split.
    + intros H. destruct (rtrim_split t s) as (b & Hs & Hb).
      destruct (ltrim_split t (rtrim t s)) as (a & Hr & Ha).
      rewrite H, string_app_nil_r in Hr. rewrite Hs, Hr, str_all_app, Ha, Hb. reflexivity.
    + intros H. rewrite (rtrim_all t s H). reflexivity.
  - rewrite (rtrim_fixed t (ltrim t (rtrim t s)) Hlast).
    apply ltrim_fixed. exact Hhead.
Qed.

(** ** Reading tokens and numbers *)

Lemma skip_spaces_app sp x :
  str_all isspace sp = true -> skip_spaces (sp ++ x) = skip_spaces x.
Proof.
  induction sp as [|c sp IH]; [reflexivity|]. simpl. intros H.
  apply andb_true_iff in H as [Hc Hs]. rewrite ?string_app_cons. simpl.
  rewrite Hc. apply IH, Hs.
Qed.

Lemma skip_spaces_token tok r : is_token tok = true -> skip_spaces (tok ++ r) = tok ++ r.
Proof.
  unfold is_token. destruct tok as [|c tok]; [discriminate|]. simpl.
  intros H. apply andb_true_iff in H as [Hc _]. apply negb_true_iff in Hc.
  rewrite ?string_app_cons. simpl. rewrite Hc. reflexivity.
Qed.

Lemma span_token_app tok c r :
  str_all (fun c => negb (isspace c)) tok = true -> isspace c = true ->
  span_token (tok ++ String c r) = (tok, String c r).
Proof.
  intros Ht Hc. induction tok as [|d tok IH].
  - simpl. change ("" ++ String c r) with (String c r). simpl. rewrite Hc. reflexivity.
  - simpl in Ht. apply andb_true_iff in Ht as [Hd Ht]. apply negb_true_iff in Hd.
    rewrite ?string_app_cons. simpl. rewrite Hd, (IH Ht). reflexivity.
Qed.

Lemma is_token_nonempty tok r : is_token tok = true -> str_empty (tok ++ r) = false.
Proof. destruct tok; [discriminate|reflexivity]. Qed.

Lemma read_string_token cur sp tok c r :
  str_all isspace sp = true -> is_token tok = true -> isspace c = true ->
  read_string cur {| rest := sp ++ tok ++ String c r; eofbit := false; failbit := false |}
  = (tok, {| rest := String c r; eofbit := false; failbit := false |}).
Proof.
  intros Hsp Htok Hc. unfold read_string, sentry, good. cbn [eofbit failbit rest negb andb].
  rewrite (skip_spaces_app _ _ Hsp), (skip_spaces_token _ _ Htok).
  rewrite (is_token_nonempty _ _ Htok). cbn [rest].
  unfold is_token in Htok. apply andb_true_iff in Htok as [_ Htok].
  rewrite (span_token_app _ _ _ Htok Hc). reflexivity.
Qed.

Lemma isspace_nl : isspace (ascii_of_nat 10) = true.
Proof. reflexivity. Qed.

Lemma span_digits_uint u r :
  (forall c r', r = String c r' -> isdigit c = false) ->
  span_digits (NilEmpty.string_of_uint u ++ r) = (u, r).
Proof.
  intros Hr. induction u as [|u IH|u IH|u IH|u IH|u IH|u IH|u IH|u IH|u IH|u IH];
    cbn [NilEmpty.string_of_uint].
  - change ("" ++ r) with r. destruct r as [|c r']; [reflexivity|].
    simpl. rewrite (Hr c r' eq_refl). reflexivity.
  - rewrite string_app_cons. cbn [span_digits]. rewrite IH. reflexivity.
  - rewrite string_app_cons. cbn [span_digits]. rewrite IH. reflexivity.
  - rewrite string_app_cons. cbn [span_digits]. rewrite IH. reflexivity.
  - rewrite string_app_cons. cbn [span_digits]. rewrite IH. reflexivity.
  - rewrite string_app_cons. cbn [span_digits]. rewrite IH. reflexivity.
  - rewrite string_app_cons. cbn [span_digits]. rewrite IH. reflexivity.
  - rewrite string_app_cons. cbn [span_digits]. rewrite IH. reflexivity.
  - rewrite string_app_cons. cbn [span_digits]. rewrite IH. reflexivity.
  - rewrite string_app_cons. cbn [span_digits]. rewrite IH. reflexivity.
  - rewrite string_app_cons. cbn [span_digits]. rewrite IH. reflexivity.
Qed.

Lemma string_of_uint_nonnil u :
  u <> Nil -> NilZero.string_of_uint u = NilEmpty.string_of_uint u.
Proof. destruct u; [contradiction|..]; reflexivity. Qed.

Lemma string_of_uint_head u :
  u <> Nil ->
  exists c s, NilEmpty.string_of_uint u = String c s /\ isdigit c = true.
Proof.
  destruct u; [contradiction|..]; intros _; cbn [NilEmpty.string_of_uint];
    eexists _, _; (split; [reflexivity|reflexivity]).
Qed.

Lemma isdigit_not_space d : isdigit d = true -> isspace d = false.
Proof. destruct d as [[] [] [] [] [] [] [] []]; try discriminate; reflexivity. Qed.

Lemma isdigit_no_sign d s : isdigit d = true -> span_sign (String d s) = (false, String d s).
Proof. destruct d as [[] [] [] [] [] [] [] []]; try discriminate; reflexivity. Qed.

Lemma read_int_uint cur sp (neg : bool) u c r :
  str_all isspace sp = true ->
  u <> Nil ->
  INT_MIN <= (if neg then - Z.of_uint u else Z.of_uint u) <= INT_MAX ->
  isdigit c = false ->
  read_int cur {| rest := sp ++ (if neg then "-" else "")
                          ++ NilEmpty.string_of_uint u ++ String c r;
                  eofbit := false; failbit := false |}
  = (if neg then - Z.of_uint u else Z.of_uint u,
     {| rest := String c r; eofbit := false; failbit := false |}).
Proof.
  intros Hsp Hnn Hz Hc. unfold read_int, sentry, good. cbn [eofbit failbit rest negb andb].
  rewrite (skip_spaces_app _ _ Hsp).
  assert (Hnd : forall c0 r', String c r = String c0 r' -> isdigit c0 = false).
  { intros c0 r' [= <- _]. exact Hc. }
  destruct (string_of_uint_head _ Hnn) as (d & s & Hs & Hd).
  assert (Hbody : forall x,
    x = NilEmpty.string_of_uint u ++ String c r ->
    (let '(u0, r0) := span_digits x in
     match u0 with
     | Nil => (0, {| rest := r0; eofbit := str_empty r0; failbit := true |})
     | _ =>
         let v := if neg then - Z.of_uint u0 else Z.of_uint u0 in
         if v <? INT_MIN
         then (INT_MIN, {| rest := r0; eofbit := str_empty r0; failbit := true |})
         else if INT_MAX <? v
              then (INT_MAX, {| rest := r0; eofbit := str_empty r0; failbit := true |})
              else (v, {| rest := r0; eofbit := str_empty r0; failbit := false |})
     end)
    = (if neg then - Z.of_uint u else Z.of_uint u,
       {| rest := String c r; eofbit := false; failbit := false |})).
  { intros x ->. rewrite (span_digits_uint _ _ Hnd).
    destruct u; [contradiction|..]; cbv zeta;
      (replace (_ <? INT_MIN) with false by (symmetry; apply Z.ltb_ge; lia));
      (replace (INT_MAX <? _) with false by (symmetry; apply Z.ltb_ge; lia));
      reflexivity. }
  destruct neg.
  - rewrite string_app_cons. change ("" ++ ?x) with x.
    cbn [skip_spaces]. change (isspace "-") with false. cbv iota.
    cbn [str_empty rest span_sign]. apply Hbody. reflexivity.
  - change ("" ++ ?x) with x. rewrite Hs, string_app_cons.
    cbn [skip_spaces]. rewrite (isdigit_not_space _ Hd).
    cbn [str_empty rest]. rewrite (isdigit_no_sign _ _ Hd).
    apply Hbody. rewrite Hs, string_app_cons. reflexivity.
Qed.

(** [read_int] reads back what [string_of_Z] printed when a character that is
    no digit follows. *)
Lemma read_int_string_of_Z cur sp z c r :
  str_all isspace sp = true ->
  INT_MIN <= z <= INT_MAX ->
  isdigit c = false ->
  read_int cur {| rest := sp ++ string_of_Z z ++ String c r; eofbit := false; failbit := false |}
  = (z, {| rest := String c r; eofbit := false; failbit := false |}).
Proof.
  intros Hsp Hz Hc. unfold string_of_Z. destruct z as [|p|p].
  - apply (read_int_uint cur sp false (D0 Nil) c r Hsp); [discriminate|exact Hz|exact Hc].
  - cbn [Z.to_int NilZero.string_of_int].
    pose proof (DecimalPos.Unsigned.to_uint_nonnil p) as Hnn.
    rewrite (string_of_uint_nonnil _ Hnn).
    pose proof (read_int_uint cur sp false (Pos.to_uint p) c r Hsp Hnn) as X.
    cbv iota in X. unfold Z.of_uint in X.
    rewrite DecimalPos.Unsigned.of_to in X. apply X; assumption.
  - cbn [Z.to_int NilZero.string_of_int].
    pose proof (DecimalPos.Unsigned.to_uint_nonnil p) as Hnn.
    rewrite (string_of_uint_nonnil _ Hnn).
    pose proof (read_int_uint cur sp true (Pos.to_uint p) c r Hsp Hnn) as X.
    cbv iota in X. unfold Z.of_uint in X.
    rewrite DecimalPos.Unsigned.of_to in X. exact (X Hz Hc).
Qed.

(** ** Player files: reading back what was saved *)

Lemma concat_cons (x : string) xs : String.concat "" (x :: xs) = x ++ String.concat "" xs.
Proof.
  destruct xs as [|y ys]; cbn [String.concat].
  - symmetry. apply string_app_nil_r.
  - reflexivity.
Qed.

Lemma last_default_irrelevant {A} (l : list A) x d d' :
  List.last (x :: l) d = List.last (x :: l) d'.
Proof.
  revert x. induction l as [|y l IH]; intros x; [reflexivity|].
  change (List.last (x :: y :: l) d) with (List.last (y :: l) d).
  change (List.last (x :: y :: l) d') with (List.last (y :: l) d'). apply IH.
Qed.

Lemma LoadSet_loop_saved fl : forall n flag acc sp,
  Forall (fun f => is_token f = true) fl ->
  str_all isspace sp = true ->
  (length fl < n)%nat ->
  LoadSet_loop n {| rest := sp ++ String.concat "" (map (fun f => f ++ " ") fl);
                    eofbit := false; failbit := false |} flag acc
  = set_insert (List.last fl flag) (fold_left (fun a f => set_insert f a) fl acc).
Proof.
  induction fl as [|f fl IH]; intros n flag acc sp Hall Hsp Hn.
  - destruct n as [|n]; [simpl in Hn; lia|]. cbn [LoadSet_loop eof eofbit map String.concat].
    unfold read_string, sentry, good. cbn [eofbit failbit rest negb andb].
    rewrite (skip_spaces_app _ _ Hsp). cbn [skip_spaces str_empty].
    destruct n; reflexivity.
  - destruct n as [|n]; [simpl in Hn; lia|]. inversion Hall as [|? ? Hf Hfl]; subst.
    cbn [LoadSet_loop eof eofbit map]. rewrite concat_cons, string_app_assoc.
    change (" " ++ ?x) with (String " " x).
    rewrite (read_string_token flag sp f " " _ Hsp Hf eq_refl).
    change (String " " ?x) with (" " ++ x).
    rewrite (IH n f (set_insert f acc) " " Hfl eq_refl) by (simpl in Hn; lia).
    destruct fl as [|g fl]; [reflexivity|].
    change (List.last (f :: g :: fl) flag) with (List.last (g :: fl) flag).
    rewrite (last_default_irrelevant fl g f flag). reflexivity.
Qed.

Lemma set_insert_last x l :
  Forall (fun y => ciLess y x = true) l -> set_insert x l = (l ++ [x])%list.
Proof.
  intros H. unfold set_insert.
  assert (Hnf : set_find x l = false).
  { unfold set_find. induction H as [|y l Hy Hl IH]; [reflexivity|]. simpl.
    rewrite IH, orb_false_r. unfold ci_equiv. rewrite Hy, andb_false_r. reflexivity. }
  rewrite Hnf. induction H as [|y l Hy Hl IH]; [reflexivity|]. simpl.
  rewrite (ciLess_asym _ _ Hy). f_equal. apply IH.
  unfold set_find in *. simpl in Hnf. apply orb_false_iff in Hnf. apply Hnf.
Qed.

Lemma fold_set_insert_sorted fl : forall acc,
  Sorted.StronglySorted (fun a b => ciLess a b = true) fl ->
  Forall (fun y => Forall (fun x => ciLess y x = true) fl) acc ->
  fold_left (fun a f => set_insert f a) fl acc = (acc ++ fl)%list.
Proof.
  induction fl as [|f fl IH]; intros acc Hs Hacc.
  - simpl. rewrite app_nil_r. reflexivity.
  - inversion Hs as [|? ? Hs' Hf]; subst. cbn [fold_left].
    rewrite set_insert_last.
    + rewrite IH; [rewrite <- app_assoc; reflexivity|exact Hs'|].
      apply Forall_app. split.
      * eapply Forall_impl; [exact Hacc|]. intros y Hy. inversion Hy; assumption.
      * constructor; [exact Hf|constructor].
    + eapply Forall_impl; [exact Hacc|]. intros y Hy. inversion Hy; assumption.
Qed.

Lemma set_find_last fl d : fl <> [] -> set_find (List.last fl d) fl = true.
Proof.
  induction fl as [|f fl IH]; [contradiction|]. intros _. unfold set_find in *.
  destruct fl as [|g fl].
  - simpl. rewrite ci_equiv_refl. reflexivity.
  - change (List.last (f :: g :: fl) d) with (List.last (g :: fl) d).
    cbn [existsb]. rewrite (IH ltac:(discriminate)) at 1. apply orb_true_r.
Qed.

Lemma find_char_app_no c a b :
  str_all (fun d => negb (Ascii.eqb d c)) a = true ->
  find_char c (a ++ String c b) = Some (String.length a).
Proof.
  induction a as [|d a IH]; intros H.
  - simpl. rewrite Ascii.eqb_refl. reflexivity.
  - simpl in H. apply andb_true_iff in H as [Hd Ha]. apply negb_true_iff in Hd.
    rewrite ?string_app_cons. simpl. rewrite Hd, (IH Ha). reflexivity.
Qed.

Lemma str_take_app a b : str_take (String.length a) (a ++ b) = a.
Proof.
  induction a as [|c a IH]; [destruct b; reflexivity|].
  rewrite ?string_app_cons. simpl. rewrite IH. reflexivity.
Qed.

Lemma str_drop_app a b : str_drop (String.length a) (a ++ b) = b.
Proof.
  induction a as [|c a IH]; [reflexivity|].
  rewrite ?string_app_cons. simpl. apply IH.
Qed.

Lemma token_no_nl f :
  is_token f = true -> str_all (fun d => negb (Ascii.eqb d (ascii_of_nat 10))) f = true.
Proof.
  unfold is_token. intros H. apply andb_true_iff in H as [_ H].
  induction f as [|c f IH]; [reflexivity|]. simpl in *.
  apply andb_true_iff in H as [Hc Hf]. rewrite (IH Hf), andb_true_r.
  destruct (Ascii.eqb_spec c (ascii_of_nat 10)) as [->|]; [discriminate Hc|reflexivity].
Qed.

Lemma flags_line_no_nl fl :
  Forall (fun f => is_token f = true) fl ->
  str_all (fun d => negb (Ascii.eqb d (ascii_of_nat 10)))
    (String.concat "" (map (fun f => f ++ " ") fl)) = true.
Proof.
  induction 1 as [|f fl Hf Hfl IH]; [reflexivity|].
  cbn [map]. rewrite concat_cons, !str_all_app, (token_no_nl _ Hf), IH. reflexivity.
Qed.

Lemma flags_line_length fl :
  (length fl <= String.length (String.concat "" (map (fun f => f ++ " ") fl)))%nat.
Proof.
  induction fl as [|f fl IH]; [simpl; lia|].
  cbn [map length]. rewrite concat_cons.
  assert (H : forall a b, String.length (a ++ b) = (String.length a + String.length b)%nat).
  { intros a b. induction a as [|c a IHa]; [reflexivity|].
    rewrite ?string_app_cons. simpl. rewrite IHa. reflexivity. }
  rewrite !H. simpl. lia.
Qed.

Lemma LoadSet_saved fl more :
  Forall (fun f => is_token f = true) fl ->
  Sorted.StronglySorted (fun a b => ciLess a b = true) fl ->
  fl <> [] ->
  fst (LoadSet {| rest := String.concat "" (map (fun f => f ++ " ") fl) ++ nl ++ more;
                  eofbit := false; failbit := false |}) = fl.
Proof.
  intros Hall Hs Hne. unfold LoadSet, getline, good. cbn [eofbit failbit rest negb andb].
  change (nl ++ more) with (String (ascii_of_nat 10) more).
  rewrite (find_char_app_no _ _ _ (flags_line_no_nl _ Hall)).
  rewrite str_take_app. cbn [fst].
  pose proof (LoadSet_loop_saved fl (S (String.length (String.concat "" (map (fun f => f ++ " ") fl))))
                "" [] "" Hall eq_refl) as X.
  change ("" ++ ?x) with x in X. unfold istringstream. rewrite X.
  - rewrite (fold_set_insert_sorted fl [] Hs) by constructor.
    cbn [app]. unfold set_insert. rewrite (set_find_last fl "" Hne). reflexivity.
  - pose proof (flags_line_length fl). lia.
Qed.

Lemma Save_writable pl w :
  player_path (playername pl) ∉ unwritable w ->
  Save pl w = (set_files (<[player_path (playername pl) := player_file pl]> (files w)) w, Done tt).
Proof. intros H. unfold Save. rewrite bool_decide_eq_false_2 by exact H. reflexivity. Qed.

Lemma nl_app x : nl ++ x = String (ascii_of_nat 10) x.
Proof. reflexivity. Qed.

Lemma Load_of_saved p w q content pw rm fl :
  playerlist w !! p = Some q ->
  files w !! player_path (playername q) = Some content ->
  content = pw ++ nl ++ string_of_Z rm ++ nl
            ++ String.concat "" (map (fun f => f ++ " ") fl) ++ nl ->
  is_token pw = true ->
  INT_MIN <= rm <= INT_MAX ->
  Forall (fun f => is_token f = true) fl ->
  Sorted.StronglySorted (fun a b => ciLess a b = true) fl ->
  fl <> [] ->
  Load p w
  = (update_at p (fun x => set_flags fl (set_room rm (set_password pw x))) w, Done tt).
Proof.
  intros Hp Hfile -> Hpw Hrm Hall Hs Hne.
  unfold Load, bind, get, get_world. cbv beta iota.
  rewrite (player_at_lookup _ _ _ Hp), Hfile. unfold istringstream.
  rewrite !nl_app.
  pose proof (read_string_token (password q) "" pw (ascii_of_nat 10)
                (string_of_Z rm ++ String (ascii_of_nat 10)
                   (String.concat "" (map (fun f => f ++ " ") fl) ++ nl))
                eq_refl Hpw eq_refl) as X1.
  change ("" ++ ?x) with x in X1. rewrite X1.
  pose proof (read_int_string_of_Z (room q) nl rm (ascii_of_nat 10)
                (String.concat "" (map (fun f => f ++ " ") fl) ++ nl)
                eq_refl Hrm eq_refl) as X2.
  rewrite nl_app in X2. rewrite X2.
  unfold ignore_line, good. cbn [eofbit failbit rest negb andb find_char].
  rewrite Ascii.eqb_refl. cbn [str_drop].
  pose proof (LoadSet_saved fl "" Hall Hs Hne) as X3.
  change (nl ++ "") with nl in X3.
  destruct (LoadSet _) as [fl' f']. simpl in X3. subst fl'. reflexivity.
Qed.

(** X5.  [Load] after [Save]: when the file can be written, the password is a
    token, the room fits an [int] and the flag set is a non-empty set of
    tokens, the session that loads the record gets the password, the room and
    the flag set that were saved. *)
Theorem save_load_round_trip (pl q : tPlayer) (p : nat) (w : World) :
  playerlist w !! p = Some q ->
  playername q = playername pl ->
  player_path (playername pl) ∉ unwritable w ->
  is_token (password pl) = true ->
  INT_MIN <= room pl <= INT_MAX ->
  Forall (fun f => is_token f = true) (flags pl) ->
  Sorted.StronglySorted (fun a b => ciLess a b = true) (flags pl) ->
  flags pl <> [] ->
  let saved := fst (Save pl w) in
  exists loaded,
    Load p saved = (loaded, Done tt) /\
    password (player_at loaded p) = password pl /\
    room (player_at loaded p) = room pl /\
    flags (player_at loaded p) = flags pl /\
    playername (player_at loaded p) = playername pl.
Proof.
  intros Hp Hname Hwr Hpw Hrm Hall Hs Hne saved. subst saved.
  rewrite (Save_writable _ _ Hwr). cbn [fst].
  set (w1 := set_files _ w).
  assert (Hp1 : playerlist w1 !! p = Some q) by exact Hp.
  eexists. split.
  - apply (Load_of_saved p w1 q (player_file pl) (password pl) (room pl) (flags pl) Hp1);
      try assumption.
    + unfold w1. simpl. rewrite Hname. apply lookup_insert_eq.
    + reflexivity.
  - erewrite player_at_lookup by (apply lookup_update_at_eq, Hp1). simpl.
    repeat split. exact Hname.
Qed.

Lemma save_load_round_trip_witness :
  let pl := ex_session 5 ePlaying "Bob" "secret" ["builder"; "can_goto"] in
  let w := ex_world [ex_session 7 eAwaitingName "Bob" "" []] ∅ in
  exists loaded,
    Load 0 (fst (Save pl w)) = (loaded, Done tt) /\
    password (player_at loaded 0) = "secret" /\
    room (player_at loaded 0) = 1000 /\
    flags (player_at loaded 0) = ["builder"; "can_goto"] /\
    playername (player_at loaded 0) = "Bob".
Proof.
  apply (save_load_round_trip
           (ex_session 5 ePlaying "Bob" "secret" ["builder"; "can_goto"])
           (ex_session 7 eAwaitingName "Bob" "" []) 0
           (ex_world [ex_session 7 eAwaitingName "Bob" "" []] ∅)).
  - reflexivity.
  - reflexivity.
  - apply not_elem_of_empty.
  - reflexivity.
  - vm_compute. split; discriminate.
  - repeat constructor.
  - repeat constructor.
  - discriminate.
Defined.

(** [Save] to a path that cannot be opened changes no file and no session
    and only logs; [Load] of a name without a file throws and changes
    nothing. *)
Theorem persistence_failures (pl : tPlayer) (p : nat) (w : World) :
  (player_path (playername pl) ∈ unwritable w ->
     snd (Save pl w) = Done tt /\ only_logs w (fst (Save pl w)) /\
     console (fst (Save pl w))
     = (console w ++ [("Could not write to file for player " ++ playername pl)%string])%list)
  /\ (files w !! player_path (playername (player_at w p)) = None ->
      Load p w = (w, Threw "That player does not exist, type 'new' to create a new one.")).
Proof.
  split.
  - intros H. unfold Save. rewrite bool_decide_eq_true_2 by exact H.
    unfold only_logs. simpl. tauto.
  - intros H. unfold Load, bind, get, get_world. cbv beta iota. rewrite H. reflexivity.
Qed.

(** ** What a line of input can change *)

Lemma served_refl x : served x x.
Proof. unfold served. repeat split. exists "". symmetry. apply string_app_nil_r. Qed.

Lemma served_trans x y z : served x y -> served y z -> served x z.
Proof.
  intros (A1 & A2 & A3 & A4 & o1 & A5) (B1 & B2 & B3 & B4 & o2 & B5).
  unfold served. repeat split; try congruence.
  exists (o1 ++ o2). rewrite B5, A5. apply string_app_assoc.
Qed.

Lemma played_refl x : played x x.
Proof. unfold played. split; [apply served_refl|]. repeat split. Qed.

Lemma played_trans x y z : played x y -> played y z -> played x z.
Proof.
  intros (A0 & A1 & A2 & A3 & A4 & A5) (B0 & B1 & B2 & B3 & B4 & B5).
  unfold played. split; [eapply served_trans; eassumption|].
  repeat split; congruence.
Qed.

Lemma grown_refl x : grown x x.
Proof. split; [apply played_refl|reflexivity]. Qed.

Lemma grown_trans x y z : grown x y -> grown y z -> grown x z.
Proof.
  intros [A B] [C D]. split; [eapply played_trans; eassumption|congruence].
Qed.

Lemma grown_played x y : grown x y -> played x y.
Proof. intros [H _]. exact H. Qed.

Lemma played_served x y : played x y -> served x y.
Proof. intros [H _]. exact H. Qed.

Lemma command_of_refl p q x : command_of p q x x.
Proof. unfold command_of. destruct (decide (q = p)); [apply played_refl|apply grown_refl]. Qed.

Lemma command_of_trans p q x y z :
  command_of p q x y -> command_of p q y z -> command_of p q x z.
Proof.
  unfold command_of. destruct (decide (q = p)); [apply played_trans|apply grown_trans].
Qed.

Lemma line_of_refl p q x : line_of p q x x.
Proof. unfold line_of. destruct (decide (q = p)); [apply served_refl|apply grown_refl]. Qed.

Lemma line_of_trans p q x y z :
  line_of p q x y -> line_of p q y z -> line_of p q x z.
Proof.
  unfold line_of. destruct (decide (q = p)); [apply served_trans|apply grown_trans].
Qed.

Lemma grown_command_of p q x y : grown x y -> command_of p q x y.
Proof. unfold command_of. destruct (decide (q = p)); [apply grown_played|trivial]. Qed.

Lemma command_of_line_of p q x y : command_of p q x y -> line_of p q x y.
Proof. unfold command_of, line_of. destruct (decide (q = p)); [apply played_served|trivial]. Qed.

Lemma same_config_refl w : same_config w w.
Proof. unfold same_config. tauto. Qed.

Lemma same_config_trans w1 w2 w3 :
  same_config w1 w2 -> same_config w2 w3 -> same_config w1 w3.
Proof. unfold same_config. intros H1 H2. intuition congruence. Qed.

Section Relations.
Variable R : nat -> tPlayer -> tPlayer -> Prop.
Hypothesis R_refl : forall q x, R q x x.
Hypothesis R_trans : forall q x y z, R q x y -> R q y z -> R q x z.

Lemma sessions_related_refl w : sessions_related R w w.
Proof.
  split; [apply same_config_refl|]. split; [reflexivity|].
  intros q x H. exists x. split; [exact H|apply R_refl].
Qed.

Lemma sessions_related_trans w1 w2 w3 :
  sessions_related R w1 w2 -> sessions_related R w2 w3 -> sessions_related R w1 w3.
Proof.
  intros (C1 & L1 & H1) (C2 & L2 & H2). split; [eapply same_config_trans; eassumption|].
  split; [congruence|]. intros q x Hx.
  destruct (H1 q x Hx) as (y & Hy & Rxy). destruct (H2 q y Hy) as (z & Hz & Ryz).
  exists z. split; [exact Hz|]. eapply R_trans; eassumption.
Qed.

Lemma keeps_ret {A} (a : A) : keeps R (ret a).
Proof. intros w. apply sessions_related_refl. Qed.

Lemma keeps_throw {A} e : keeps R (@throw A e).
Proof. intros w. apply sessions_related_refl. Qed.

Lemma keeps_diverge {A} : keeps R (@diverge A).
Proof. intros w. apply sessions_related_refl. Qed.

Lemma keeps_get p : keeps R (get p).
Proof. intros w. apply sessions_related_refl. Qed.

Lemma keeps_get_world : keeps R get_world.
Proof. intros w. apply sessions_related_refl. Qed.

Lemma keeps_bind {A B} (m : M A) (k : A -> M B) :
  keeps R m -> (forall a, keeps R (k a)) -> keeps R (bind m k).
Proof.
  intros Hm Hk w. unfold bind. specialize (Hm w).
  destruct (m w) as [w' [a|e|]]; simpl in *; try exact Hm.
  eapply sessions_related_trans; [exact Hm|apply Hk].
Qed.

Lemma keeps_try_catch {A} (m : M A) (h : string -> M A) :
  keeps R m -> (forall e, keeps R (h e)) -> keeps R (try_catch m h).
Proof.
  intros Hm Hh w. unfold try_catch. specialize (Hm w).
  destruct (m w) as [w' [a|e|]]; simpl in *; try exact Hm.
  eapply sessions_related_trans; [exact Hm|apply Hh].
Qed.

Lemma keeps_when b m : keeps R m -> keeps R (when b m).
Proof. intros H. destruct b; [exact H|apply keeps_ret]. Qed.

Lemma keeps_log line : keeps R (log line).
Proof.
  intros w. split; [unfold same_config; simpl; tauto|]. split; [reflexivity|].
  intros q x H. exists x. split; [exact H|apply R_refl].
Qed.

Lemma keeps_stop : keeps R (fun w => (set_bStopNow true w, Done tt)).
Proof.
  intros w. split; [unfold same_config; simpl; tauto|]. split; [reflexivity|].
  intros q x H. exists x. split; [exact H|apply R_refl].
Qed.

Lemma keeps_FindRoom vnum : keeps R (FindRoom vnum).
Proof.
  intros w. unfold FindRoom. destruct (roommap w !! vnum); apply sessions_related_refl.
Qed.

Lemma keeps_modify p f : (forall x, R p x (f x)) -> keeps R (modify p f).
Proof.
  intros Hf w. split; [unfold same_config; simpl; tauto|]. split; [apply length_alter|].
  intros q x H. simpl. destruct (decide (p = q)) as [->|Hne].
  - exists (f x). rewrite list_lookup_alter_eq, H. split; [reflexivity|apply Hf].
  - exists x. rewrite list_lookup_alter_ne by exact Hne. split; [exact H|apply R_refl].
Qed.

Lemma keeps_SendToAll message except InRoom :
  (forall q x, R q x (put message x)) -> keeps R (SendToAll message except InRoom).
Proof.
  intros Hput w. split; [unfold same_config; simpl; tauto|]. split; [apply length_imap|].
  intros q x H. simpl. rewrite list_lookup_imap, H. simpl. eexists. split; [reflexivity|].
  unfold sendToPlayer. destruct (_ && _); [apply Hput|apply R_refl].
Qed.
End Relations.

(** ** Invariants of the command handlers

    The handlers are walked through once, for any reflexive and transitive
    relation [I] between the world before and after that sending text to a
    session respects; what else a handler does (a move, a change of flags,
    closing, the shutdown request) is asked of [I] where it happens. *)

Section Invariants.
Variable I : World -> World -> Prop.
Hypothesis I_refl : forall w, I w w.
Hypothesis I_trans : forall w1 w2 w3, I w1 w2 -> I w2 w3 -> I w1 w3.

Lemma inv_ret {A} (a : A) : invariant I (ret a).
Proof. intros w. apply I_refl. Qed.

Lemma inv_throw {A} e : invariant I (@throw A e).
Proof. intros w. apply I_refl. Qed.

Lemma inv_diverge {A} : invariant I (@diverge A).
Proof. intros w. apply I_refl. Qed.

Lemma inv_get p : invariant I (get p).
Proof. intros w. apply I_refl. Qed.

Lemma inv_get_world : invariant I get_world.
Proof. intros w. apply I_refl. Qed.

Lemma inv_FindRoom vnum : invariant I (FindRoom vnum).
Proof. intros w. unfold FindRoom. destruct (roommap w !! vnum); apply I_refl. Qed.

Lemma inv_bind {A B} (m : M A) (k : A -> M B) :
  invariant I m -> (forall a, invariant I (k a)) -> invariant I (bind m k).
Proof.
  intros Hm Hk w. unfold bind. specialize (Hm w).
  destruct (m w) as [w' [a|e|]]; simpl in *; try exact Hm.
  eapply I_trans; [exact Hm|apply Hk].
Qed.

Lemma inv_try_catch {A} (m : M A) (h : string -> M A) :
  invariant I m -> (forall e, invariant I (h e)) -> invariant I (try_catch m h).
Proof.
  intros Hm Hh w. unfold try_catch. specialize (Hm w).
  destruct (m w) as [w' [a|e|]]; simpl in *; try exact Hm.
  eapply I_trans; [exact Hm|apply Hh].
Qed.

Lemma inv_when b m : invariant I m -> invariant I (when b m).
Proof. intros H. destruct b; [exact H|apply inv_ret]. Qed.
End Invariants.

Ltac inv_step I_refl I_trans :=
  lazymatch goal with
  | |- invariant _ (ret _) => apply inv_ret; exact I_refl
  | |- invariant _ (throw _) => apply inv_throw; exact I_refl
  | |- invariant _ diverge => apply inv_diverge; exact I_refl
  | |- invariant _ (get _) => apply inv_get; exact I_refl
  | |- invariant _ get_world => apply inv_get_world; exact I_refl
  | |- invariant _ (FindRoom _) => apply inv_FindRoom; exact I_refl
  | |- invariant _ (when _ _) => apply inv_when; [exact I_refl|]
  | |- invariant _ (bind _ _) => apply inv_bind; [exact I_trans| |intros]
  | |- invariant _ (try_catch _ _) => apply inv_try_catch; [exact I_trans| |intros]
  | |- invariant _ (if _ then _ else _) => case_match
  | |- invariant _ (match _ with _ => _ end) => case_match
  | |- invariant _ (let _ := _ in _) => cbv zeta
  | |- invariant _ _ => solve [auto]
  end.

Section Handlers.
Variable I : World -> World -> Prop.
Hypothesis I_refl : forall w, I w w.
Hypothesis I_trans : forall w1 w2 w3, I w1 w2 -> I w2 w3 -> I w1 w3.
Hypothesis I_send : forall q msg, invariant I (send q msg).
Hypothesis I_SendToAll : forall msg except rm, invariant I (SendToAll msg except rm).
Variable dc : tDoCommand.

Ltac walk := repeat inv_step I_refl I_trans.

Lemma inv_NoMore q sArgs : invariant I (NoMore q sArgs).
Proof. unfold NoMore. walk. Qed.

Lemma inv_NeedFlag q name : invariant I (NeedFlag q name).
Proof. unfold NeedFlag. walk. Qed.

Lemma inv_NeedNoFlag q name : invariant I (NeedNoFlag q name).
Proof. unfold NeedNoFlag. walk. Qed.

Lemma inv_GetMessage sArgs e : invariant I (GetMessage sArgs e).
Proof. unfold GetMessage. walk. Qed.

Lemma inv_GetFlag sArgs e : invariant I (GetFlag sArgs e).
Proof. unfold GetFlag. walk. Qed.

Lemma inv_GetPlayer q sArgs e notme : invariant I (GetPlayer q sArgs e notme).
Proof. unfold GetPlayer. walk. Qed.

#[local] Hint Resolve inv_NoMore inv_NeedFlag inv_NeedNoFlag inv_GetMessage inv_GetFlag
  inv_GetPlayer : core.

Lemma inv_PlayerToRoom q vnum m1 m2 m3 :
  (forall v, invariant I (modify q (set_room v))) ->
  invariant I (dc q "look") ->
  invariant I (PlayerToRoom dc q vnum m1 m2 m3).
Proof. intros Hroom Hlook. unfold PlayerToRoom. walk. Qed.

Lemma inv_DoDirection q dir :
  (forall v, invariant I (modify q (set_room v))) ->
  invariant I (dc q "look") ->
  invariant I (DoDirection dc q dir).
Proof.
  intros Hroom Hlook. unfold DoDirection.
  pose proof (fun vnum m1 m2 m3 => inv_PlayerToRoom q vnum m1 m2 m3 Hroom Hlook). walk.
Qed.

Lemma inv_DoLook q sArgs : invariant I (DoLook dc q sArgs).
Proof. unfold DoLook. walk. Qed.

Lemma inv_DoSay q sArgs : invariant I (DoSay dc q sArgs).
Proof. unfold DoSay. walk. Qed.

Lemma inv_DoTell q sArgs : invariant I (DoTell dc q sArgs).
Proof. unfold DoTell. walk. Qed.

Lemma inv_DoHelp q sArgs : invariant I (DoHelp dc q sArgs).
Proof. unfold DoHelp. walk. Qed.

Lemma inv_DoQuit q sArgs :
  (forall line, invariant I (log line)) ->
  invariant I (modify q ClosePlayer) ->
  invariant I (DoQuit dc q sArgs).
Proof. intros Hlog Hclose. unfold DoQuit. walk. Qed.

Lemma inv_DoSetFlag q sArgs :
  (forall t g, invariant I (modify t (fun x => set_flags (g x) x))) ->
  invariant I (DoSetFlag dc q sArgs).
Proof. intros Hflags. unfold DoSetFlag. walk. Qed.

Lemma inv_DoClearFlag q sArgs :
  (forall t g, invariant I (modify t (fun x => set_flags (g x) x))) ->
  invariant I (DoClearFlag dc q sArgs).
Proof. intros Hflags. unfold DoClearFlag. walk. Qed.

Lemma inv_DoShutdown q sArgs :
  invariant I (fun w => (set_bStopNow true w, Done tt)) ->
  invariant I (DoShutdown dc q sArgs).
Proof. intros Hstop. unfold DoShutdown. walk. Qed.

Lemma inv_DoGoTo q sArgs :
  (forall v, invariant I (modify q (set_room v))) ->
  invariant I (dc q "look") ->
  invariant I (DoGoTo dc q sArgs).
Proof.
  intros Hroom Hlook. unfold DoGoTo.
  pose proof (fun vnum m1 m2 m3 => inv_PlayerToRoom q vnum m1 m2 m3 Hroom Hlook). walk.
Qed.

Lemma inv_DoTransfer q sArgs :
  (forall t v, invariant I (modify t (set_room v))) ->
  (forall t, invariant I (dc t "look")) ->
  invariant I (DoTransfer dc q sArgs).
Proof.
  intros Hroom Hlook. unfold DoTransfer.
  pose proof (fun t vnum m1 m2 m3 =>
                inv_PlayerToRoom t vnum m1 m2 m3 (Hroom t) (Hlook t)). walk.
Qed.

(** The dispatch of [ProcessCommand]: a direction, one of the twelve command
    words, or "Huh?".  What the five privileged handlers do is asked at the
    world at hand. *)
Lemma inv_dispatch p command sArgs w :
  (forall line, invariant I (log line)) ->
  invariant I (modify p ClosePlayer) ->
  (set_find command (directionset w) = true -> I w (fst (DoDirection dc p command w))) ->
  I w (fst (DoShutdown dc p sArgs w)) ->
  I w (fst (DoGoTo dc p sArgs w)) ->
  I w (fst (DoTransfer dc p sArgs w)) ->
  I w (fst (DoSetFlag dc p sArgs w)) ->
  I w (fst (DoClearFlag dc p sArgs w)) ->
  I w (fst ((w0 <- get_world ;;
             if set_find command (directionset w0) then DoDirection dc p command
             else match commandmap_find commandmap command with
                  | None => throw "Huh?"
                  | Some handler => handler dc p sArgs
                  end) w)).
Proof.
  intros Hlog Hclose Hdir Hsd Hgo Htr Hsf Hcf.
  unfold bind, get_world. cbv beta iota.
  destruct (set_find command (directionset w)); [apply Hdir; reflexivity|].
  unfold commandmap. cbn [commandmap_find].
  repeat (destruct (String.eqb _ command);
          [first [ apply inv_DoLook | apply inv_DoQuit; assumption | apply inv_DoSay
                 | apply inv_DoTell | apply inv_DoHelp | assumption ]|]).
  apply I_refl.
Qed.
End Handlers.

Lemma ProcessCommand_S fuel p sArgs :
  ProcessCommand (S fuel) p sArgs =
  (w <- get_world ;;
   if set_find (fst (read_string "" sArgs)) (directionset w)
   then DoDirection (DoCommand fuel) p (fst (read_string "" sArgs))
   else match commandmap_find commandmap (fst (read_string "" sArgs)) with
        | None => throw "Huh?"
        | Some handler => handler (DoCommand fuel) p (ws (snd (read_string "" sArgs)))
        end).
Proof. cbn [ProcessCommand]. destruct (read_string "" sArgs). reflexivity. Qed.

(** Looking around, which may be a move when "look" is a direction. *)
Lemma inv_look (I : World -> World -> Prop) (q : nat) :
  (forall w, I w w) -> (forall w1 w2 w3, I w1 w2 -> I w2 w3 -> I w1 w3) ->
  (forall t msg, invariant I (send t msg)) ->
  (forall msg except rm, invariant I (SendToAll msg except rm)) ->
  (forall v, invariant I (modify q (set_room v))) ->
  forall fuel, invariant I (DoCommand fuel q "look").
Proof.
  intros I_refl I_trans I_send I_SendToAll Hroom fuel.
  induction fuel as [|fuel IH]; unfold DoCommand.
  - apply inv_diverge, I_refl.
  - rewrite ProcessCommand_S.
    apply inv_bind; [exact I_trans|apply inv_get_world; exact I_refl|].
    intros w. destruct (set_find _ (directionset w)).
    + apply inv_DoDirection; assumption.
    + change (fst (read_string "" (istringstream "look"))) with "look".
      change (commandmap_find commandmap "look") with (Some DoLook).
      apply inv_DoLook; assumption.
Qed.

(** A handler that starts with [NeedFlag] leaves the world as it is when the
    flag is missing. *)
Lemma NeedFlag_refused {A} p name (k : unit -> M A) w :
  HaveFlag (player_at w p) name = false ->
  bind (NeedFlag p name) k w = (w, Threw "You are not permitted to do that.").
Proof.
  intros H. unfold bind at 1.
  assert (E : NeedFlag p name w = (w, Threw "You are not permitted to do that.")).
  { unfold NeedFlag, bind, get. cbv beta iota. rewrite H. reflexivity. }
  rewrite E. reflexivity.
Qed.

Lemma DoShutdown_refused dc p sArgs w :
  HaveFlag (player_at w p) "can_shutdown" = false ->
  fst (DoShutdown dc p sArgs w) = w.
Proof.
  intros H. unfold DoShutdown. unfold bind at 1.
  pose proof (NoMore_fst p sArgs w) as Hw.
  destruct (NoMore p sArgs w) as [w1 [[]|e|]]; simpl in Hw; subst w1; try reflexivity.
  rewrite NeedFlag_refused by exact H. reflexivity.
Qed.

Lemma DoGoTo_refused dc p sArgs w :
  HaveFlag (player_at w p) "can_goto" = false -> fst (DoGoTo dc p sArgs w) = w.
Proof. intros H. unfold DoGoTo. rewrite NeedFlag_refused by exact H. reflexivity. Qed.

Lemma DoTransfer_refused dc p sArgs w :
  HaveFlag (player_at w p) "can_transfer" = false -> fst (DoTransfer dc p sArgs w) = w.
Proof. intros H. unfold DoTransfer. rewrite NeedFlag_refused by exact H. reflexivity. Qed.

Lemma DoSetFlag_refused dc p sArgs w :
  HaveFlag (player_at w p) "can_setflag" = false -> fst (DoSetFlag dc p sArgs w) = w.
Proof. intros H. unfold DoSetFlag. rewrite NeedFlag_refused by exact H. reflexivity. Qed.

Lemma DoClearFlag_refused dc p sArgs w :
  HaveFlag (player_at w p) "can_setflag" = false -> fst (DoClearFlag dc p sArgs w) = w.
Proof. intros H. unfold DoClearFlag. rewrite NeedFlag_refused by exact H. reflexivity. Qed.

(** ** The relations between sessions as invariants *)

Ltac fields_tac :=
  unfold grown, played, served; simpl;
  repeat match goal with |- _ /\ _ => split end;
  try reflexivity;
  eexists; first [reflexivity | symmetry; apply string_app_nil_r].

Lemma command_of_self p x y : played x y -> command_of p p x y.
Proof. unfold command_of. rewrite decide_True by reflexivity. trivial. Qed.

Lemma line_of_self p x y : served x y -> line_of p p x y.
Proof. unfold line_of. rewrite decide_True by reflexivity. trivial. Qed.

Lemma grown_line_of p q x y : grown x y -> line_of p q x y.
Proof. intros H. apply command_of_line_of, grown_command_of, H. Qed.

Lemma keeps_mono {A} (R R' : nat -> tPlayer -> tPlayer -> Prop) (m : M A) :
  (forall q x y, R q x y -> R' q x y) -> keeps R m -> keeps R' m.
Proof.
  intros Hsub Hm w. destruct (Hm w) as (C & L & H). split; [exact C|]. split; [exact L|].
  intros q x Hx. destruct (H q x Hx) as (y & Hy & Rxy). exists y. split; [exact Hy|].
  apply Hsub, Rxy.
Qed.

Lemma same_flags_refl q x : same_flags q x x.
Proof. reflexivity. Qed.

Lemma same_flags_trans q x y z : same_flags q x y -> same_flags q y z -> same_flags q x z.
Proof. unfold same_flags. congruence. Qed.

Lemma others_stay_refl p q x : others_stay p q x x.
Proof. intros _. reflexivity. Qed.

Lemma others_stay_trans p q x y z :
  others_stay p q x y -> others_stay p q y z -> others_stay p q x z.
Proof. unfold others_stay. intros H1 H2 Hq. rewrite H2, H1; auto. Qed.

Lemma all_stay_refl q x : all_stay q x x.
Proof. reflexivity. Qed.

Lemma all_stay_trans q x y z : all_stay q x y -> all_stay q y z -> all_stay q x z.
Proof. unfold all_stay. congruence. Qed.

Lemma not_stopped_trans w1 w2 w3 : not_stopped w1 w2 -> not_stopped w2 w3 -> not_stopped w1 w3.
Proof. unfold not_stopped. congruence. Qed.

Create HintDb rel.
#[export] Hint Resolve command_of_self line_of_self grown_command_of grown_line_of : rel.
#[export] Hint Extern 1 (grown _ _) => solve [fields_tac] : rel.
#[export] Hint Extern 1 (played _ _) => solve [fields_tac] : rel.
#[export] Hint Extern 1 (served _ _) => solve [fields_tac] : rel.
#[export] Hint Extern 1 (same_flags _ _ _) => reflexivity : rel.
#[export] Hint Extern 1 (others_stay _ _ _ _) =>
  solve [intros ?; first [reflexivity|congruence]] : rel.
#[export] Hint Extern 1 (all_stay _ _ _) => reflexivity : rel.

(** What [I] is asked for, when [I] relates the sessions by [R]. *)
Ltac sessions R_refl :=
  intros;
  lazymatch goal with
  | |- invariant _ (send _ _) =>
      apply keeps_modify; [exact R_refl|intros; solve [eauto with rel]]
  | |- invariant _ (modify _ _) =>
      apply keeps_modify; [exact R_refl|intros; solve [eauto with rel]]
  | |- invariant _ (SendToAll _ _ _) =>
      apply keeps_SendToAll; [exact R_refl|intros; solve [eauto with rel]]
  | |- invariant _ (log _) => apply keeps_log; exact R_refl
  | |- invariant _ (fun w => (set_bStopNow true w, Done tt)) => apply keeps_stop; exact R_refl
  | |- sessions_related _ ?w ?w => apply sessions_related_refl; exact R_refl
  end.

Lemma related_player_at {A} (proj : tPlayer -> A) R w w' q :
  sessions_related R w w' ->
  (forall x x', R q x x' -> proj x' = proj x) ->
  proj (player_at w' q) = proj (player_at w q).
Proof.
  intros (_ & L & H) HR. unfold player_at.
  destruct (playerlist w !! q) as [x|] eqn:E.
  - destruct (H q x E) as (x' & -> & Hx). apply HR, Hx.
  - apply lookup_ge_None in E. rewrite <- L in E. apply lookup_ge_None in E.
    rewrite E. reflexivity.
Qed.

(** *** What a command can change *)

Lemma keeps_look R q fuel :
  (forall q x, R q x x) -> (forall q x y z, R q x y -> R q y z -> R q x z) ->
  (forall q x y, grown x y -> R q x y) ->
  keeps R (DoCommand fuel q "look").
Proof.
  intros R_refl R_trans R_grown.
  apply (inv_look (sessions_related R)).
  - apply sessions_related_refl, R_refl.
  - apply sessions_related_trans, R_trans.
  - intros. apply keeps_modify; [exact R_refl|]. intros. apply R_grown. fields_tac.
  - intros. apply keeps_SendToAll; [exact R_refl|]. intros. apply R_grown. fields_tac.
  - intros. apply keeps_modify; [exact R_refl|]. intros. apply R_grown. fields_tac.
Qed.

Lemma keeps_ProcessCommand fuel p sArgs : keeps (command_of p) (ProcessCommand fuel p sArgs).
Proof.
  pose proof (command_of_refl p) as R_refl. pose proof (command_of_trans p) as R_trans.
  pose proof (sessions_related_refl _ R_refl) as I_refl.
  pose proof (sessions_related_trans _ R_trans) as I_trans.
  assert (Hlook : forall t, keeps (command_of p) (DoCommand (pred fuel) t "look")).
  { intros t. apply keeps_look; [exact R_refl|exact R_trans|apply grown_command_of]. }
  destruct fuel as [|fuel]; intros w.
  - apply I_refl.
  - rewrite ProcessCommand_S.
    apply (inv_dispatch (sessions_related (command_of p)));
      try exact I_refl; try exact I_trans; try solve [sessions R_refl]; intros.
    + apply inv_DoDirection; try assumption; try solve [sessions R_refl]; try apply Hlook.
    + apply inv_DoShutdown; try assumption; solve [sessions R_refl].
    + apply inv_DoGoTo; try assumption; try solve [sessions R_refl]; try apply Hlook.
    + apply inv_DoTransfer; try assumption; try solve [sessions R_refl]; try apply Hlook.
    + apply inv_DoSetFlag; try assumption; solve [sessions R_refl].
    + apply inv_DoClearFlag; try assumption; solve [sessions R_refl].
Qed.

(** *** What a line of input can change *)

Ltac keeps_step R_refl R_trans :=
  lazymatch goal with
  | |- keeps _ (ret _) => apply keeps_ret; exact R_refl
  | |- keeps _ (throw _) => apply keeps_throw; exact R_refl
  | |- keeps _ diverge => apply keeps_diverge; exact R_refl
  | |- keeps _ (get _) => apply keeps_get; exact R_refl
  | |- keeps _ get_world => apply keeps_get_world; exact R_refl
  | |- keeps _ (log _) => apply keeps_log; exact R_refl
  | |- keeps _ (FindRoom _) => apply keeps_FindRoom; exact R_refl
  | |- keeps _ (when _ _) => apply keeps_when; [exact R_refl|]
  | |- keeps _ (bind _ _) => apply keeps_bind; [exact R_trans| |intros]
  | |- keeps _ (try_catch _ _) => apply keeps_try_catch; [exact R_trans| |intros]
  | |- keeps _ (modify _ _) =>
      apply keeps_modify; [exact R_refl|intros; solve [eauto with rel]]
  | |- keeps _ (send _ _) =>
      apply keeps_modify; [exact R_refl|intros; solve [eauto with rel]]
  | |- keeps _ (SendToAll _ _ _) =>
      apply keeps_SendToAll; [exact R_refl|intros; solve [eauto with rel]]
  | |- keeps _ (fun w => (set_bStopNow true w, Done tt)) => apply keeps_stop; exact R_refl
  | |- keeps _ (if _ then _ else _) => case_match
  | |- keeps _ (match _ with _ => _ end) => case_match
  | |- keeps _ (let _ := _ in _) => cbv zeta
  end.

(** The login handlers change of the session that typed the line only what
    [served] allows, and of the others only what [grown] allows. *)
Section Login.
Variable p : nat.
Variable fuel : nat.

Let dc := DoCommand fuel.

Lemma dc_look_line q : keeps (line_of p) (dc q "look").
Proof. apply keeps_look; [apply line_of_refl|apply line_of_trans|apply grown_line_of]. Qed.

#[local] Hint Resolve grown_line_of : rel.

Ltac kl :=
  repeat lazymatch goal with
         | |- keeps _ (dc _ "look") => apply dc_look_line
         | |- _ => keeps_step (line_of_refl p) (line_of_trans p)
         end.

Lemma keeps_Load : keeps (line_of p) (Load p).
Proof. unfold Load. kl. Qed.

Lemma keeps_PlayerEnteredGame message : keeps (line_of p) (PlayerEnteredGame dc p message).
Proof. unfold PlayerEnteredGame. kl. Qed.

Ltac kl' :=
  repeat lazymatch goal with
         | |- keeps _ (Load _) => apply keeps_Load
         | |- keeps _ (PlayerEnteredGame _ _ _) => apply keeps_PlayerEnteredGame
         | |- _ => keeps_step (line_of_refl p) (line_of_trans p)
         end.

Lemma keeps_ProcessPlayerName sArgs : keeps (line_of p) (ProcessPlayerName dc p sArgs).
Proof. unfold ProcessPlayerName. kl'. Qed.

Lemma keeps_ProcessNewPlayerName sArgs : keeps (line_of p) (ProcessNewPlayerName dc p sArgs).
Proof. unfold ProcessNewPlayerName. kl'. Qed.

Lemma keeps_ProcessNewPassword sArgs : keeps (line_of p) (ProcessNewPassword dc p sArgs).
Proof. unfold ProcessNewPassword. kl'. Qed.

Lemma keeps_ProcessConfirmPassword sArgs :
  keeps (line_of p) (ProcessConfirmPassword dc p sArgs).
Proof. unfold ProcessConfirmPassword. kl'. Qed.

Lemma keeps_ProcessPlayerPassword sArgs :
  keeps (line_of p) (ProcessPlayerPassword dc p sArgs).
Proof. unfold ProcessPlayerPassword. kl'. Qed.

Lemma keeps_statemap st sArgs : keeps (line_of p) (statemap fuel st p sArgs).
Proof.
  destruct st; cbn [statemap].
  - apply keeps_ProcessPlayerName.
  - apply keeps_ProcessPlayerPassword.
  - apply keeps_ProcessNewPlayerName.
  - apply keeps_ProcessNewPassword.
  - apply keeps_ProcessConfirmPassword.
  - eapply keeps_mono; [|apply keeps_ProcessCommand]. apply command_of_line_of.
Qed.

Lemma keeps_ProcessPlayerInput s : keeps (line_of p) (ProcessPlayerInput fuel p s).
Proof.
  unfold ProcessPlayerInput.
  repeat lazymatch goal with
         | |- keeps _ (statemap _ _ _ _) => apply keeps_statemap
         | |- _ => keeps_step (line_of_refl p) (line_of_trans p)
         end.
Qed.
End Login.

(** X6.  What a command can change.  Whatever [ProcessCommand] is given, for
    any fuel and any outcome: the rooms, messages, directions, reserved
    names, player files and unwritable paths stay as they were; no session
    is added or removed; every session keeps its socket, port, address,
    input buffer, connection state, prompt, name, password and count of bad
    passwords, and its pending output only grows at the end; every session
    but the one that typed the command keeps its [closing] mark. *)
Theorem command_frame (fuel p : nat) (sArgs : istream) (w : World) :
  let w' := fst (ProcessCommand fuel p sArgs w) in
  same_config w w'
  /\ length (playerlist w') = length (playerlist w)
  /\ forall q x, playerlist w !! q = Some x ->
       exists x', playerlist w' !! q = Some x' /\ played x x'
                  /\ (q <> p -> closing x' = closing x).
Proof.
  intros w'. destruct (keeps_ProcessCommand fuel p sArgs w) as (C & L & H).
  split; [exact C|]. split; [exact L|]. intros q x Hx.
  destruct (H q x Hx) as (x' & Hx' & Hrel). exists x'. split; [exact Hx'|].
  unfold command_of in Hrel. destruct (decide (q = p)) as [->|Hq].
  - split; [exact Hrel|]. intros Hne. contradiction.
  - destruct Hrel as [Hpl Hcl]. split; [exact Hpl|]. intros _. exact Hcl.
Qed.

(** X7.  What a line of input can change.  Whatever line [ProcessPlayerInput]
    is given, in whatever connection state: the configuration and the player
    files stay as they were and no session is added or removed; the session
    that typed the line keeps its socket, port, address and input buffer and
    its pending output only grows; any other session changes at most in its
    room, its flags and what is appended to its pending output. *)
Theorem input_frame (fuel p : nat) (s : string) (w : World) :
  let w' := fst (ProcessPlayerInput fuel p s w) in
  same_config w w'
  /\ length (playerlist w') = length (playerlist w)
  /\ forall q x, playerlist w !! q = Some x ->
       exists x', playerlist w' !! q = Some x' /\ served x x'
                  /\ (q <> p -> grown x x').
Proof.
  intros w'. destruct (keeps_ProcessPlayerInput p fuel s w) as (C & L & H).
  split; [exact C|]. split; [exact L|]. intros q x Hx.
  destruct (H q x Hx) as (x' & Hx' & Hrel). exists x'. split; [exact Hx'|].
  unfold line_of in Hrel. destruct (decide (q = p)) as [->|Hq].
  - split; [exact Hrel|]. intros Hne. contradiction.
  - split; [apply played_served, grown_played, Hrel|]. intros _. exact Hrel.
Qed.

(** *** Privileges *)

Lemma not_stopped_refl w : not_stopped w w.
Proof. reflexivity. Qed.

Lemma ProcessCommand_not_stopped fuel p sArgs w :
  HaveFlag (player_at w p) "can_shutdown" = false ->
  not_stopped w (fst (ProcessCommand fuel p sArgs w)).
Proof.
  intros Hflag.
  assert (Hsend : forall t msg, invariant not_stopped (send t msg))
    by (intros t msg w0; reflexivity).
  assert (Hall : forall msg except rm, invariant not_stopped (SendToAll msg except rm))
    by (intros msg except rm w0; reflexivity).
  assert (Hmod : forall t f, invariant not_stopped (modify t f))
    by (intros t f w0; reflexivity).
  assert (Hlook : forall t, invariant not_stopped (DoCommand (pred fuel) t "look")).
  { intros t. apply inv_look;
      first [exact not_stopped_refl|exact not_stopped_trans|assumption|intros; apply Hmod]. }
  destruct fuel as [|fuel]; [reflexivity|].
  rewrite ProcessCommand_S.
  apply (inv_dispatch not_stopped); try first [exact not_stopped_refl|exact not_stopped_trans|assumption|intros; apply Hmod|intros; apply Hlook|intros ? ?; reflexivity].
  - intros _. apply inv_DoDirection; try first [exact not_stopped_refl|exact not_stopped_trans|assumption|intros; apply Hmod|intros; apply Hlook|intros ? ?; reflexivity].
  - rewrite DoShutdown_refused by exact Hflag. reflexivity.
  - apply inv_DoGoTo; try first [exact not_stopped_refl|exact not_stopped_trans|assumption|intros; apply Hmod|intros; apply Hlook|intros ? ?; reflexivity].
  - apply inv_DoTransfer; try first [exact not_stopped_refl|exact not_stopped_trans|assumption|intros; apply Hmod|intros; apply Hlook|intros ? ?; reflexivity].
  - apply inv_DoSetFlag; try first [exact not_stopped_refl|exact not_stopped_trans|assumption|intros; apply Hmod|intros; apply Hlook|intros ? ?; reflexivity].
  - apply inv_DoClearFlag; try first [exact not_stopped_refl|exact not_stopped_trans|assumption|intros; apply Hmod|intros; apply Hlook|intros ? ?; reflexivity].
Qed.

Lemma ProcessCommand_same_flags fuel p sArgs w :
  HaveFlag (player_at w p) "can_setflag" = false ->
  sessions_related same_flags w (fst (ProcessCommand fuel p sArgs w)).
Proof.
  intros Hflag.
  pose proof same_flags_refl as R_refl. pose proof same_flags_trans as R_trans.
  pose proof (sessions_related_refl _ R_refl) as I_refl.
  pose proof (sessions_related_trans _ R_trans) as I_trans.
  assert (Hlook : forall t, invariant (sessions_related same_flags)
                              (DoCommand (pred fuel) t "look")).
  { intros t. apply inv_look; try assumption; solve [sessions R_refl]. }
  destruct fuel as [|fuel]; [apply I_refl|].
  rewrite ProcessCommand_S.
  apply (inv_dispatch (sessions_related same_flags));
    try exact I_refl; try exact I_trans; try solve [sessions R_refl]; intros.
  - apply inv_DoDirection; try assumption; try solve [sessions R_refl]; try apply Hlook.
  - apply inv_DoShutdown; try assumption; solve [sessions R_refl].
  - apply inv_DoGoTo; try assumption; try solve [sessions R_refl]; try apply Hlook.
  - apply inv_DoTransfer; try assumption; try solve [sessions R_refl]; try apply Hlook.
  - rewrite DoSetFlag_refused by exact Hflag. apply I_refl.
  - rewrite DoClearFlag_refused by exact Hflag. apply I_refl.
Qed.

Lemma ProcessCommand_others_stay fuel p sArgs w :
  HaveFlag (player_at w p) "can_transfer" = false ->
  sessions_related (others_stay p) w (fst (ProcessCommand fuel p sArgs w)).
Proof.
  intros Hflag.
  pose proof (others_stay_refl p) as R_refl. pose proof (others_stay_trans p) as R_trans.
  pose proof (sessions_related_refl _ R_refl) as I_refl.
  pose proof (sessions_related_trans _ R_trans) as I_trans.
  assert (Hlook : invariant (sessions_related (others_stay p))
                    (DoCommand (pred fuel) p "look")).
  { apply inv_look; try assumption; solve [sessions R_refl]. }
  destruct fuel as [|fuel]; [apply I_refl|].
  rewrite ProcessCommand_S.
  apply (inv_dispatch (sessions_related (others_stay p)));
    try exact I_refl; try exact I_trans; try solve [sessions R_refl]; intros.
  - apply inv_DoDirection; try assumption; try solve [sessions R_refl]; try apply Hlook.
  - apply inv_DoShutdown; try assumption; solve [sessions R_refl].
  - apply inv_DoGoTo; try assumption; try solve [sessions R_refl]; try apply Hlook.
  - rewrite DoTransfer_refused by exact Hflag. apply I_refl.
  - apply inv_DoSetFlag; try assumption; solve [sessions R_refl].
  - apply inv_DoClearFlag; try assumption; solve [sessions R_refl].
Qed.

Lemma ProcessCommand_all_stay fuel p sArgs w :
  HaveFlag (player_at w p) "can_goto" = false ->
  HaveFlag (player_at w p) "can_transfer" = false ->
  set_find (fst (read_string "" sArgs)) (directionset w) = false ->
  sessions_related all_stay w (fst (ProcessCommand fuel p sArgs w)).
Proof.
  intros Hgoto Htransfer Hdir.
  pose proof all_stay_refl as R_refl.
  pose proof (sessions_related_refl _ R_refl) as I_refl.
  pose proof (sessions_related_trans _ all_stay_trans) as I_trans.
  destruct fuel as [|fuel]; [apply I_refl|].
  rewrite ProcessCommand_S.
  apply (inv_dispatch (sessions_related all_stay));
    try exact I_refl; try exact I_trans; try solve [sessions R_refl]; intros.
  - congruence.
  - apply inv_DoShutdown; try assumption; solve [sessions R_refl].
  - rewrite DoGoTo_refused by exact Hgoto. apply I_refl.
  - rewrite DoTransfer_refused by exact Htransfer. apply I_refl.
  - apply inv_DoSetFlag; try assumption; solve [sessions R_refl].
  - apply inv_DoClearFlag; try assumption; solve [sessions R_refl].
Qed.

(** X8.  Privileges.  Whatever command a session types: without the flag
    "can_shutdown" the shutdown request stays as it was; without
    "can_setflag" every session keeps its flag set; without "can_transfer"
    every other session stays in its room; and without "can_goto" and
    "can_transfer", unless the verb is a direction, every session stays in
    its room. *)
Theorem command_privileges (fuel p : nat) (sArgs : istream) (w : World) :
  let w' := fst (ProcessCommand fuel p sArgs w) in
  (HaveFlag (player_at w p) "can_shutdown" = false -> bStopNow w' = bStopNow w)
  /\ (HaveFlag (player_at w p) "can_setflag" = false ->
      forall q, flags (player_at w' q) = flags (player_at w q))
  /\ (HaveFlag (player_at w p) "can_transfer" = false ->
      forall q, q <> p -> room (player_at w' q) = room (player_at w q))
  /\ (HaveFlag (player_at w p) "can_goto" = false ->
      HaveFlag (player_at w p) "can_transfer" = false ->
      set_find (fst (read_string "" sArgs)) (directionset w) = false ->
      forall q, room (player_at w' q) = room (player_at w q)).
Proof.
  intros w'. split; [|split; [|split]].
  - apply ProcessCommand_not_stopped.
  - intros H q. apply (related_player_at flags same_flags _ _ q
                         (ProcessCommand_same_flags fuel p sArgs w H)). auto.
  - intros H q Hq. apply (related_player_at room (others_stay p) _ _ q
                            (ProcessCommand_others_stay fuel p sArgs w H)). auto.
  - intros H1 H2 H3 q.
    apply (related_player_at room all_stay _ _ q
             (ProcessCommand_all_stay fuel p sArgs w H1 H2 H3)).
    auto.
Qed.

(** ** Lookups by name *)

Lemma find_if_first {A} (f : A -> bool) l i :
  find_if f l = Some i <->
  (exists x, l !! i = Some x /\ f x = true)
  /\ (forall j y, (j < i)%nat -> l !! j = Some y -> f y = false).
Proof.
  revert i. induction l as [|x l IH]; intros i; simpl.
  - split; [discriminate|]. intros [(y & Hy & _) _]. discriminate.
  - destruct (f x) eqn:Hx.
    + split.
      * intros [= <-]. split; [eauto|]. intros j y Hj. lia.
      * intros [(y & Hy & Hfy) Hmin]. destruct i as [|i]; [reflexivity|].
        specialize (Hmin O x ltac:(lia) eq_refl). congruence.
    + destruct i as [|i].
      * split.
        -- destruct (find_if f l); discriminate.
        -- intros [(y & [= ->] & Hfy) _]. congruence.
      * specialize (IH i). destruct (find_if f l) as [k|]; simpl.
        -- split.
           ++ intros [= ->]. destruct IH as [IH _]. destruct (IH eq_refl) as [Hex Hmin].
              split; [exact Hex|]. intros [|j] y Hj Hy; simpl in Hy.
              ** congruence.
              ** apply (Hmin j); [lia|exact Hy].
           ++ intros [Hex Hmin]. f_equal. destruct IH as [_ IH]. 
              assert (Some k = Some i) as [= ->]; [|reflexivity].
              apply IH. split; [exact Hex|]. intros j y Hj Hy.
              apply (Hmin (S j)); [lia|exact Hy].
        -- split; [discriminate|]. intros [Hex Hmin]. destruct IH as [_ IH].
           discriminate IH. split; [exact Hex|]. intros j y Hj Hy.
           apply (Hmin (S j)); [lia|exact Hy].
Qed.

Lemma find_if_None {A} (f : A -> bool) l :
  find_if f l = None <-> forall i x, l !! i = Some x -> f x = false.
Proof.
  induction l as [|x l IH]; simpl.
  - split; [intros _ i x; discriminate|reflexivity].
  - destruct (f x) eqn:Hx.
    + split; [discriminate|]. intros H. specialize (H O x eq_refl). congruence.
    + destruct (find_if f l) as [k|]; simpl.
      * split; [discriminate|]. intros H. destruct IH as [_ IH]. discriminate IH.
        intros i y Hy. apply (H (S i)), Hy.
      * split; [|reflexivity]. intros _ [|i] y Hy; simpl in Hy.
        -- congruence.
        -- destruct IH as [IH _]. apply (IH eq_refl i), Hy.
Qed.

(** X9.  [FindPlayer] returns the first session of the list that is playing
    (connected, in the Playing state, not closing) and whose name is the
    given one up to letter case, and [NULL] exactly when there is none. *)
Theorem FindPlayer_spec (w : World) (name : string) :
  (forall i, FindPlayer w name = Some i <->
     (exists x, playerlist w !! i = Some x /\ IsPlaying x = true
                /\ ciStringEqual (playername x) name = true)
     /\ (forall j y, (j < i)%nat -> playerlist w !! j = Some y ->
           IsPlaying y = false \/ ciStringEqual (playername y) name = false))
  /\ (FindPlayer w name = None <->
      forall i x, playerlist w !! i = Some x -> IsPlaying x = true ->
        ciStringEqual (playername x) name = false).
Proof.
  unfold FindPlayer. split.
  - intros i. rewrite find_if_first. unfold findPlayerName. split.
    + intros [(x & Hx & Hf) Hmin]. apply andb_true_iff in Hf as [H1 H2]. split; [eauto|].
      intros j y Hj Hy. apply andb_false_iff, (Hmin j y Hj Hy).
    + intros [(x & Hx & H1 & H2) Hmin]. split.
      * exists x. rewrite H1, H2. auto.
      * intros j y Hj Hy. apply andb_false_iff, (Hmin j y Hj Hy).
  - rewrite find_if_None. unfold findPlayerName. split.
    + intros H i x Hx Hp. specialize (H i x Hx). rewrite Hp in H. exact H.
    + intros H i x Hx. destruct (IsPlaying x) eqn:Hp; [|reflexivity]. apply (H i x Hx Hp).
Qed.

(** ** Verbs that are not commands *)

Lemma ProcessCommand_huh fuel p sArgs w :
  set_find (fst (read_string "" sArgs)) (directionset w) = false ->
  commandmap_find commandmap (fst (read_string "" sArgs)) = None ->
  ProcessCommand (S fuel) p sArgs w = (w, Threw "Huh?").
Proof.
  intros Hd Hc. rewrite ProcessCommand_S. unfold bind, get_world. cbv beta iota.
  rewrite Hd, Hc. reflexivity.
Qed.

(** X10.  A playing session that types a line whose first word is neither a
    direction (up to letter case) nor one of the twelve command words
    (letter for letter) gets "Huh?", a line end and its prompt, and nothing
    else changes.  The empty line is such a line, and so is a command word
    in upper case. *)
Theorem unknown_verb (fuel p : nat) (s : string) (w : World) (pl : tPlayer) :
  playerlist w !! p = Some pl ->
  connstate pl = ePlaying ->
  set_find (typed s) (directionset w) = false ->
  ~ In (typed s) (map fst commandmap) ->
  ProcessPlayerInput (S fuel) p s w = (put_at p ("Huh?" ++ nl ++ prompt pl) w, Done tt).
Proof.
  intros Hp Hst Hd Hc. rewrite ProcessPlayerInput_run.
  rewrite (player_at_lookup _ _ _ Hp), Hst. cbn [statemap]. cbv zeta.
  rewrite ProcessCommand_huh; [| exact Hd |].
  - cbn [fst snd]. rewrite (player_at_lookup _ _ _ Hp). reflexivity.
  - fold (typed s). revert Hc. generalize (typed s) as c. intros c.
    unfold commandmap. cbn [commandmap_find map fst In].
    intros Hc.
    repeat (destruct (String.eqb _ c) eqn:E;
            [apply String.eqb_eq in E; exfalso; apply Hc; tauto|clear E]).
    reflexivity.
Qed.

Lemma unknown_verb_witness :
  ProcessPlayerInput 1 0 "LOOK" ex_two_players
  = (put_at 0 ("Huh?" ++ nl ++ "> ") ex_two_players, Done tt)
  /\ ProcessPlayerInput 1 0 "" ex_two_players
     = (put_at 0 ("Huh?" ++ nl ++ "> ") ex_two_players, Done tt).
Proof.
  split.
  - apply (unknown_verb 0 0 "LOOK" ex_two_players _ eq_refl eq_refl eq_refl).
    vm_compute. intuition discriminate.
  - apply (unknown_verb 0 0 "" ex_two_players _ eq_refl eq_refl eq_refl).
    vm_compute. intuition discriminate.
Defined.

(** ** Removing the sessions that are gone *)








(** ** Reading lines *)

Lemma find_char_none c s :
  str_all (fun d => negb (Ascii.eqb d c)) s = true -> find_char c s = None.
Proof.
  induction s as [|d s IH]; [reflexivity|]. simpl. intros H.
  apply andb_true_iff in H as [Hd Hs]. apply negb_true_iff in Hd.
  rewrite Hd, (IH Hs). reflexivity.
Qed.

Lemma str_length_app a b : String.length (a ++ b) = (String.length a + String.length b)%nat.
Proof.
  induction a as [|c a IH]; [reflexivity|]. rewrite string_app_cons. simpl. rewrite IH.
  reflexivity.
Qed.

Lemma update_at_set_inbuf_twice p a b w :
  update_at p (set_inbuf b) (update_at p (set_inbuf a) w) = update_at p (set_inbuf b) w.
Proof.
  unfold update_at. simpl. rewrite list_alter_alter_eq. f_equal.
Qed.

Lemma read_lines_feed fuel p rest :
  no_nl rest = true ->
  forall ls n w pl,
    Forall (fun l => no_nl l = true) ls ->
    playerlist w !! p = Some pl ->
    inbuf pl = join_lines ls rest ->
    (String.length (inbuf pl) < n)%nat ->
    read_lines n fuel p w = feed_lines fuel p ls rest w.
Proof.
  intros Hrest ls. induction ls as [|l ls IH]; intros n w pl Hls Hp Hin Hn.
  - destruct n as [|n]; [lia|]. cbn [read_lines feed_lines].
    unfold bind, get. rewrite (player_at_lookup _ _ _ Hp), Hin. cbn [join_lines].
    rewrite (find_char_none _ _ Hrest). rewrite modify_run. unfold ret. f_equal.
    unfold update_at. rewrite (alter_same _ _ _ pl Hp).
    + destruct w; reflexivity.
    + cbn [join_lines] in Hin. rewrite <- Hin. destruct pl; reflexivity.
  - destruct n as [|n]; [lia|]. cbn [read_lines feed_lines].
    apply Forall_cons in Hls as [Hl Hls].
    unfold bind at 1, get. rewrite (player_at_lookup _ _ _ Hp), Hin.
    cbv beta iota. cbn [join_lines].
    change (l ++ nl ++ join_lines ls rest)
      with (l ++ String (ascii_of_nat 10) (join_lines ls rest)).
    rewrite (find_char_app_no _ _ _ Hl), str_take_app.
    change (S (String.length l))
      with (String.length (String (ascii_of_nat 10) "") + String.length l)%nat.
    assert (Hdrop : str_drop (S (String.length l))
                      (l ++ String (ascii_of_nat 10) (join_lines ls rest))
                    = join_lines ls rest).
    { clear. induction l as [|c l IHl]; [reflexivity|].
      rewrite string_app_cons. exact IHl. }
    change (String.length (String (ascii_of_nat 10) "") + String.length l)%nat
      with (S (String.length l)).
    rewrite Hdrop.
    unfold bind at 1 3. rewrite modify_run. cbv beta iota.
    set (w1 := update_at p (set_inbuf (join_lines ls rest)) w).
    assert (Hp1 : playerlist w1 !! p = Some (set_inbuf (join_lines ls rest) pl)).
    { apply lookup_update_at_eq, Hp. }
    pose proof (keeps_ProcessPlayerInput p fuel (Trim l SPACES) w1) as (_ & _ & Hrel).
    destruct (Hrel p _ Hp1) as (pl2 & Hp2 & Hserved).
    unfold line_of in Hserved. rewrite decide_True in Hserved by reflexivity.
    destruct Hserved as (_ & _ & _ & Hin2 & _). simpl in Hin2.
    unfold bind. destruct (ProcessPlayerInput fuel p (Trim l SPACES) w1) as [w2 [[]|e|]];
      try reflexivity.
    simpl in Hp2. apply (IH n w2 pl2 Hls Hp2 Hin2).
    rewrite Hin2. rewrite Hin in Hn. cbn [join_lines] in Hn.
    rewrite !str_length_app in Hn. simpl in Hn. lia.
Qed.

(** X12.  A read that brought bytes to a session that is not closing: the
    bytes are appended to the pending input; every complete line of it is
    given to the dispatch boundary, in order and trimmed, while the pending
    input is what follows that line; what follows the last line end stays
    pending.  So a read without a line end only buffers, and the lines that
    follow a "quit" in the same read are still processed. *)
Theorem ProcessRead_lines (fuel p : nat) (nRead errno : Z) (buf : string)
    (w : World) (pl : tPlayer) (ls : list string) (rest : string) :
  playerlist w !! p = Some pl ->
  closing pl = false ->
  0 < nRead ->
  inbuf pl ++ str_take (Z.to_nat nRead) buf = join_lines ls rest ->
  Forall (fun l => no_nl l = true) ls ->
  no_nl rest = true ->
  ProcessRead fuel p nRead errno buf w = feed_lines fuel p ls rest w.
Proof.
  intros Hp Hcl Hn Hin Hls Hrest.
  unfold ProcessRead. unfold bind at 1, get at 1. cbv beta iota.
  rewrite (player_at_lookup _ _ _ Hp), Hcl.
  replace (nRead =? -1) with false by (symmetry; apply Z.eqb_neq; lia).
  replace (nRead <=? 0) with false by (symmetry; apply Z.leb_gt; lia).
  rewrite Hin. unfold bind at 1. rewrite modify_run. cbv beta iota.
  set (w1 := update_at p (set_inbuf (join_lines ls rest)) w).
  assert (Hp1 : playerlist w1 !! p = Some (set_inbuf (join_lines ls rest) pl)).
  { apply lookup_update_at_eq, Hp. }
  unfold bind, get. rewrite (player_at_lookup _ _ _ Hp1).
  rewrite (read_lines_feed fuel p rest Hrest ls _ w1 _ Hls Hp1 eq_refl) by (simpl; lia).
  destruct ls as [|l ls]; cbn [feed_lines].
  - rewrite !modify_run. unfold w1. rewrite update_at_set_inbuf_twice. reflexivity.
  - unfold bind at 1 3. rewrite !modify_run. unfold w1.
    rewrite update_at_set_inbuf_twice. reflexivity.
Qed.

Lemma ProcessRead_lines_witness :
  ProcessRead 2 0 9 0 ("quit" ++ nl ++ "l" ++ nl ++ "sa") ex_two_players
  = feed_lines 2 0 ["quit"; "l"] "sa" ex_two_players
  /\ ProcessRead 2 0 3 0 "loo" ex_two_players
     = (update_at 0 (set_inbuf "loo") ex_two_players, Done tt).
Proof.
  split.
  - apply (ProcessRead_lines 2 0 9 0 _ ex_two_players _ ["quit"; "l"] "sa" eq_refl eq_refl).
    + lia.
    + reflexivity.
    + repeat constructor.
    + reflexivity.
  - apply (ProcessRead_lines 2 0 3 0 _ ex_two_players _ [] "loo" eq_refl eq_refl).
    + lia.
    + reflexivity.
    + constructor.
    + reflexivity.
Defined.

(** ** The login dialogue *)

Lemma span_token_all s :
  str_all (fun c => negb (isspace c)) s = true -> span_token s = (s, "").
Proof.
  induction s as [|c s IH]; [reflexivity|]. simpl. intros H.
  apply andb_true_iff in H as [Hc Hs]. apply negb_true_iff in Hc.
  rewrite Hc, (IH Hs). reflexivity.
Qed.

Lemma typed_token s : is_token s = true -> typed s = s.
Proof.
  intros H. unfold typed, read_string, sentry, istringstream, good.
  cbn [eofbit failbit rest negb andb].
  pose proof (skip_spaces_token s "" H) as Hs. rewrite string_app_nil_r in Hs. rewrite Hs.
  pose proof (is_token_nonempty s "" H) as Hn. rewrite string_app_nil_r in Hn. rewrite Hn.
  cbn [rest]. unfold is_token in H. apply andb_true_iff in H as [_ H].
  rewrite (span_token_all _ H). reflexivity.
Qed.

Lemma valid_char_not_space c : str_mem c valid_player_name = true -> isspace c = false.
Proof. destruct c as [[] [] [] [] [] [] [] []]; vm_compute; congruence. Qed.

Lemma valid_is_token s :
  str_empty s = false -> has_char_not_of valid_player_name s = false -> is_token s = true.
Proof.
  intros Hne Hv. unfold is_token. rewrite Hne. cbn [negb andb].
  unfold has_char_not_of in Hv. clear Hne.
  induction s as [|c s IH]; [reflexivity|]. cbn [find_first_not_of str_all] in *.
  destruct (str_mem c valid_player_name) eqn:Hc; [|discriminate].
  rewrite (valid_char_not_space _ Hc). cbn [negb andb]. apply IH.
  destruct (find_first_not_of valid_player_name s); [discriminate|reflexivity].
Qed.



(** ** Opening the path of a player file *)











(** The test follows the path as the file system does: with a record for
    "Alice" on disk, the texts "./alice" and ".//alice" lead to her file and
    a text that starts with a NUL byte leads to the directory of the player
    files; a path through a directory that does not exist leads nowhere. *)
Lemma player_file_exists_resolves :
  let w := ex_world [] {[ player_path "Alice" := "hunter2" ++ nl ++ "1000" ++ nl ++ nl ]} in
  player_file_exists w "alice" = true /\ player_file_exists w "./alice" = true /\
  player_file_exists w ".//alice" = true /\
  player_file_exists w (String (ascii_of_nat 0) "x") = true /\
  player_file_exists w "x/../alice" = false /\ player_file_exists w "bob" = false.
Proof. vm_compute. repeat split. Qed.

Lemma ProcessPlayerInput_step fuel p s w pl x :
  playerlist w !! p = Some pl ->
  statemap fuel (connstate pl) p (istringstream s) w = (update_at p (fun _ => x) w, Done tt) ->
  ProcessPlayerInput fuel p s w = (update_at p (fun _ => put (prompt x) x) w, Done tt).
Proof.
  intros Hp Hh. rewrite ProcessPlayerInput_run, (player_at_lookup _ _ _ Hp), Hh.
  cbn [fst snd]. rewrite (player_at_lookup _ p x) by (eapply lookup_update_at_const, Hp).
  rewrite put_at_update, update_at_update_at. reflexivity.
Qed.






Lemma ProcessPlayerName_recognised dc p s w pl content pw rm fl :
  playerlist w !! p = Some pl ->
  typed s <> "" ->
  has_char_not_of valid_player_name (typed s) = false ->
  tolower (typed s) <> "new" ->
  FindPlayer w (typed s) = None ->
  files w !! player_path (tocapitals (typed s)) = Some content ->
  content = pw ++ nl ++ string_of_Z rm ++ nl
            ++ String.concat "" (map (fun f => f ++ " ") fl) ++ nl ->
  is_token pw = true ->
  INT_MIN <= rm <= INT_MAX ->
  Forall (fun f => is_token f = true) fl ->
  Sorted.StronglySorted (fun a b => ciLess a b = true) fl ->
  fl <> [] ->
  ProcessPlayerName dc p (istringstream s) w
  = (update_at p (fun _ => recognised (typed s) pw rm fl pl) w, Done tt).
Proof.
  intros Hp Hne Hv Hnew Hfind Hfile Hc Hpw Hrm Hall Hs Hfl.
  unfold ProcessPlayerName. unfold typed in *.
  destruct (read_string "" (istringstream s)) as [name i]. simpl in *.
  rewrite (str_empty_false _ Hne).
  unfold bind at 1, get_world. cbv beta iota. rewrite Hfind, Hv.
  replace (String.eqb (tolower name) "new") with false
    by (symmetry; apply String.eqb_neq, Hnew).
  unfold bind at 1. rewrite modify_run. cbv beta iota.
  set (w1 := update_at p (set_playername (tocapitals name)) w).
  assert (Hp1 : playerlist w1 !! p = Some (set_playername (tocapitals name) pl)).
  { apply lookup_update_at_eq, Hp. }
  unfold bind at 1.
  rewrite (Load_of_saved p w1 _ content pw rm fl Hp1 Hfile Hc Hpw Hrm Hall Hs Hfl).
  cbv beta iota. unfold bind; repeat (rewrite modify_run; cbv beta iota). unfold w1. rewrite !update_at_update_at.
  rewrite (update_at_const p _ w pl Hp). reflexivity.
Qed.


(** *** Entering the game *)

Lemma unless_look_moves_refl w : unless_look_moves w w.
Proof. intros _. apply sessions_related_refl, all_stay_refl. Qed.

Lemma unless_look_moves_trans w1 w2 w3 :
  unless_look_moves w1 w2 -> unless_look_moves w2 w3 -> unless_look_moves w1 w3.
Proof.
  intros H1 H2 H. specialize (H1 H).
  assert (Hd : directionset w2 = directionset w1) by apply H1.
  rewrite <- Hd in H. specialize (H2 H).
  eapply sessions_related_trans; [apply all_stay_trans|exact H1|exact H2].
Qed.

Lemma unless_look_moves_grant {A} (m : M A) :
  invariant (sessions_related all_stay) m -> invariant unless_look_moves m.
Proof. intros H w _. apply H. Qed.

Lemma look_unless_look_moves fuel q : invariant unless_look_moves (DoCommand fuel q "look").
Proof.
  intros w H. destruct fuel as [|n]; [apply sessions_related_refl, all_stay_refl|].
  rewrite (DoCommand_look n q w H).
  pose proof all_stay_refl as R_refl.
  apply inv_DoLook;
    first [ apply sessions_related_refl, all_stay_refl
          | apply sessions_related_trans, all_stay_trans
          | sessions R_refl ].
Qed.

Lemma bind_modify {A} p f (k : unit -> M A) w : bind (modify p f) k w = k tt (update_at p f w).
Proof. reflexivity. Qed.

(** The session that entered the game: it is playing, with the game's
    prompt, under the name and the password it had; its flags are the same
    and, unless "look" is a direction, its room. *)
Lemma PlayerEnteredGame_fields fuel p message w pl :
  playerlist w !! p = Some pl ->
  exists pl',
    playerlist (fst (PlayerEnteredGame (DoCommand fuel) p message w)) !! p = Some pl' /\
    connstate pl' = ePlaying /\ prompt pl' = PROMPT /\
    playername pl' = playername pl /\ password pl' = password pl /\
    sock pl' = sock pl /\ closing pl' = closing pl /\
    flags pl' = flags pl /\
    (set_find "look" (directionset w) = false -> room pl' = room pl).
Proof.
  intros Hp. unfold PlayerEnteredGame. rewrite !bind_modify, update_at_update_at.
  set (w2 := update_at p _ w).
  assert (Hp2 : playerlist w2 !! p = Some (set_prompt PROMPT (set_connstate ePlaying pl))).
  { exact (lookup_update_at_eq p _ w pl Hp). }
  match goal with |- context [fst (?m w2)] => set (tail := m) end.
  assert (H1 : keeps (fun _ => grown) tail).
  { pose proof (fun q : nat => grown_refl) as R_refl.
    pose proof (fun q : nat => grown_trans) as R_trans.
    unfold tail.
    repeat lazymatch goal with
           | |- keeps _ (DoCommand _ _ "look") =>
               apply keeps_look; [exact R_refl|exact R_trans|auto]
           | |- _ => keeps_step R_refl R_trans
           end. }
  assert (H2 : invariant (sessions_related same_flags) tail).
  { pose proof same_flags_refl as R_refl.
    pose proof (sessions_related_refl _ R_refl) as I_refl.
    pose proof (sessions_related_trans _ same_flags_trans) as I_trans.
    unfold tail.
    repeat lazymatch goal with
           | |- invariant _ (DoCommand _ _ "look") =>
               apply inv_look; try assumption; solve [sessions R_refl]
           | |- invariant _ (send _ _) => solve [sessions R_refl]
           | |- invariant _ (SendToAll _ _ _) => solve [sessions R_refl]
           | |- invariant _ (log _) => solve [sessions R_refl]
           | |- _ => inv_step I_refl I_trans
           end. }
  assert (H3 : invariant unless_look_moves tail).
  { pose proof all_stay_refl as R_refl.
    unfold tail.
    repeat lazymatch goal with
           | |- invariant _ (DoCommand _ _ "look") => apply look_unless_look_moves
           | |- invariant _ (send _ _) => apply unless_look_moves_grant; solve [sessions R_refl]
           | |- invariant _ (SendToAll _ _ _) =>
               apply unless_look_moves_grant; solve [sessions R_refl]
           | |- invariant _ (log _) => apply unless_look_moves_grant; solve [sessions R_refl]
           | |- _ => inv_step unless_look_moves_refl unless_look_moves_trans
           end. }
  destruct (H1 w2) as (_ & _ & G1). destruct (G1 p _ Hp2) as (pl' & Hp' & Hg).
  destruct (H2 w2) as (_ & _ & G2). destruct (G2 p _ Hp2) as (pl2 & Hp2' & Hf).
  rewrite Hp' in Hp2'. injection Hp2' as <-.
  exists pl'. split; [exact Hp'|].
  destruct Hg as (((Hsock & _ & _ & _ & _) & Hst & Hpr & Hn & Hpw & _) & Hcl).
  simpl in *. repeat split; try assumption.
  intros Hlook. destruct (H3 w2 Hlook) as (_ & _ & G3).
  destruct (G3 p _ Hp2) as (pl3 & Hp3 & Hr). rewrite Hp' in Hp3. injection Hp3 as <-.
  exact Hr.
Qed.

(** *** A new player *)


Lemma ProcessPlayerInput_entered fuel p s w pl message :
  playerlist w !! p = Some pl ->
  statemap fuel (connstate pl) p (istringstream s) w
  = PlayerEnteredGame (DoCommand fuel) p message w ->
  exists pl',
    playerlist (fst (ProcessPlayerInput fuel p s w)) !! p = Some pl' /\
    connstate pl' = ePlaying /\ prompt pl' = PROMPT /\
    playername pl' = playername pl /\ password pl' = password pl /\
    sock pl' = sock pl /\ closing pl' = closing pl /\
    flags pl' = flags pl /\
    (set_find "look" (directionset w) = false -> room pl' = room pl).
Proof.
  intros Hp Hh. rewrite ProcessPlayerInput_run, (player_at_lookup _ _ _ Hp), Hh. cbv zeta.
  destruct (PlayerEnteredGame_fields fuel p message w pl Hp) as (pl' & Hp' & Hfields).
  destruct (PlayerEnteredGame (DoCommand fuel) p message w) as [w1 [[]|e|]];
    cbn [fst snd] in *.
  - exists (put (prompt (player_at w1 p)) pl'). rewrite put_at_update.
    split; [apply lookup_update_at_eq, Hp'|exact Hfields].
  - exists (put (c_str e ++ nl ++ prompt (player_at w1 p)) pl'). rewrite put_at_update.
    split; [apply lookup_update_at_eq, Hp'|exact Hfields].
  - exists pl'. split; [exact Hp'|exact Hfields].
Qed.



(** *** A returning player *)

Lemma DoLook_done dc p w pl r :
  playerlist w !! p = Some pl ->
  roommap w !! room pl = Some r ->
  snd (DoLook dc p {| rest := ""; eofbit := true; failbit := true |} w) = Done tt.
Proof.
  intros Hp Hr. unfold DoLook.
  change (NoMore p {| rest := ""; eofbit := true; failbit := true |}) with (@ret unit tt).
  unfold bind at 1, ret at 1. cbv beta iota.
  unfold bind at 1, get at 1. cbv beta iota. rewrite (player_at_lookup _ _ _ Hp).
  unfold bind at 1, FindRoom at 1. rewrite Hr. cbv beta iota.
  unfold bind, send, modify, when, get_world, ret. cbv beta iota.
  destruct (negb (bool_decide (exits r = []))); cbv beta iota;
    destruct (look_others _ _ _ _ _) as [t n]; cbv beta iota;
    destruct (negb (Nat.eqb n 0)); reflexivity.
Qed.

Lemma PlayerEnteredGame_done fuel p message w pl r :
  playerlist w !! p = Some pl ->
  roommap w !! room pl = Some r ->
  set_find "look" (directionset w) = false ->
  snd (PlayerEnteredGame (DoCommand (S fuel)) p message w) = Done tt.
Proof.
  intros Hp Hr Hlook. unfold PlayerEnteredGame. rewrite !bind_modify, update_at_update_at.
  unfold bind at 1, get at 1. cbv beta iota. unfold send.
  rewrite !bind_modify. unfold bind at 1, get_world at 1. cbv beta iota.
  rewrite bind_modify, !update_at_update_at.
  match goal with |- snd (_ ?w0) = _ => set (w5 := w0) end.
  assert (Hp5 : exists pl5, playerlist w5 !! p = Some pl5 /\ room pl5 = room pl).
  { eexists. split; [exact (lookup_update_at_eq p _ w pl Hp)|reflexivity]. }
  destruct Hp5 as (pl5 & Hp5 & Hroom).
  unfold bind at 1. rewrite (DoCommand_look fuel p w5 Hlook).
  assert (Hr5 : roommap w5 !! room pl5 = Some r) by (rewrite Hroom; exact Hr).
  pose proof (DoLook_done (DoCommand fuel) p w5 pl5 r Hp5 Hr5) as Hdone.
  destruct (DoLook _ _ _ w5) as [w6 o]. simpl in Hdone. subst o. reflexivity.
Qed.

Lemma ProcessPlayerPassword_accepted fuel p s w pl r :
  playerlist w !! p = Some pl ->
  typed s = password pl ->
  password pl <> "" ->
  HaveFlag pl "blocked" = false ->
  roommap w !! room pl = Some r ->
  set_find "look" (directionset w) = false ->
  ProcessPlayerPassword (DoCommand (S fuel)) p (istringstream s) w
  = PlayerEnteredGame (DoCommand (S fuel)) p (message_of (messagemap w) "existing_player") w.
Proof.
  intros Hp Ht Hne Hb Hr Hlook. unfold ProcessPlayerPassword, try_catch. unfold typed in Ht.
  destruct (read_string "" (istringstream s)) as [pw i]. simpl in Ht. subst pw.
  rewrite (str_empty_false _ Hne).
  unfold bind at 1, get at 1. cbv beta iota. rewrite (player_at_lookup _ _ _ Hp).
  rewrite String.eqb_refl, Hb. cbn [negb]. cbv iota.
  unfold bind at 1, get_world at 1. cbv beta iota.
  pose proof (PlayerEnteredGame_done fuel p (message_of (messagemap w) "existing_player")
                w pl r Hp Hr Hlook) as Hdone.
  destruct (PlayerEnteredGame _ _ _ w) as [w1 o]. simpl in Hdone. subst o. reflexivity.
Qed.

(** X14.  A returning player.  A session at the name prompt that types the
    name of a saved player and then the saved password is playing under the
    capitalised name, in the saved room and with the saved flags, when: the
    name is valid, is not "new" and not the name of a playing session; the
    player file is the one [Save] writes for a record with a one-word
    password, a room number that fits an [int], and a non-empty set of
    one-word flags without "blocked"; the saved room exists and "look" is
    not a direction. *)
Theorem returning_player (fuel p : nat) (w : World) (pl r : tPlayer) (name : string)
    (rm : tRoom) :
  playerlist w !! p = Some pl ->
  connstate pl = eAwaitingName ->
  name <> "" ->
  has_char_not_of valid_player_name name = false ->
  tolower name <> "new" ->
  FindPlayer w name = None ->
  files w !! player_path (tocapitals name) = Some (player_file r) ->
  is_token (password r) = true ->
  INT_MIN <= room r <= INT_MAX ->
  Forall (fun f => is_token f = true) (flags r) ->
  Sorted.StronglySorted (fun a b => ciLess a b = true) (flags r) ->
  flags r <> [] ->
  HaveFlag r "blocked" = false ->
  roommap w !! room r = Some rm ->
  set_find "look" (directionset w) = false ->
  exists pl',
    playerlist (run_lines (S fuel) p [name; password r] w) !! p = Some pl' /\
    connstate pl' = ePlaying /\ prompt pl' = PROMPT /\
    playername pl' = tocapitals name /\ password pl' = password r /\
    room pl' = room r /\ flags pl' = flags r /\
    sock pl' = sock pl /\ closing pl' = closing pl.
Proof.
  intros Hp Hst Hne Hv Hnew Hfind Hfile Hpw Hroom Hall Hsorted Hfl Hb Hrm Hlook.
  assert (Hname : typed name = name) by (apply typed_token, valid_is_token;
                                          [apply str_empty_false, Hne|exact Hv]).
  assert (Htpw : typed (password r) = password r) by (apply typed_token, Hpw).
  assert (Hpwne : password r <> "") by (intros E; rewrite E in Hpw; discriminate Hpw).
  unfold run_lines. cbn [fold_left].
  set (a1 := recognised name (password r) (room r) (flags r) pl).
  rewrite (ProcessPlayerInput_step (S fuel) p name w pl a1 Hp).
  2:{ rewrite Hst. cbn [statemap].
      pose proof (ProcessPlayerName_recognised (DoCommand (S fuel)) p name w pl
                    (player_file r) (password r) (room r) (flags r) Hp) as X.
      rewrite Hname in X. apply X; try assumption. reflexivity. }
  cbn [fst].
  set (x1 := put (prompt a1) a1).
  set (w1 := update_at p (fun _ => x1) w).
  assert (Hp1 : playerlist w1 !! p = Some x1) by (eapply lookup_update_at_const, Hp).
  destruct (ProcessPlayerInput_entered (S fuel) p (password r) w1 x1
              (message_of (messagemap w1) "existing_player") Hp1)
    as (pl' & Hp' & H1 & H2 & H3 & H4 & H5 & H6 & H7 & H8).
  { change (connstate x1) with eAwaitingPassword. cbn [statemap].
    apply (ProcessPlayerPassword_accepted fuel p (password r) w1 x1 rm Hp1);
      try assumption. }
  exists pl'. split; [exact Hp'|]. repeat split; try assumption.
  apply H8. exact Hlook.
Qed.

Lemma returning_player_witness :
  exists pl',
    playerlist (run_lines 1 0 ["dave"; "pw123"] ex_dave_returns) !! 0%nat = Some pl' /\
    connstate pl' = ePlaying /\ prompt pl' = PROMPT /\
    playername pl' = "Dave" /\ password pl' = "pw123" /\
    room pl' = 1000 /\ flags pl' = ["can_goto"] /\
    sock pl' = 7 /\ closing pl' = false.
Proof.
  apply (returning_player 0 0 ex_dave_returns (new_tPlayer 7 4000 "10.0.0.9") ex_dave
           "dave" (mk_room ("The town square." ++ nl) [("n", 1001); ("up", 4242)])).
  - reflexivity.
  - reflexivity.
  - discriminate.
  - reflexivity.
  - discriminate.
  - reflexivity.
  - apply lookup_singleton_eq.
  - reflexivity.
  - vm_compute. split; discriminate.
  - repeat constructor.
  - repeat constructor.
  - discriminate.
  - reflexivity.
  - reflexivity.
  - reflexivity.
Defined.

(** *** Names that are refused *)



(** ** Moving a player *)

Lemma bind_send {A} p msg (k : unit -> M A) w : bind (send p msg) k w = k tt (put_at p msg w).
Proof. reflexivity. Qed.

Lemma put_nil x : put "" x = x.
Proof. unfold put. rewrite string_app_nil_r. apply set_outbuf_same. Qed.

Lemma put_at_nil p w : put_at p "" w = w.
Proof.
  unfold put_at. rewrite list_alter_id by (intros x; apply put_nil).
  destruct w; reflexivity.
Qed.

Lemma look_others_names p rm l : forall i n,
  look_others p rm i l n
  = (also_see (Nat.eqb n 0)
       (map (fun ix => playername (snd ix))
          (List.filter (is_other_here p rm) (imap (fun j x => ((i + j)%nat, x)) l))),
     (n + length (List.filter (is_other_here p rm)
                    (imap (fun j x => ((i + j)%nat, x)) l)))%nat).
Proof.
  induction l as [|x l IH]; intros i n.
  - simpl. f_equal. lia.
  - cbn [look_others]. rewrite imap_cons. cbn [List.filter].
    rewrite Nat.add_0_r.
    change (negb (Nat.eqb i p) && IsPlaying x && (room x =? rm))
      with (is_other_here p rm (i, x)).
    assert (E : imap ((fun j y => ((i + j)%nat, y)) ∘ S) l
                = imap (fun j y => ((S i + j)%nat, y)) l).
    { apply imap_ext. intros j y _. simpl. f_equal. lia. }
    rewrite E.
    destruct (is_other_here p rm (i, x)).
    + rewrite IH. cbn [map also_see length snd]. f_equal. lia.
    + apply IH.
Qed.

Lemma look_others_alter p rm f l : forall i n d,
  (i + d)%nat = p ->
  look_others p rm i (alter f d l) n = look_others p rm i l n.
Proof.
  induction l as [|x l IH]; intros i n d Hd; [reflexivity|].
  destruct d as [|d].
  - cbn [alter list_alter look_others].
    replace (Nat.eqb i p) with true by (symmetry; apply Nat.eqb_eq; lia).
    reflexivity.
  - cbn [alter list_alter look_others]. change (list_alter f d l) with (alter f d l).
    rewrite !(IH (S i)) by lia. reflexivity.
Qed.

Lemma look_others_here p rm l :
  look_others p rm 0 l 0
  = (also_see true (others_here p rm l), length (others_here p rm l)).
Proof.
  rewrite look_others_names. unfold others_here. rewrite length_map. reflexivity.
Qed.

(** What [look] writes when nothing follows the verb. *)
Lemma DoLook_text dc p sArgs w pl r :
  playerlist w !! p = Some pl ->
  fst (getline "" sArgs) = "" ->
  roommap w !! room pl = Some r ->
  DoLook dc p sArgs w = (put_at p (look_text p r (playerlist w) (room pl)) w, Done tt).
Proof.
  intros Hp Hline Hr. unfold DoLook, NoMore.
  destruct (getline "" sArgs) as [sLine i]. cbn [fst] in Hline. subst sLine.
  cbn [str_empty]. unfold bind at 1, ret at 1. cbv beta iota.
  unfold bind at 1, get at 1. cbv beta iota. rewrite (player_at_lookup _ _ _ Hp).
  unfold bind at 1, FindRoom at 1. rewrite Hr. cbv beta iota.
  rewrite bind_send.
  assert (Hwhen : forall b text0 w0 (k : unit -> M unit),
            bind (when b (send p "Exits: " ;;; send p text0 ;;; send p nl)) k w0
            = k tt (put_at p (if b then "Exits: " ++ text0 ++ nl else "") w0)).
  { intros [] text0 w0 k; unfold when.
    - unfold bind at 1. rewrite !bind_send, send_run. cbv beta iota.
      rewrite !put_at_put_at. reflexivity.
    - unfold bind, ret. cbv beta iota. rewrite put_at_nil. reflexivity. }
  rewrite Hwhen. unfold bind at 1, get_world at 1. cbv beta iota.
  rewrite !put_at_put_at.
  change (playerlist (put_at p ?t w)) with (alter (put t) p (playerlist w)).
  rewrite look_others_alter by reflexivity. rewrite look_others_here.
  rewrite bind_send, put_at_put_at. unfold look_text.
  destruct (bool_decide (exits r = [])) eqn:He; cbn [negb].
  + destruct (others_here p (room pl) (playerlist w)) as [|a names] eqn:Ho.
    * cbn [length Nat.eqb negb when]. unfold ret.
      rewrite bool_decide_eq_true_2 by reflexivity.
      rewrite ?string_app_nil_r, ?string_app_assoc. reflexivity.
    * cbn [length Nat.eqb negb when]. rewrite send_run, put_at_put_at.
      rewrite bool_decide_eq_false_2 by discriminate.
      rewrite ?string_app_nil_r, ?string_app_assoc. reflexivity.
  + destruct (others_here p (room pl) (playerlist w)) as [|a names] eqn:Ho.
    * cbn [length Nat.eqb negb when]. unfold ret.
      rewrite bool_decide_eq_true_2 by reflexivity.
      rewrite ?string_app_nil_r, ?string_app_assoc. reflexivity.
    * cbn [length Nat.eqb negb when]. rewrite send_run, put_at_put_at.
      rewrite bool_decide_eq_false_2 by discriminate.
      rewrite ?string_app_nil_r, ?string_app_assoc. reflexivity.
Qed.

(** The others that [look] names do not depend on the session that looks,
    nor on anything but the state, the socket, the room and the name of the
    other sessions. *)
Lemma others_here_ext_from p rm : forall (l l' : list tPlayer) i,
  length l' = length l ->
  (forall j x x', (i + j)%nat <> p -> l !! j = Some x -> l' !! j = Some x' ->
     IsPlaying x' = IsPlaying x /\ room x' = room x /\ playername x' = playername x) ->
  map (fun ix => playername (snd ix))
    (List.filter (is_other_here p rm) (imap (fun j x => ((i + j)%nat, x)) l'))
  = map (fun ix => playername (snd ix))
      (List.filter (is_other_here p rm) (imap (fun j x => ((i + j)%nat, x)) l)).
Proof.
  induction l as [|x l IH]; intros [|x' l'] i Hlen H; try discriminate; [reflexivity|].
  assert (E : forall t : list tPlayer,
            imap ((fun j y => ((i + j)%nat, y)) ∘ S) t
            = imap (fun j y => ((S i + j)%nat, y)) t).
  { intros t. apply imap_ext. intros j y _. simpl. f_equal. lia. }
  assert (IH' := IH l' (S i) (f_equal Nat.pred Hlen)).
  rewrite !imap_cons, !E, Nat.add_0_r. cbn [List.filter].
  assert (Hhead : is_other_here p rm (i, x') = is_other_here p rm (i, x)
                  /\ (is_other_here p rm (i, x) = true -> playername x' = playername x)).
  { unfold is_other_here. cbn [fst snd]. destruct (Nat.eqb i p) eqn:Hi.
    - split; [reflexivity|discriminate].
    - apply Nat.eqb_neq in Hi.
      destruct (H O x x') as (H1 & H2 & H3); [lia|reflexivity|reflexivity|].
      rewrite H1, H2. split; [reflexivity|intros _; exact H3]. }
  destruct Hhead as [Hh Hn]. rewrite Hh.
  destruct (is_other_here p rm (i, x)).
  - cbn [map snd]. rewrite (Hn eq_refl). f_equal. apply IH'.
    intros j y y' Hj Hy Hy'. apply (H (S j)); [lia|exact Hy|exact Hy'].
  - apply IH'.
    intros j y y' Hj Hy Hy'. apply (H (S j)); [lia|exact Hy|exact Hy'].
Qed.

Lemma others_here_ext p rm (l l' : list tPlayer) :
  length l' = length l ->
  (forall q x x', q <> p -> l !! q = Some x -> l' !! q = Some x' ->
     IsPlaying x' = IsPlaying x /\ room x' = room x /\ playername x' = playername x) ->
  others_here p rm l' = others_here p rm l.
Proof. intros Hlen H. apply (others_here_ext_from p rm l l' O Hlen). exact H. Qed.

Lemma sendToPlayer_identity message except rm i x :
  IsPlaying (sendToPlayer message except rm i x) = IsPlaying x /\
  room (sendToPlayer message except rm i x) = room x /\
  playername (sendToPlayer message except rm i x) = playername x.
Proof. unfold sendToPlayer. destruct (_ && _); repeat split. Qed.

Lemma PlayerToRoom_no_room dc p vnum m1 m2 m3 w :
  roommap w !! vnum = None ->
  PlayerToRoom dc p vnum m1 m2 m3 w
  = (w, Threw ("Room number " ++ string_of_Z vnum ++ " does not exist.")).
Proof.
  intros H. unfold PlayerToRoom, bind, FindRoom. rewrite H. reflexivity.
Qed.

(** X16.  [PlayerToRoom], which the directions, [goto] and [transfer] end in.
    A room that is not in the room map: the error is raised and nothing has
    changed.  A room of the map, and "look" not a direction: the call
    returns; the player is in the new room and has got the message for the
    player followed by what looking around writes there: the description of
    the new room, its exits and the names of the other playing sessions in
    it; every other session has got the departure message if it was to get
    it in the old room, then the arrival message if it was to get it in the
    new room, and is otherwise as it was; nothing else has changed. *)
Theorem PlayerToRoom_spec (fuel p : nat) (vnum : Z) (m1 m2 m3 : string)
    (w : World) (pl : tPlayer) :
  playerlist w !! p = Some pl ->
  (roommap w !! vnum = None ->
     PlayerToRoom (DoCommand (S fuel)) p vnum m1 m2 m3 w
     = (w, Threw ("Room number " ++ string_of_Z vnum ++ " does not exist.")))
  /\ (forall r, roommap w !! vnum = Some r -> set_find "look" (directionset w) = false ->
      exists w',
        PlayerToRoom (DoCommand (S fuel)) p vnum m1 m2 m3 w = (w', Done tt) /\
        playerlist w' !! p
        = Some (set_outbuf (outbuf pl ++ m1 ++ look_text p r (playerlist w) vnum)
                  (set_room vnum pl)) /\
        (forall q x, q <> p -> playerlist w !! q = Some x ->
           playerlist w' !! q
           = Some (sendToPlayer m3 (Some p) vnum q
                     (sendToPlayer m2 (Some p) (room pl) q x))) /\
        length (playerlist w') = length (playerlist w) /\
        w' = set_playerlist (playerlist w') w).
Proof.
  intros Hp. split; [apply PlayerToRoom_no_room|].
  intros r Hr Hlook. unfold PlayerToRoom.
  unfold bind at 1, FindRoom at 1. rewrite Hr. cbv beta iota.
  unfold bind at 1, get at 1. cbv beta iota. rewrite (player_at_lookup _ _ _ Hp).
  unfold bind at 1.
  set (w1 := set_playerlist (imap (sendToPlayer m2 (Some p) (room pl)) (playerlist w)) w).
  change (SendToAll m2 (Some p) (room pl) w) with (w1, @Done unit tt). cbv beta iota.
  assert (Hp1 : playerlist w1 !! p = Some pl).
  { unfold w1. simpl. rewrite list_lookup_imap, Hp. simpl. unfold sendToPlayer.
    rewrite (bool_decide_eq_true_2 (Some p = Some p)) by reflexivity.
    rewrite andb_false_r. reflexivity. }
  rewrite bind_modify, bind_send, put_at_update, update_at_update_at.
  set (w3 := update_at p _ w1).
  assert (Hp3 : playerlist w3 !! p = Some (put m1 (set_room vnum pl))).
  { exact (lookup_update_at_eq p _ w1 pl Hp1). }
  unfold bind at 1. rewrite (DoCommand_look fuel p w3 Hlook).
  rewrite (DoLook_text (DoCommand fuel) p {| rest := ""; eofbit := true; failbit := true |}
             w3 _ r Hp3 eq_refl Hr).
  cbv beta iota. cbn [room put set_outbuf set_room].
  assert (Hothers : others_here p vnum (playerlist w3) = others_here p vnum (playerlist w)).
  { apply others_here_ext.
    - unfold w3, update_at, w1. simpl. rewrite length_alter, length_imap. reflexivity.
    - intros q x x' Hq Hx Hx'. unfold w3 in Hx'.
      rewrite lookup_update_at_ne in Hx' by congruence.
      unfold w1 in Hx'. simpl in Hx'. rewrite list_lookup_imap, Hx in Hx'.
      simpl in Hx'. injection Hx' as <-. apply sendToPlayer_identity. }
  unfold look_text. rewrite Hothers.
  fold (look_text p r (playerlist w) vnum).
  set (seen := look_text p r (playerlist w) vnum).
  unfold bind at 1, get at 1. cbv beta iota.
  assert (Hp4 : playerlist (put_at p seen w3) !! p
                = Some (put (m1 ++ seen) (set_room vnum pl))).
  { rewrite put_at_update. rewrite (lookup_update_at_eq p _ w3 _ Hp3).
    rewrite put_put. reflexivity. }
  rewrite (player_at_lookup _ _ _ Hp4). cbn [room put set_outbuf set_room].
  eexists. split; [reflexivity|]. cbn [fst SendToAll playerlist set_playerlist].
  split; [|split; [|split]].
  - rewrite list_lookup_imap, Hp4. simpl. unfold sendToPlayer.
    rewrite (bool_decide_eq_true_2 (Some p = Some p)) by reflexivity.
    rewrite andb_false_r. reflexivity.
  - intros q x Hq Hx. rewrite list_lookup_imap.
    rewrite put_at_update, lookup_update_at_ne by congruence.
    unfold w3. rewrite lookup_update_at_ne by congruence.
    unfold w1. simpl. rewrite list_lookup_imap, Hx. reflexivity.
  - rewrite length_imap. unfold put_at, w3, update_at, w1. simpl.
    rewrite !length_alter, length_imap. reflexivity.
  - reflexivity.
Qed.

Lemma PlayerToRoom_spec_witness :
  PlayerToRoom (DoCommand 1) 0 4242 "You go up" "Bob goes up" "Bob enters" ex_two_players
  = (ex_two_players, Threw ("Room number " ++ string_of_Z 4242 ++ " does not exist."))
  /\ exists w',
       PlayerToRoom (DoCommand 1) 1 1000 ("You go s" ++ nl) "Alice goes s" "Alice enters"
         ex_two_players
       = (w', Done tt) /\
       outbuf (player_at w' 1)
       = "You go s" ++ nl ++ "The town square." ++ nl ++ "Exits: n up " ++ nl
         ++ "You also see Bob." ++ nl /\
       outbuf (player_at w' 0) = "Alice goes sAlice enters".
Proof.
  pose proof (PlayerToRoom_spec 0 0 4242 "You go up" "Bob goes up" "Bob enters"
                ex_two_players _ eq_refl) as [H1 _].
  pose proof (PlayerToRoom_spec 0 1 1000 ("You go s" ++ nl) "Alice goes s" "Alice enters"
                ex_two_players _ eq_refl) as [_ H2].
  split.
  - apply H1. reflexivity.
  - destruct (H2 (mk_room ("The town square." ++ nl) [("n", 1001); ("up", 4242)]))
      as (w' & Hr & Hp & Hq & _).
    + reflexivity.
    + reflexivity.
    + exists w'. split; [exact Hr|]. split.
      * rewrite (player_at_lookup _ _ _ Hp). reflexivity.
      * rewrite (player_at_lookup _ _ _ (Hq 0%nat _ ltac:(discriminate) eq_refl)).
        reflexivity.
Defined.

(** ** Looking around *)

(** X17.  [look] for a session whose room is in the room map, with nothing
    after the verb: the session gets the description of the room, the line of
    exits when there are exits, and the names of the other playing sessions
    in the room ("You also see a, b."), in list order; nothing else changes.
    Further words after the verb, or a room that is not in the map, raise an
    error and change nothing. *)
Theorem DoLook_spec (dc : tDoCommand) (p : nat) (sArgs : istream) (w : World) (pl : tPlayer) :
  playerlist w !! p = Some pl ->
  (fst (getline "" sArgs) <> "" ->
     DoLook dc p sArgs w = (w, Threw ("Unexpected input: " ++ fst (getline "" sArgs))))
  /\ (fst (getline "" sArgs) = "" -> roommap w !! room pl = None ->
      DoLook dc p sArgs w
      = (w, Threw ("Room number " ++ string_of_Z (room pl) ++ " does not exist.")))
  /\ (fst (getline "" sArgs) = "" ->
      forall r, roommap w !! room pl = Some r ->
        DoLook dc p sArgs w
        = (put_at p (look_text p r (playerlist w) (room pl)) w, Done tt)).
Proof.
  intros Hp. split; [|split].
  - intros Hne. unfold DoLook, NoMore.
    destruct (getline "" sArgs) as [sLine i]. cbn [fst] in *.
    rewrite (str_empty_false _ Hne). reflexivity.
  - intros Hline Hr. unfold DoLook, NoMore.
    destruct (getline "" sArgs) as [sLine i]. cbn [fst] in *. subst sLine.
    cbn [str_empty]. unfold bind at 1, ret at 1. cbv beta iota.
    unfold bind at 1, get at 1. cbv beta iota. rewrite (player_at_lookup _ _ _ Hp).
    unfold bind, FindRoom. rewrite Hr. reflexivity.
  - intros Hline r Hr. exact (DoLook_text dc p sArgs w pl r Hp Hline Hr).
Qed.

Lemma DoLook_spec_witness :
  DoLook (DoCommand 0) 0 (istringstream "") ex_two_players
  = (put_at 0 ("The town square." ++ nl ++ "Exits: n up " ++ nl
               ++ "You also see Alice." ++ nl) ex_two_players, Done tt)
  /\ DoLook (DoCommand 0) 0 (istringstream "at Alice") ex_two_players
     = (ex_two_players, Threw "Unexpected input: at Alice").
Proof.
  pose proof (DoLook_spec (DoCommand 0) 0 (istringstream "") ex_two_players _ eq_refl)
    as (_ & _ & H3).
  pose proof (DoLook_spec (DoCommand 0) 0 (istringstream "at Alice") ex_two_players _ eq_refl)
    as (H1 & _).
  split.
  - apply (H3 eq_refl (mk_room ("The town square." ++ nl) [("n", 1001); ("up", 4242)])).
    reflexivity.
  - apply H1. discriminate.
Defined.

(** ** Loading a set from a line *)

Lemma set_insert_idem x s : set_insert x (set_insert x s) = set_insert x s.
Proof.
  unfold set_insert at 1. rewrite set_find_insert_same. reflexivity.
Qed.

Lemma read_string_token_end cur sp tok :
  str_all isspace sp = true -> is_token tok = true ->
  read_string cur {| rest := sp ++ tok; eofbit := false; failbit := false |}
  = (tok, {| rest := ""; eofbit := true; failbit := false |}).
Proof.
  intros Hsp Htok. unfold read_string, sentry, good. cbn [eofbit failbit rest negb andb].
  rewrite (skip_spaces_app _ _ Hsp).
  pose proof (skip_spaces_token tok "" Htok) as Hs. rewrite string_app_nil_r in Hs.
  rewrite Hs.
  pose proof (is_token_nonempty tok "" Htok) as Hn. rewrite string_app_nil_r in Hn.
  rewrite Hn. cbn [rest].
  unfold is_token in Htok. apply andb_true_iff in Htok as [_ Htok].
  rewrite (span_token_all _ Htok). reflexivity.
Qed.

Lemma read_string_blank cur sp :
  str_all isspace sp = true ->
  read_string cur {| rest := sp; eofbit := false; failbit := false |}
  = (cur, {| rest := ""; eofbit := true; failbit := true |}).
Proof.
  intros Hsp. unfold read_string, sentry, good. cbn [eofbit failbit rest negb andb].
  pose proof (skip_spaces_app sp "" Hsp) as Hs. rewrite string_app_nil_r in Hs.
  rewrite Hs. reflexivity.
Qed.

Lemma LoadSet_loop_eof n r fb flag acc :
  LoadSet_loop n {| rest := r; eofbit := true; failbit := fb |} flag acc = acc.
Proof. destruct n; reflexivity. Qed.

Lemma LoadSet_loop_words ws : forall n flag acc sp0,
  ws <> [] ->
  Forall (fun wsp => is_word wsp = true) ws ->
  separated ws = true ->
  str_all isspace sp0 = true ->
  (length ws <= n)%nat ->
  LoadSet_loop n {| rest := sp0 ++ words_line ws; eofbit := false; failbit := false |}
    flag acc
  = fold_left (fun a w => set_insert w a) (map fst ws) acc.
Proof.
  induction ws as [|[w sp] ws IH]; intros n flag acc sp0 Hne Hall Hsep Hsp0 Hn;
    [contradiction|].
  apply Forall_cons in Hall as [Hw Hall]. unfold is_word in Hw. cbn [fst snd] in Hw.
  apply andb_true_iff in Hw as [Hw Hsp].
  destruct n as [|n]; [simpl in Hn; lia|].
  cbn [LoadSet_loop eof eofbit words_line map fst fold_left].
  destruct ws as [|wsp ws].
  - cbn [words_line fold_left map]. rewrite string_app_nil_r.
    destruct sp as [|c sp].
    + rewrite string_app_nil_r, (read_string_token_end _ _ _ Hsp0 Hw).
      apply LoadSet_loop_eof.
    + simpl in Hsp. apply andb_true_iff in Hsp as [Hc Hsp].
      rewrite (read_string_token flag sp0 w c sp Hsp0 Hw Hc).
      destruct n as [|n]; [reflexivity|]. cbn [LoadSet_loop eof eofbit].
      rewrite read_string_blank by (simpl; rewrite Hc, Hsp; reflexivity).
      rewrite LoadSet_loop_eof. apply set_insert_idem.
  - cbn [separated] in Hsep. apply andb_true_iff in Hsep as [Hsp1 Hsep].
    destruct sp as [|c sp]; [discriminate|].
    assert (Hsp' : str_all isspace (String c sp) = true) by exact Hsp.
    simpl in Hsp. apply andb_true_iff in Hsp as [Hc Hsp].
    rewrite string_app_cons.
    rewrite (read_string_token flag sp0 w c _ Hsp0 Hw Hc).
    rewrite <- string_app_cons.
    apply (IH n w (set_insert w acc) (String c sp)); try assumption.
    + discriminate.
    + simpl in Hn. simpl. lia.
Qed.

Lemma set_find_ordered_insert x y s :
  set_find x (ordered_insert y s) = ci_equiv x y || set_find x s.
Proof.
  unfold set_find. induction s as [|z s IH]; [reflexivity|]. simpl.
  destruct (ciLess y z); simpl; [reflexivity|]. rewrite IH.
  destruct (ci_equiv x z), (ci_equiv x y); reflexivity.
Qed.

Lemma ci_equiv_sym a b : ci_equiv a b = ci_equiv b a.
Proof. unfold ci_equiv. apply andb_comm. Qed.

Lemma ci_equiv_trans a b c : ci_equiv a b = true -> ci_equiv b c = true -> ci_equiv a c = true.
Proof. rewrite !ci_equiv_ciStringEqual. apply ciStringEqual_trans. Qed.

Lemma set_find_equiv x y s : ci_equiv x y = true -> set_find x s = set_find y s.
Proof.
  intros H. unfold set_find. induction s as [|z s IH]; [reflexivity|]. simpl. rewrite IH.
  f_equal. destruct (ci_equiv x z) eqn:E1, (ci_equiv y z) eqn:E2; try reflexivity.
  - rewrite ci_equiv_sym in H. rewrite (ci_equiv_trans _ _ _ H E1) in E2. discriminate.
  - rewrite (ci_equiv_trans _ _ _ H E2) in E1. discriminate.
Qed.

Lemma set_find_set_insert x y s : set_find x (set_insert y s) = ci_equiv x y || set_find x s.
Proof.
  unfold set_insert. destruct (set_find y s) eqn:Hy.
  - destruct (ci_equiv x y) eqn:E; [|reflexivity].
    rewrite (set_find_equiv x y s E), Hy. reflexivity.
  - apply set_find_ordered_insert.
Qed.

Lemma set_find_fold_insert x ws : forall acc,
  set_find x (fold_left (fun a w => set_insert w a) ws acc)
  = existsb (ci_equiv x) ws || set_find x acc.
Proof.
  induction ws as [|w ws IH]; intros acc; [reflexivity|]. cbn [fold_left existsb].
  rewrite IH, set_find_set_insert.
  destruct (existsb (ci_equiv x) ws), (ci_equiv x w), (set_find x acc); reflexivity.
Qed.

Lemma words_line_length ws :
  Forall (fun wsp => is_word wsp = true) ws ->
  (length ws <= String.length (words_line ws))%nat.
Proof.
  induction 1 as [|[w sp] ws Hw Hall IH]; [simpl; lia|].
  cbn [words_line length]. rewrite !str_length_app.
  unfold is_word in Hw. apply andb_true_iff in Hw as [Hw _]. cbn [fst] in Hw.
  destruct w; [discriminate|]. simpl. lia.
Qed.

(** X18.  [LoadSet] on a stream whose next line holds words separated by
    blanks (blanks before the first and after the last word allowed): the
    set is the words, a word being in it whatever its letter case and once
    however often it is written, and the stream is left after the line. *)
Theorem LoadSet_words (sp0 : string) (ws : list (string * string)) (more : string) :
  ws <> [] ->
  Forall (fun wsp => is_word wsp = true) ws ->
  separated ws = true ->
  str_all isspace sp0 = true ->
  no_nl (sp0 ++ words_line ws) = true ->
  let r := LoadSet {| rest := (sp0 ++ words_line ws) ++ nl ++ more;
                      eofbit := false; failbit := false |} in
  fst r = fold_left (fun a w => set_insert w a) (map fst ws) []
  /\ (forall x, set_find x (fst r) = existsb (ci_equiv x) (map fst ws))
  /\ snd r = {| rest := more; eofbit := false; failbit := false |}.
Proof.
  intros Hne Hall Hsep Hsp0 Hnl r. subst r.
  unfold LoadSet, getline, good. cbn [eofbit failbit rest negb andb].
  change (nl ++ more) with (String (ascii_of_nat 10) more).
  rewrite (find_char_app_no _ _ _ Hnl), str_take_app.
  change (S (String.length (sp0 ++ words_line ws)))
    with (String.length (String (ascii_of_nat 10) (sp0 ++ words_line ws))).
  cbn [fst snd]. unfold istringstream.
  rewrite (LoadSet_loop_words ws _ "" [] sp0 Hne Hall Hsep Hsp0).
  2:{ pose proof (words_line_length ws Hall). simpl. rewrite str_length_app. lia. }
  split; [reflexivity|]. split.
  - intros x. rewrite set_find_fold_insert. apply orb_false_r.
  - f_equal. clear. induction (sp0 ++ words_line ws) as [|c s IH]; [reflexivity|].
    rewrite string_app_cons. exact IH.
Qed.

Lemma LoadSet_words_witness :
  fst (LoadSet (istringstream (("n s  E n ") ++ nl ++ "new quit" ++ nl)))
  = fold_left (fun a w => set_insert w a) ["n"; "s"; "E"; "n"] []
  /\ snd (LoadSet (istringstream (("n s  E n ") ++ nl ++ "new quit" ++ nl)))
     = istringstream ("new quit" ++ nl).
Proof.
  pose proof (LoadSet_words "" [("n", " "); ("s", "  "); ("E", " "); ("n", " ")]
                ("new quit" ++ nl)) as H.
  destruct H as (H1 & _ & H3); try reflexivity.
  - discriminate.
  - repeat constructor.
  - split; [exact H1|exact H3].
Defined.

(** ** Replacing text *)

Lemma replace_scan_skip t r s : forall k,
  replace_scan t r s k = replace_scan t r (str_drop k s) 0.
Proof.
  induction s as [|c s IH]; intros [|k]; try reflexivity. simpl. apply IH.
Qed.

Lemma str_find_none_scan t r s :
  t <> "" -> str_find t s = None -> replace_scan t r s 0 = s.
Proof.
  intros Ht. induction s as [|c s IH]; [reflexivity|]. cbn [str_find replace_scan].
  destruct (str_prefix t (String c s)); [discriminate|].
  destruct (str_find t s); [discriminate|]. intros _. rewrite IH; reflexivity.
Qed.

Lemma str_find_some_scan t r s : forall i,
  t <> "" -> str_find t s = Some i ->
  replace_scan t r s 0
  = str_take i s ++ r ++ replace_scan t r (str_drop (i + String.length t) s) 0.
Proof.
  induction s as [|c s IH]; intros i Ht.
  - cbn [str_find]. destruct t; [contradiction|]. discriminate.
  - cbn [str_find replace_scan]. destruct (str_prefix t (String c s)) eqn:Hp.
    + intros [= <-]. cbn [str_take]. change ("" ++ ?x) with x. f_equal.
      rewrite replace_scan_skip. destruct t as [|a t]; [contradiction|].
      cbn [String.length Nat.add Nat.sub str_drop]. rewrite Nat.sub_0_r. reflexivity.
    + destruct (str_find t s) as [j|] eqn:Hj; [|discriminate]. intros [= <-].
      cbn [str_take Nat.add str_drop]. rewrite string_app_cons. f_equal.
      apply IH; [exact Ht|reflexivity].
Qed.

Lemma str_find_bound t s i : t <> "" -> str_find t s = Some i ->
  (i + String.length t <= String.length s)%nat.
Proof.
  intros Ht. revert i. induction s as [|c s IH]; intros i.
  - cbn [str_find]. destruct t; [contradiction|]. discriminate.
  - cbn [str_find]. destruct (str_prefix t (String c s)) eqn:Hp.
    + intros [= <-]. clear IH. revert Hp. generalize (String c s) as u. clear.
      induction t as [|a t IH]; intros u Hp; [simpl; lia|].
      destruct u as [|b u]; [discriminate|]. simpl in Hp.
      apply andb_true_iff in Hp as [_ Hp]. specialize (IH u Hp). simpl in *. lia.
    + destruct (str_find t s) as [j|]; [|discriminate]. intros [= <-].
      specialize (IH j eq_refl). simpl. lia.
Qed.

Lemma str_take_app_more a b n :
  str_take (String.length a + n) (a ++ b) = a ++ str_take n b.
Proof.
  induction a as [|c a IH]; [reflexivity|]. rewrite !string_app_cons. simpl. rewrite IH.
  reflexivity.
Qed.

Lemma str_drop_app_more a b n :
  str_drop (String.length a + n) (a ++ b) = str_drop n b.
Proof.
  induction a as [|c a IH]; [reflexivity|]. rewrite string_app_cons. simpl. apply IH.
Qed.

Lemma str_length_take n s : (n <= String.length s)%nat -> String.length (str_take n s) = n.
Proof.
  revert s. induction n as [|n IH]; intros [|c s] H; simpl in *; try lia.
  rewrite IH; lia.
Qed.

Lemma FindAndReplace_loop_scan t r : t <> "" -> forall rounds done rest,
  (String.length rest < rounds)%nat ->
  FindAndReplace_loop rounds t r (done ++ rest) (String.length done)
  = done ++ replace_scan t r rest 0.
Proof.
  intros Ht. induction rounds as [|n IH]; intros done rest Hn; [lia|].
  cbn [FindAndReplace_loop]. unfold str_find_from.
  replace (Nat.leb (String.length done) (String.length (done ++ rest))) with true
    by (symmetry; apply Nat.leb_le; rewrite str_length_app; lia).
  rewrite str_drop_app.
  destruct (str_find t rest) as [i|] eqn:Hi; cbn [fmap option_fmap option_map].
  - pose proof (str_find_bound t rest i Ht Hi) as Hb.
    rewrite (str_find_some_scan t r rest i Ht Hi).
    rewrite str_take_app_more.
    rewrite <- Nat.add_assoc, str_drop_app_more.
    replace (done ++ str_take i rest ++ r ++ replace_scan t r (str_drop (i + String.length t) rest) 0)
      with ((done ++ str_take i rest ++ r)
            ++ replace_scan t r (str_drop (i + String.length t) rest) 0)
      by (rewrite !string_app_assoc; reflexivity).
    rewrite <- IH.
    + f_equal.
      * rewrite !string_app_assoc. reflexivity.
      * rewrite !str_length_app, str_length_take by lia. lia.
    + rewrite length_str_drop. destruct t; [contradiction|]. simpl in *. lia.
  - rewrite (str_find_none_scan t r rest Ht Hi). reflexivity.
Qed.

Lemma replace_scan_head s c o :
  replace_scan "%r" nl s 0 = String c o -> c = "r"%char ->
  exists s', s = String "r" s'.
Proof.
  destruct s as [|d s]; [discriminate|]. cbn [replace_scan].
  destruct (str_prefix "%r" (String d s)).
  - rewrite nl_app. intros [= <- _] E. discriminate E.
  - intros [= -> _] ->. eauto.
Qed.

Lemma replace_scan_clean n : forall s, (String.length s <= n)%nat ->
  str_find "%r" (replace_scan "%r" nl s 0) = None.
Proof.
  induction n as [|n IH]; intros s Hn.
  - destruct s; [reflexivity|simpl in Hn; lia].
  - destruct s as [|c s]; [reflexivity|]. cbn [replace_scan].
    destruct (str_prefix "%r" (String c s)) eqn:Hp.
    + destruct s as [|d s]; [simpl in Hp; rewrite andb_false_r in Hp; discriminate|].
      cbn [String.length Nat.sub replace_scan]. rewrite nl_app.
      cbn [str_find str_prefix]. change (Ascii.eqb "%" (ascii_of_nat 10)) with false.
      cbn [andb]. rewrite IH by (simpl in Hn; lia). reflexivity.
    + cbn [str_find]. rewrite IH by (simpl in Hn; lia).
      destruct (str_prefix "%r" (String c (replace_scan "%r" nl s 0))) eqn:Hq; [|reflexivity].
      exfalso. cbn [str_prefix] in Hp, Hq.
      apply andb_true_iff in Hq as [Hc Hq]. rewrite Hc in Hp. cbn [andb] in Hp.
      destruct (replace_scan "%r" nl s 0) as [|e o] eqn:Ho; [discriminate|].
      apply andb_true_iff in Hq as [He _]. apply Ascii.eqb_eq in He.
      destruct (replace_scan_head s e o Ho (eq_sym He)) as (s' & ->).
      simpl in Hp. discriminate.
Qed.

(** X19.  [FindAndReplace] with a non-empty target is one pass over the
    source from left to right, writing the replacement where the target
    starts and skipping the target, so that what was written is not
    searched again; an empty target, or a source without the target, gives
    the source back.  With the arguments of its two callers, "%r" and a line
    end, the result has no "%r" left. *)
Theorem FindAndReplace_spec (source target replacement : string) :
  (target <> "" ->
     FindAndReplace source target replacement = replace_scan target replacement source 0)
  /\ FindAndReplace source "" replacement = source
  /\ (target <> "" -> str_find target source = None ->
      FindAndReplace source target replacement = source)
  /\ (forall i, target <> "" -> str_find target source = Some i ->
      FindAndReplace source target replacement
      = str_take i source ++ replacement
        ++ FindAndReplace (str_drop (i + String.length target) source) target replacement)
  /\ str_find "%r" (FindAndReplace source "%r" nl) = None.
Proof.
  assert (Hscan : forall s t r, t <> "" -> FindAndReplace s t r = replace_scan t r s 0).
  { intros s t r Ht. unfold FindAndReplace.
    destruct t as [|a t]; [contradiction|]. cbn [String.length Nat.ltb Nat.leb].
    apply (FindAndReplace_loop_scan (String a t) r Ht (S (String.length s)) "" s). lia. }
  split; [apply Hscan|]. split; [reflexivity|]. split; [|split].
  - intros Ht Hnone. rewrite Hscan by exact Ht. apply str_find_none_scan; assumption.
  - intros i Ht Hi. rewrite !Hscan by exact Ht. apply str_find_some_scan; assumption.
  - rewrite Hscan by discriminate. apply (replace_scan_clean (String.length source)). lia.
Qed.

(** ** Loading the messages *)

Lemma message_of_insert k v m c :
  message_of (message_insert k v m) c = if ci_equiv c k then v else message_of m c.
Proof.
  induction m as [|[k' v'] m IH]; [reflexivity|]. cbn [message_insert].
  destruct (ci_equiv k k') eqn:E.
  - cbn [message_of]. destruct (ci_equiv c k') eqn:E1, (ci_equiv c k) eqn:E2; try reflexivity.
    + rewrite ci_equiv_sym in E. rewrite (ci_equiv_trans _ _ _ E1 E) in E2. discriminate.
    + rewrite (ci_equiv_trans _ _ _ E2 E) in E1. discriminate.
  - destruct (ciLess k k').
    + reflexivity.
    + cbn [message_of]. rewrite IH.
      destruct (ci_equiv c k') eqn:E1, (ci_equiv c k) eqn:E2; try reflexivity.
      rewrite ci_equiv_sym in E2. rewrite (ci_equiv_trans _ _ _ E2 E1) in E. discriminate.
Qed.

Lemma LoadMessages_loop_entries entries : forall n m,
  Forall (fun e => message_entry_ok e = true) entries ->
  (length entries < n)%nat ->
  LoadMessages_loop n (istringstream (String.concat "" (map message_line entries))) m
  = fold_left (fun acc e => message_insert (tolower (fst e))
                              (FindAndReplace (snd e) "%r" nl) acc) entries m.
Proof.
  induction entries as [|[code text] entries IH]; intros n m Hall Hn.
  - destruct n as [|n]; [lia|]. cbn. destruct n; reflexivity.
  - destruct n as [|n]; [simpl in Hn; lia|]. apply Forall_cons in Hall as [He Hall].
    unfold message_entry_ok in He. cbn [fst snd] in He.
    apply andb_true_iff in He as [He Hfix]. apply andb_true_iff in He as [He Hne].
    apply andb_true_iff in He as [Hcode Hnl].
    apply bool_decide_eq_true_1 in Hfix. apply negb_true_iff in Hne.
    cbn [map LoadMessages_loop fold_left fst snd]. rewrite concat_cons.
    change (message_line (code, text)) with (code ++ " " ++ text ++ nl).
    unfold istringstream. cbn [eof eofbit].
    rewrite !string_app_assoc.
    change (" " ++ ?x) with (String " " x).
    pose proof (read_string_token "" "" code " "
                  (text ++ nl ++ String.concat "" (map message_line entries))
                  eq_refl Hcode eq_refl) as X.
    change ("" ++ ?x) with x in X. rewrite X. clear X.
    unfold ws, good. cbn [eofbit failbit rest negb andb skip_spaces isspace].
    change (isspace " ") with true. cbv iota.
    assert (Hskip : skip_spaces (text ++ nl ++ String.concat "" (map message_line entries))
                    = text ++ nl ++ String.concat "" (map message_line entries)).
    { destruct text as [|c text]; [discriminate|]. rewrite string_app_cons.
      simpl in Hfix |- *. destruct (isspace c) eqn:Hc; [|reflexivity].
      exfalso. clear -Hfix.
      assert (H : forall s, (String.length (skip_spaces s) <= String.length s)%nat).
      { induction s as [|d s IHs]; [simpl; lia|]. simpl. destruct (isspace d); simpl; lia. }
      specialize (H text). rewrite Hfix in H. simpl in H. lia. }
    rewrite Hskip.
    assert (Hfull : str_empty (text ++ nl ++ String.concat "" (map message_line entries))
                    = false).
    { destruct text; [discriminate|reflexivity]. }
    rewrite Hfull. unfold getline, good. cbn [eofbit failbit rest negb andb].
    rewrite nl_app, (find_char_app_no _ _ _ Hnl), str_take_app.
    assert (Hdrop : forall a b, str_drop (S (String.length a)) (a ++ String (ascii_of_nat 10) b) = b).
    { intros a b. induction a as [|c a IHa]; [reflexivity|]. rewrite string_app_cons. exact IHa. }
    rewrite Hdrop.
    unfold is_token in Hcode. apply andb_true_iff in Hcode as [Hcne _].
    rewrite Hcne.
    apply (IH n _ Hall). simpl in Hn. lia.
Qed.

(** X20.  [LoadMessages] on a messages file whose lines are a code, a blank
    and a text that starts with a visible character: afterwards the message
    of a code is the text of the last line with that code, whatever the
    letter case, with every "%r" replaced by a line end, and the message of
    any other code is what it was; nothing else changes.  Without the file
    only a line is logged. *)
Theorem LoadMessages_spec (w : World) (entries : list (string * string)) :
  (files w !! MESSAGES_FILE = None ->
     snd (LoadMessages w) = Done tt /\ only_logs w (fst (LoadMessages w)))
  /\ (files w !! MESSAGES_FILE = Some (String.concat "" (map message_line entries)) ->
      Forall (fun e => message_entry_ok e = true) entries ->
      snd (LoadMessages w) = Done tt
      /\ fst (LoadMessages w) = set_messagemap (messagemap (fst (LoadMessages w))) w
      /\ forall code,
           message_of (messagemap (fst (LoadMessages w))) code
           = fold_left (fun text e => if ciStringEqual code (fst e)
                                      then FindAndReplace (snd e) "%r" nl else text)
               entries (message_of (messagemap w) code)).
Proof.
  unfold LoadMessages. split.
  - intros ->. split; [reflexivity|]. unfold only_logs. simpl. tauto.
  - intros -> Hall. cbn [fst snd]. split; [reflexivity|]. split; [reflexivity|].
    intros code. cbn [messagemap set_messagemap].
    rewrite (LoadMessages_loop_entries entries _ (messagemap w) Hall).
    2:{ assert (H : forall l, (length l <= String.length (String.concat "" (map message_line l)))%nat).
        { induction l as [|e l IHl]; [simpl; lia|]. cbn [map length]. rewrite concat_cons.
          unfold message_line at 1. rewrite !str_length_app. simpl. lia. }
        specialize (H entries). lia. }
    generalize (messagemap w) as m. induction entries as [|e entries IH]; intros m.
    + reflexivity.
    + apply Forall_cons in Hall as [_ Hall]. cbn [fold_left]. rewrite (IH Hall).
      rewrite message_of_insert, ci_equiv_ciStringEqual.
      rewrite (ciStringEqual_congr_r code (tolower (fst e)) (fst e))
        by apply ciStringEqual_tolower.
      reflexivity.
Qed.

(** ** Loading the rooms *)

(** Reading an [int] either gives a value that does not depend on what the
    variable held, or fails and leaves the variable alone. *)
Lemma read_int_indeterminate g1 g2 f :
  read_int g1 f = read_int g2 f
  \/ exists i, read_int g1 f = (g1, i) /\ read_int g2 f = (g2, i)
               /\ failbit i = true.
Proof.
  unfold read_int. destruct (sentry f) as [[] i1] eqn:Hs.
  - left. reflexivity.
  - right. exists i1. split; [reflexivity|]. split; [reflexivity|].
    unfold sentry in Hs. destruct (good f).
    + destruct (str_empty _); inversion Hs. reflexivity.
    + inversion Hs. reflexivity.
Qed.

Lemma failed_not_good i : failbit i = true -> good i = false.
Proof. intros H. unfold good. rewrite H. apply andb_false_r. Qed.

Lemma LoadRooms_exits_indeterminate g1 g2 vnum directions : forall rounds iss exits out,
  LoadRooms_exits rounds g1 vnum iss directions exits out
  = LoadRooms_exits rounds g2 vnum iss directions exits out.
Proof.
  induction rounds as [|n IH]; intros iss exits out; [reflexivity|].
  cbn [LoadRooms_exits]. destruct (good iss); [|reflexivity].
  destruct (read_string "" iss) as [dir is1].
  destruct (read_int_indeterminate g1 g2 is1) as [E|(i & E1 & E2 & Hf)].
  - rewrite E. destruct (read_int g2 is1) as [v is2]. cbv zeta.
    destruct (fail (ws is2)); [apply IH|].
    destruct (negb (set_find dir directions)); [apply IH|].
    destruct (str_empty dir || (v =? 0)); [reflexivity|apply IH].
  - rewrite E1, E2. cbv zeta.
    assert (Hw : fail (ws i) = true).
    { unfold ws. rewrite (failed_not_good _ Hf). reflexivity. }
    rewrite Hw. apply IH.
Qed.

Lemma LoadRooms_loop_indeterminate g1 g2 directions : forall rounds f rooms out,
  LoadRooms_loop rounds g1 f directions rooms out
  = LoadRooms_loop rounds g2 f directions rooms out.
Proof.
  induction rounds as [|n IH]; intros f rooms out; [reflexivity|].
  cbn [LoadRooms_loop]. destruct (eof f); [reflexivity|].
  destruct (read_int_indeterminate g1 g2 f) as [E|(i & E1 & E2 & Hf)].
  - rewrite E. destruct (read_int g2 f) as [vnum f1].
    destruct (getline "" (ignore_line f1)) as [description f3].
    destruct ((vnum =? 0) || str_empty description); [reflexivity|].
    destruct (getline "" f3) as [sLine f4].
    destruct (bool_decide (is_Some (rooms !! vnum))); [apply IH|].
    rewrite (LoadRooms_exits_indeterminate g1 g2).
    destruct (LoadRooms_exits _ g2 _ _ _ _ _) as [exits out']. apply IH.
  - rewrite E1, E2.
    assert (Hg : getline "" (ignore_line i) = ("", set_fail (set_fail i))).
    { unfold ignore_line. rewrite (failed_not_good _ Hf).
      unfold getline. rewrite (failed_not_good (set_fail i)) by reflexivity. reflexivity. }
    rewrite Hg. cbn [str_empty]. rewrite !orb_true_r. reflexivity.
Qed.

Lemma exit_find_insert k v e d :
  exit_find (exit_insert k v e) d = if String.eqb k d then Some v else exit_find e d.
Proof.
  induction e as [|[k' v'] e IH]; [reflexivity|]. cbn [exit_insert].
  destruct (String.eqb k k') eqn:E.
  - apply String.eqb_eq in E. subst k'. cbn [exit_find]. destruct (String.eqb k d); reflexivity.
  - destruct (String.ltb k k').
    + reflexivity.
    + cbn [exit_find]. rewrite IH. destruct (String.eqb k' d) eqn:E1; [|reflexivity].
      apply String.eqb_eq in E1. subst k'. rewrite E. reflexivity.
Qed.

Lemma string_of_uint_digits u : str_all isdigit (NilEmpty.string_of_uint u) = true.
Proof. induction u; simpl; try reflexivity; exact IHu. Qed.

Lemma isdigit_visible s : str_all isdigit s = true ->
  str_all (fun c => negb (isspace c)) s = true.
Proof.
  induction s as [|c s IH]; [reflexivity|]. simpl. intros H.
  apply andb_true_iff in H as [Hc Hs]. rewrite (isdigit_not_space _ Hc), (IH Hs). reflexivity.
Qed.

Lemma string_of_Z_visible z : str_all (fun c => negb (isspace c)) (string_of_Z z) = true.
Proof.
  unfold string_of_Z. destruct z as [|p|p]; [reflexivity| |].
  - cbn [Z.to_int NilZero.string_of_int]. unfold NilZero.string_of_uint.
    destruct (Pos.to_uint p) eqn:E; try reflexivity;
      rewrite <- E; apply isdigit_visible, string_of_uint_digits.
  - cbn [Z.to_int NilZero.string_of_int]. unfold NilZero.string_of_uint.
    destruct (Pos.to_uint p) eqn:E; try reflexivity;
      rewrite <- E; cbn [str_all]; apply isdigit_visible, string_of_uint_digits.
Qed.

Lemma visible_no_nl s : str_all (fun c => negb (isspace c)) s = true -> no_nl s = true.
Proof.
  unfold no_nl. induction s as [|c s IH]; [reflexivity|]. simpl. intros H.
  apply andb_true_iff in H as [Hc Hs]. rewrite (IH Hs), andb_true_r.
  destruct (Ascii.eqb_spec c (ascii_of_nat 10)) as [->|]; [discriminate Hc|reflexivity].
Qed.

Lemma no_nl_app a b : no_nl (a ++ b) = no_nl a && no_nl b.
Proof. apply str_all_app. Qed.

Lemma exit_ok_parts directions e :
  exit_ok directions e = true ->
  is_token (fst e) = true /\ set_find (fst e) directions = true /\ snd e <> 0
  /\ INT_MIN <= snd e <= INT_MAX.
Proof.
  unfold exit_ok. rewrite !andb_true_iff, negb_true_iff, Z.eqb_neq, !Z.leb_le. tauto.
Qed.

Lemma exits_line_no_nl directions l :
  forallb (exit_ok directions) l = true -> no_nl (String.concat "" (map exit_text l)) = true.
Proof.
  induction l as [|e l IH]; [reflexivity|]. cbn [forallb map]. intros H.
  apply andb_true_iff in H as [He Hl]. rewrite concat_cons, no_nl_app, (IH Hl), andb_true_r.
  destruct (exit_ok_parts _ _ He) as (Ht & _).
  unfold exit_text. rewrite !no_nl_app.
  unfold is_token in Ht. apply andb_true_iff in Ht as [_ Ht].
  rewrite (visible_no_nl _ Ht), (visible_no_nl _ (string_of_Z_visible _)). reflexivity.
Qed.

Lemma exits_line_skip directions l :
  forallb (exit_ok directions) l = true ->
  skip_spaces (String.concat "" (map exit_text l)) = String.concat "" (map exit_text l).
Proof.
  destruct l as [|e l]; [reflexivity|]. cbn [forallb map]. intros H.
  apply andb_true_iff in H as [He _]. destruct (exit_ok_parts _ _ He) as (Ht & _).
  rewrite concat_cons. unfold exit_text. rewrite !string_app_assoc.
  apply skip_spaces_token, Ht.
Qed.

Lemma exits_line_length l : (length l <= String.length (String.concat "" (map exit_text l)))%nat.
Proof.
  induction l as [|e l IH]; [simpl; lia|]. cbn [map length]. rewrite concat_cons.
  unfold exit_text at 1. rewrite !str_length_app. simpl. lia.
Qed.

Lemma sp_app x : " " ++ x = String " " x.
Proof. reflexivity. Qed.

Lemma LoadRooms_exits_ok g vnum directions : forall l n acc out,
  forallb (exit_ok directions) l = true ->
  (length l < n)%nat ->
  LoadRooms_exits n g vnum
    {| rest := String.concat "" (map exit_text l);
       eofbit := str_empty (String.concat "" (map exit_text l)); failbit := false |}
    directions acc out
  = (fold_left (fun e x => exit_insert (fst x) (snd x) e) l acc, out).
Proof.
  induction l as [|[d v] l IH]; intros n acc out Hall Hn.
  - destruct n as [|n]; [lia|]. reflexivity.
  - destruct n as [|n]; [simpl in Hn; lia|]. cbn [forallb] in Hall.
    apply andb_true_iff in Hall as [He Hall].
    destruct (exit_ok_parts _ _ He) as (Ht & Hd & Hv & Hrange). cbn [fst snd] in *.
    cbn [map fold_left fst snd]. rewrite concat_cons.
    change (exit_text (d, v)) with (d ++ " " ++ string_of_Z v ++ " ").
    rewrite !string_app_assoc.
    rewrite (is_token_nonempty d _ Ht).
    cbn [LoadRooms_exits good eofbit failbit negb andb].
    rewrite !sp_app.
    pose proof (read_string_token "" "" d " "
                  (string_of_Z v ++ String " " (String.concat "" (map exit_text l)))
                  eq_refl Ht eq_refl) as X.
    change ("" ++ ?x) with x in X. rewrite X. clear X.
    pose proof (read_int_string_of_Z g " " v " " (String.concat "" (map exit_text l))
                  eq_refl Hrange eq_refl) as X.
    rewrite !sp_app in X. rewrite X. clear X.
    unfold ws, good. cbn [eofbit failbit rest negb andb fail skip_spaces].
    change (isspace " ") with true. cbv iota.
    rewrite (exits_line_skip _ _ Hall), Hd. cbn [negb].
    unfold is_token in Ht. apply andb_true_iff in Ht as [Hne _].
    apply negb_true_iff in Hne. rewrite Hne. cbn [orb].
    replace (v =? 0) with false by (symmetry; apply Z.eqb_neq, Hv).
    apply IH; [exact Hall|simpl in Hn; lia].
Qed.

Lemma room_ok_parts directions r :
  room_ok directions r = true ->
  fst (fst r) <> 0 /\ INT_MIN <= fst (fst r) <= INT_MAX
  /\ str_empty (snd (fst r)) = false /\ no_nl (snd (fst r)) = true
  /\ forallb (exit_ok directions) (snd r) = true.
Proof.
  unfold room_ok. rewrite !andb_true_iff, !negb_true_iff, Z.eqb_neq, !Z.leb_le. tauto.
Qed.

Lemma str_drop_line a b : str_drop (S (String.length a)) (a ++ String (ascii_of_nat 10) b) = b.
Proof. induction a as [|c a IH]; [reflexivity|]. rewrite string_app_cons. exact IH. Qed.

Lemma rooms_text_length l :
  (length l <= String.length (String.concat "" (map room_text l)))%nat.
Proof.
  induction l as [|e l IH]; [simpl; lia|]. cbn [map length]. rewrite concat_cons.
  unfold room_text at 1. rewrite !str_length_app. simpl. lia.
Qed.

Lemma LoadRooms_loop_ok g directions : forall rooms n rm out,
  Forall (fun r => room_ok directions r = true) rooms ->
  NoDup (map (fun r => fst (fst r)) rooms) ->
  Forall (fun r => rm !! fst (fst r) = None) rooms ->
  (length rooms < n)%nat ->
  LoadRooms_loop n g (istringstream (String.concat "" (map room_text rooms))) directions rm out
  = (fold_left (fun m r => <[fst (fst r) := room_of r]> m) rooms rm,
     (out ++ flat_map (fun r => match snd r with
                                | [] => [("Bad vnum for exit  for room "
                                          ++ string_of_Z (fst (fst r)))%string]
                                | _ => []
                                end) rooms)%list).
Proof.
  induction rooms as [|[[vnum desc] exs] rooms IH]; intros n rm out Hall Hnd Hfresh Hn.
  - destruct n as [|n]; [lia|]. cbn. rewrite app_nil_r, orb_true_r. reflexivity.
  - destruct n as [|n]; [simpl in Hn; lia|].
    apply Forall_cons in Hall as [Hr Hall].
    destruct (room_ok_parts _ _ Hr) as (Hv & Hrange & Hne & Hnl & Hex). cbn [fst snd] in *.
    cbn [map] in Hnd. apply NoDup_cons in Hnd as [Hnotin Hnd].
    apply Forall_cons in Hfresh as [Hf1 Hfresh]. cbn [fst snd] in Hf1.
    cbn [map fold_left flat_map fst snd]. rewrite concat_cons.
    change (room_text (vnum, desc, exs))
      with (string_of_Z vnum ++ nl ++ desc ++ nl ++ String.concat "" (map exit_text exs) ++ nl).
    rewrite !string_app_assoc, !nl_app.
    unfold istringstream at 1. cbn [LoadRooms_loop eof eofbit].
    pose proof (read_int_string_of_Z g "" vnum (ascii_of_nat 10)
                  (desc ++ String (ascii_of_nat 10)
                     (String.concat "" (map exit_text exs)
                      ++ String (ascii_of_nat 10) (String.concat "" (map room_text rooms))))
                  eq_refl Hrange eq_refl) as X.
    change ("" ++ ?x) with x in X. rewrite X. clear X.
    unfold ignore_line, good. cbn [eofbit failbit rest negb andb find_char].
    rewrite Ascii.eqb_refl. cbn [str_drop].
    unfold getline at 1, good. cbn [eofbit failbit rest negb andb].
    rewrite (find_char_app_no _ _ _ Hnl), str_take_app, str_drop_line.
    replace (vnum =? 0) with false by (symmetry; apply Z.eqb_neq, Hv).
    rewrite Hne. cbn [orb].
    unfold getline, good. cbn [eofbit failbit rest negb andb].
    rewrite (find_char_app_no _ _ _ (exits_line_no_nl _ _ Hex)), str_take_app, str_drop_line.
    rewrite Hf1. rewrite bool_decide_eq_false_2 by (intros [? ?]; discriminate).
    assert (Hexits : LoadRooms_exits (S (String.length (String.concat "" (map exit_text exs))))
                       g vnum (istringstream (String.concat "" (map exit_text exs)))
                       directions [] out
                     = (fold_left (fun e x => exit_insert (fst x) (snd x) e) exs [],
                        (out ++ match exs with
                                | [] => [("Bad vnum for exit  for room "
                                          ++ string_of_Z vnum)%string]
                                | _ => []
                                end)%list)).
    { destruct exs as [|e exs].
      - reflexivity.
      - rewrite app_nil_r. unfold istringstream.
        pose proof (LoadRooms_exits_ok g vnum directions (e :: exs)
                      (S (String.length (String.concat "" (map exit_text (e :: exs)))))
                      [] out Hex) as X.
        assert (Hfull : str_empty (String.concat "" (map exit_text (e :: exs))) = false).
        { cbn [forallb] in Hex. apply andb_true_iff in Hex as [He _].
          destruct (exit_ok_parts _ _ He) as (Ht & _).
          cbn [map]. rewrite concat_cons. unfold exit_text. rewrite !string_app_assoc.
          apply is_token_nonempty, Ht. }
        rewrite Hfull in X. apply X.
        pose proof (exits_line_length (e :: exs)). lia. }
    rewrite Hexits.
    fold (istringstream (String.concat "" (map room_text rooms))).
    rewrite (IH n); try assumption.
    + unfold room_of. cbn [fst snd]. rewrite <- app_assoc. reflexivity.
    + apply Forall_forall. intros r Hin. rewrite Forall_forall in Hfresh.
      rewrite lookup_insert_ne; [apply Hfresh, Hin|].
      intros E. apply Hnotin. rewrite E.
      apply (list_elem_of_fmap_2 (fun r => fst (fst r)) rooms r Hin).
    + simpl in Hn. lia.
Qed.

Lemma fold_insert_rooms_other (rooms : list (Z * string * list (string * Z))) :
  forall (rm : gmap Z tRoom) v,
  v ∉ map (fun r => fst (fst r)) rooms ->
  fold_left (fun m r => <[fst (fst r) := room_of r]> m) rooms rm !! v = rm !! v.
Proof.
  induction rooms as [|r rooms IH]; intros rm v Hv; [reflexivity|]. cbn [fold_left].
  cbn [map] in Hv. apply not_elem_of_cons in Hv as [Hne Hv].
  rewrite (IH _ _ Hv). apply lookup_insert_ne. congruence.
Qed.

Lemma fold_insert_rooms_listed (rooms : list (Z * string * list (string * Z))) :
  forall (rm : gmap Z tRoom) r,
  NoDup (map (fun r => fst (fst r)) rooms) ->
  r ∈ rooms ->
  fold_left (fun m r => <[fst (fst r) := room_of r]> m) rooms rm !! fst (fst r)
  = Some (room_of r).
Proof.
  induction rooms as [|r0 rooms IH]; intros rm r Hnd Hin.
  - apply elem_of_nil in Hin. contradiction.
  - cbn [map] in Hnd. apply NoDup_cons in Hnd as [Hnotin Hnd]. cbn [fold_left].
    apply elem_of_cons in Hin as [->|Hin].
    + rewrite (fold_insert_rooms_other _ _ _ Hnotin). apply lookup_insert_eq.
    + apply IH; assumption.
Qed.

(** X21.  [LoadRooms].  What the two variables that the program reads into
    without initialising them held makes no difference.  Without the rooms
    file only a line is logged.  On a rooms file that gives, for each room, a
    non-zero number, a description and a line of exits (direction and
    non-zero room number, each followed by a blank, the direction one of the
    control file), the numbers being different and new: every listed room is
    in the room map, its description being the text with each "%r" replaced
    by a line end and a line end added, and an exit being found under its
    direction (the last one, when a direction is given twice); the other
    rooms are as they were; a room without exits makes the program report a
    bad exit; nothing else changes. *)
Theorem LoadRooms_spec (g : Z) (w : World) (rooms : list (Z * string * list (string * Z))) :
  (forall g', LoadRooms g' w = LoadRooms g w)
  /\ (files w !! ROOMS_FILE = None ->
      snd (LoadRooms g w) = Done tt /\ only_logs w (fst (LoadRooms g w)))
  /\ (files w !! ROOMS_FILE = Some (String.concat "" (map room_text rooms)) ->
      Forall (fun r => room_ok (directionset w) r = true) rooms ->
      NoDup (map (fun r => fst (fst r)) rooms) ->
      Forall (fun r => roommap w !! fst (fst r) = None) rooms ->
      exists w',
        LoadRooms g w = (w', Done tt)
        /\ w' = set_console (console w') (set_roommap (roommap w') w)
        /\ (forall r, r ∈ rooms -> roommap w' !! fst (fst r) = Some (room_of r))
        /\ (forall v, v ∉ map (fun r => fst (fst r)) rooms -> roommap w' !! v = roommap w !! v)
        /\ console w'
           = (console w
              ++ flat_map (fun r => match snd r with
                                    | [] => [("Bad vnum for exit  for room "
                                              ++ string_of_Z (fst (fst r)))%string]
                                    | _ => []
                                    end) rooms)%list)
  /\ (forall r d,
        exit_find (exits (room_of r)) d
        = fold_left (fun found x => if String.eqb (fst x) d then Some (snd x) else found)
            (snd r) None).
Proof.
  split; [|split; [|split]].
  - intros g'. unfold LoadRooms. destruct (files w !! ROOMS_FILE); [|reflexivity].
    rewrite (LoadRooms_loop_indeterminate g' g). reflexivity.
  - intros H. unfold LoadRooms. rewrite H. split; [reflexivity|].
    unfold only_logs. simpl. tauto.
  - intros H Hall Hnd Hfresh. unfold LoadRooms. rewrite H.
    rewrite (LoadRooms_loop_ok g (directionset w) rooms _ (roommap w) (console w)
               Hall Hnd Hfresh)
      by (pose proof (rooms_text_length rooms); lia).
    eexists. split; [reflexivity|]. cbn [console roommap set_console set_roommap].
    split; [reflexivity|]. split; [|split; [|reflexivity]].
    + intros r Hin. apply fold_insert_rooms_listed; assumption.
    + intros v Hv. apply fold_insert_rooms_other, Hv.
  - intros r d. unfold room_of. cbn [exits].
    assert (G : forall l acc,
              exit_find (fold_left (fun e x => exit_insert (fst x) (snd x) e) l acc) d
              = fold_left (fun found x => if String.eqb (fst x) d then Some (snd x) else found)
                  l (exit_find acc d)).
    { induction l as [|x l IH]; intros acc; [reflexivity|]. cbn [fold_left].
      rewrite IH, exit_find_insert. reflexivity. }
    apply (G (snd r) []).
Qed.
